(** * carrosselflow: the inline markup engine and the Instagram publishing workflow

    A shallow embedding of
    - [renderFormattedText], the helper of the [CarouselSlide] component that
      turns a slide's title or body into styled segments, and
    - [publishCarouselToInstagram] with the service functions it calls
      (services/meta.ts),
    followed by the properties of the written specification, each proved or
    refuted on these definitions. *)

From Stdlib Require Import String Ascii DecimalString.
From Stdlib Require Import List NArith Arith Bool Lia.
From Equations Require Import Equations.
From Equations.Prop Require Import Logic.
Import ListNotations.

Set Implicit Arguments.

(** ** JavaScript strings

    A JavaScript string is a finite sequence of UTF-16 code units.  The
    markup engine's regular expression treats U+2028 and U+2029 specially,
    so code units are numbers rather than 8-bit characters. *)

Definition code_unit := N.
Definition jsstring := list code_unit.

(** A string literal of the source, one code unit per character. *)
Definition lit (s : string) : jsstring :=
  map N_of_ascii (list_ascii_of_string s).

(** [a === b] on strings. *)
Fixpoint jseqb (a b : jsstring) : bool :=
  match a, b with
  | [], [] => true
  | x :: a', y :: b' => (x =? y)%N && jseqb a' b'
  | _, _ => false
  end.

(** [s.startsWith(p)] *)
Fixpoint startsWith (p s : jsstring) : bool :=
  match p, s with
  | [], _ => true
  | x :: p', y :: s' => (x =? y)%N && startsWith p' s'
  | _ :: _, [] => false
  end.

(** [s.endsWith(p)] *)
Definition endsWith (p s : jsstring) : bool :=
  (length p <=? length s) && jseqb (skipn (length s - length p) s) p.

(** [s.slice(from, -back)]: the end index counts from the end of the string,
    both indices are clamped to the string, and an empty range gives the
    empty string. *)
Definition slice (from back : nat) (s : jsstring) : jsstring :=
  firstn ((length s - back) - from) (skipn from s).

(** [xs.map((x, i) => f(i, x))] *)
Fixpoint mapi_from {A B : Type} (i : nat) (f : nat -> A -> B) (xs : list A) : list B :=
  match xs with
  | [] => []
  | x :: xs' => f i x :: mapi_from (S i) f xs'
  end.

Definition mapi {A B : Type} (f : nat -> A -> B) (xs : list A) : list B :=
  mapi_from 0 f xs.

(** [xs.join(sep)] *)
Fixpoint join (sep : jsstring) (xs : list jsstring) : jsstring :=
  match xs with
  | [] => []
  | [x] => x
  | x :: xs' => x ++ sep ++ join sep xs'
  end.

(** A natural number interpolated into a template literal. *)
Definition decimal (n : nat) : jsstring :=
  lit (NilZero.string_of_uint (Nat.to_uint n)).

(** *** [encodeURIComponent]

    The built-in keeps the unreserved characters, writes every other code
    point as the [%XX] escapes of its UTF-8 bytes, and throws [URIError] on
    a surrogate that is not part of a pair ([None] here). *)

Definition is_unreserved (c : code_unit) : bool :=
  ((65 <=? c) && (c <=? 90) || (97 <=? c) && (c <=? 122)
   || (48 <=? c) && (c <=? 57))%N
  || existsb (N.eqb c) (lit "-_.!~*'()").

Definition is_leading_surrogate (c : code_unit) : bool :=
  ((55296 <=? c) && (c <=? 56319))%N.

Definition is_trailing_surrogate (c : code_unit) : bool :=
  ((56320 <=? c) && (c <=? 57343))%N.

Definition hex_digit (n : N) : code_unit :=
  (if n <? 10 then 48 + n else 55 + n)%N.

Definition percent_escape (octet : N) : jsstring :=
  [37%N; hex_digit (octet / 16); hex_digit (octet mod 16)].

Definition utf8 (cp : N) : list N :=
  (if cp <? 128 then [cp]
   else if cp <? 2048 then [192 + cp / 64; 128 + cp mod 64]
   else if cp <? 65536 then [224 + cp / 4096; 128 + (cp / 64) mod 64; 128 + cp mod 64]
   else [240 + cp / 262144; 128 + (cp / 4096) mod 64;
         128 + (cp / 64) mod 64; 128 + cp mod 64])%N.

Definition escape_code_point (cp : N) : jsstring :=
  concat (map percent_escape (utf8 cp)).

Fixpoint encodeURIComponent (s : jsstring) : option jsstring :=
  match s with
  | [] => Some []
  | c :: rest =>
      if is_unreserved c then option_map (cons c) (encodeURIComponent rest)
      else if is_trailing_surrogate c then None
      else if is_leading_surrogate c then
        match rest with
        | d :: rest' =>
            if is_trailing_surrogate d
            then option_map
                   (app (escape_code_point ((c - 55296) * 1024 + (d - 56320) + 65536)%N))
                   (encodeURIComponent rest')
            else None
        | [] => None
        end
      else option_map (app (escape_code_point c)) (encodeURIComponent rest)
  end.

(** [s.includes(p)] *)
Fixpoint includes (p s : jsstring) : bool :=
  startsWith p s ||
  match s with
  | [] => false
  | _ :: rest => includes p rest
  end.

(** ** The markup engine (CarouselSlide, [renderFormattedText]) *)

Module Markup.

Definition LF : code_unit := 10%N.

(** [text.split('\n')]: the pieces between the line feeds; the result is
    never empty, so it is built as a first line and the lines after it. *)
Fixpoint split_newline_ne (text : jsstring) : jsstring * list jsstring :=
  match text with
  | [] => ([], [])
  | c :: rest =>
      let (l, ls) := split_newline_ne rest in
      if (c =? LF)%N then ([], l :: ls) else (c :: l, ls)
  end.

Definition split_newline (text : jsstring) : list jsstring :=
  let (l, ls) := split_newline_ne text in l :: ls.

(** The characters that [.] of a regular expression (without the [s] flag)
    does not match: LF, CR, U+2028 and U+2029. *)
Definition is_line_terminator (c : code_unit) : bool :=
  ((c =? 10) || (c =? 13) || (c =? 8232) || (c =? 8233))%N.

Definition b_open : jsstring := lit "<b>".
Definition b_close : jsstring := lit "</b>".
Definition mark_open : jsstring := lit "<mark>".
Definition mark_close : jsstring := lit "</mark>".

(** [.*?close] tried at the start of [s]: the lazy star first tries the
    closing tag, and only when that fails consumes one more character that
    is not a line terminator.  The result is the number of code units
    matched. *)
Fixpoint lazy_until (close s : jsstring) : option nat :=
  if startsWith close s then Some (length close)
  else match s with
       | [] => None
       | c :: rest =>
           if is_line_terminator c then None
           else option_map S (lazy_until close rest)
       end.

(** [open.*?close] tried at the start of [s]. *)
Definition span_at (open close s : jsstring) : option nat :=
  if startsWith open s
  then option_map (Nat.add (length open)) (lazy_until close (skipn (length open) s))
  else None.

(** The pattern [(<b>.*?<\/b>|<mark>.*?<\/mark>)] tried at the start of [s]:
    the alternatives in order; the result is the length of the match, which
    is also the length of capture group 1. *)
Definition tag_at (s : jsstring) : option nat :=
  match span_at b_open b_close s with
  | Some n => Some n
  | None => span_at mark_open mark_close s
  end.

(** Adds a character in front of the first piece. *)
Definition cons_head (c : code_unit) (parts : list jsstring) : list jsstring :=
  match parts with
  | [] => [[c]]
  | p :: ps => (c :: p) :: ps
  end.

(** [line.split(/(<b>.*?<\/b>|<mark>.*?<\/mark>)/g)]: the pattern is tried
    at each position from the left; at the first position where it matches,
    the text before it is one piece, the match (capture group 1) is the
    next, and the scan goes on after the match; the text left at the end is
    the last piece.  The pattern matches no empty string, so the pieces
    alternate: text, match, text, ..., text. *)
Equations? split_tags (s : jsstring) : list jsstring by wf (length s) lt :=
  split_tags [] := [[]];
  split_tags (c :: rest) with inspect (tag_at (c :: rest)) => {
    | exist _ (Some n) _ :=
        [] :: firstn n (c :: rest) :: split_tags (skipn n (c :: rest));
    | exist _ None _ := cons_head c (split_tags rest) }.
Proof.
  destruct n as [|n]; [exfalso | simpl; rewrite length_skipn; lia].
  revert e. unfold tag_at, span_at.
  repeat match goal with
         | |- context [if ?b then _ else _] => destruct b
         | |- context [option_map _ ?o] => destruct o; simpl
         end; discriminate.
Qed.

(** A [FormattedSegment]: the element a piece is rendered as.  [<strong>]
    is [Bold], the styled [<span>] is [Highlight], the bare [<span>] is
    [PlainText]; the field is the element's text. *)
Inductive FormattedSegment : Type :=
| PlainText (text : jsstring)
| Bold (text : jsstring)
| Highlight (text : jsstring).

(** The callback of the inner [map]. *)
Definition render_part (part : jsstring) : FormattedSegment :=
  if startsWith b_open part && endsWith b_close part then Bold (slice 3 4 part)
  else if startsWith mark_open part && endsWith mark_close part
       then Highlight (slice 6 7 part)
       else PlainText part.

Definition render_line (line : jsstring) : list FormattedSegment :=
  map render_part (split_tags line).

(** The [React.Fragment] of one line: its segments, and whether a [<br />]
    follows them. *)
Record Fragment : Type := mkFragment {
  segments : list FormattedSegment;
  br : bool
}.

(** [renderFormattedText]; [None] is the [null] returned for a falsy
    text, which for a string is the empty string. *)
Definition renderFormattedText (text : jsstring) : option (list Fragment) :=
  match text with
  | [] => None
  | _ :: _ =>
      let arr := split_newline text in
      Some (mapi (fun i line => mkFragment (render_line line) (i <? length arr - 1)) arr)
  end.

(** The lines of segments React shows for an output; [null] shows nothing. *)
Definition lines_of (out : option (list Fragment)) : list (list FormattedSegment) :=
  match out with
  | None => []
  | Some frags => map segments frags
  end.

End Markup.

(** ** The publishing workflow (services/meta.ts) *)

Module Meta.

Definition API_VERSION : jsstring := lit "v19.0".
Definition MOCK_USER_ID : jsstring := lit "123456789".

(** [InstagramUser] of types.ts. *)
Record InstagramUser : Type := mkUser {
  user_id : jsstring;
  user_name : jsstring;
  username : jsstring;
  profile_picture_url : option jsstring;
  accessToken : jsstring
}.

(** A rendered slide; the workflow reads only its size. *)
Record Blob : Type := mkBlob { blob_bytes : list N }.

Definition blob_size (b : Blob) : nat := length (blob_bytes b).

(** The body of a Graph API answer, as far as the code reads it: the
    [error] payload when there is one, and the [id]. *)
Record ErrorPayload : Type := mkError { error_message : jsstring }.

Record GraphData : Type := mkData {
  data_error : option ErrorPayload;
  data_id : jsstring
}.

(** What [await fetch(url, ...)] followed by [await res.json()] gives:
    a body, or a rejection (no connection, a body that is not JSON). *)
Inductive FetchResult : Type :=
| NetworkFailure (reason : jsstring)
| Json (data : GraphData).

(** The values the workflow throws. *)
Inductive Exn : Type :=
| Error (message : jsstring)
| TypeError (message : jsstring)
| URIError.

(** *** Traces

    Everything a run does to the outside is recorded in order.  [Called]
    and [Returned] mark the entry into one of the four service functions,
    with its actual arguments, and its normal return; they are what the
    sequencing properties count. *)

Inductive Call : Type :=
| UploadImageToPublicServer (blob : Blob)
| CreateItemContainer (userId imageUrl token caption : jsstring) (isCarouselItem : bool)
| CreateCarouselContainer (userId : jsstring) (childrenIds : list jsstring)
    (token caption : jsstring)
| PublishMedia (userId creationId token : jsstring).

Inductive Value : Type :=
| VString (s : jsstring)
| VNumber (n : nat)
| VData (d : GraphData)
| VExn (e : Exn).

Inductive Event : Type :=
| Called (c : Call)
| Returned (v : Value)
| Progress (status : jsstring)
| ConsoleLog (args : list Value)
| ConsoleError (args : list Value)
| Timeout (ms : nat)
| DateNow (text : jsstring)
| MathRandom (text : jsstring)
| Fetch (url : jsstring) (result : FetchResult).

Definition Trace := list Event.

(** The outside world: the clock, the random generator and the network,
    each answering from the history of the run so far.  The clock and the
    generator give the text their number has inside a template literal. *)
Record Env : Type := mkEnv {
  date_now : Trace -> string;
  math_random : Trace -> string;
  http_post : Trace -> jsstring -> FetchResult
}.

(** *** Asynchronous computations

    An [async] function runs from a trace and ends fulfilled or rejected,
    with the trace extended.  Nothing runs concurrently: every promise is
    awaited where it is created. *)

Inductive Outcome (A : Type) : Type :=
| Fulfilled (a : A)
| Rejected (e : Exn).
Arguments Fulfilled {A} a.
Arguments Rejected {A} e.

Definition Async (A : Type) : Type := Trace -> Outcome A * Trace.

Definition ret {A : Type} (a : A) : Async A := fun tr => (Fulfilled a, tr).

Definition throw {A : Type} (e : Exn) : Async A := fun tr => (Rejected e, tr).

Definition bind {A B : Type} (m : Async A) (k : A -> Async B) : Async B :=
  fun tr =>
    match m tr with
    | (Fulfilled a, tr') => k a tr'
    | (Rejected e, tr') => (Rejected e, tr')
    end.

Definition try_catch {A : Type} (body : Async A) (handler : Exn -> Async A) : Async A :=
  fun tr =>
    match body tr with
    | (Fulfilled a, tr') => (Fulfilled a, tr')
    | (Rejected e, tr') => handler e tr'
    end.

Declare Scope async_scope.
Delimit Scope async_scope with async.
Bind Scope async_scope with Async.
Notation "x <- m ;; k" := (bind m (fun x => k))
  (at level 61, m at next level, right associativity) : async_scope.
Notation "m ;; k" := (bind m (fun _ => k))
  (at level 61, right associativity) : async_scope.
Local Open Scope async_scope.

Definition emit (e : Event) : Async unit := fun tr => (Fulfilled tt, tr ++ [e]).

Section Workflow.

Variable env : Env.

(** [await new Promise(r => setTimeout(r, ms))] *)
Definition setTimeout (ms : nat) : Async unit := emit (Timeout ms).

Definition consoleLog (args : list Value) : Async unit := emit (ConsoleLog args).

Definition consoleError (args : list Value) : Async unit := emit (ConsoleError args).

Definition dateNow : Async jsstring :=
  fun tr => let t := lit (date_now env tr) in (Fulfilled t, tr ++ [DateNow t]).

Definition mathRandom : Async jsstring :=
  fun tr => let t := lit (math_random env tr) in (Fulfilled t, tr ++ [MathRandom t]).

(** [const res = await fetch(url, { method: 'POST' }); const data = await res.json();] *)
Definition fetchJson (url : jsstring) : Async GraphData :=
  fun tr =>
    let r := http_post env tr url in
    match r with
    | NetworkFailure reason => (Rejected (TypeError reason), tr ++ [Fetch url r])
    | Json data => (Fulfilled data, tr ++ [Fetch url r])
    end.

Definition encodeURIComponent' (s : jsstring) : Async jsstring :=
  match encodeURIComponent s with
  | Some r => ret r
  | None => throw URIError
  end.

(** Entry and normal return of a service function. *)
Definition traced {A : Type} (c : Call) (show : A -> Value) (body : Async A) : Async A :=
  emit (Called c) ;;
  a <- body ;;
  emit (Returned (show a)) ;;
  ret a.

(** [if (onProgress) onProgress(status)]; the optional callback is the
    caller's status setter, which returns normally. *)
Definition notify (onProgress : bool) (status : jsstring) : Async unit :=
  if onProgress then emit (Progress status) else ret tt.

Definition uploadImageToPublicServer (blob : Blob) : Async jsstring :=
  traced (UploadImageToPublicServer blob) VString
    (consoleLog [VString (lit "Uploading blob to server..."); VNumber (blob_size blob)] ;;
     setTimeout 1500 ;;
     r <- mathRandom ;;
     ret (lit "https://images.unsplash.com/photo-1611162617474-5b21e879e113?w=1080&q=80&random=" ++ r)).

Definition createItemContainer (userId imageUrl token caption : jsstring)
    (isCarouselItem : bool) : Async GraphData :=
  traced (CreateItemContainer userId imageUrl token caption isCarouselItem) VData
    (image <- encodeURIComponent' imageUrl ;;
     let url := lit "https://graph.facebook.com/" ++ API_VERSION ++ lit "/" ++ userId
                ++ lit "/media?image_url=" ++ image ++ lit "&access_token=" ++ token in
     url <- (if isCarouselItem then ret (url ++ lit "&is_carousel_item=true")
             else (c <- encodeURIComponent' caption ;; ret (url ++ lit "&caption=" ++ c))) ;;
     if jseqb userId MOCK_USER_ID then
       consoleLog [VString (lit "[Mock] Creating Item Container (CarouselItem: "
                            ++ lit (if isCarouselItem then "true" else "false") ++ lit ")")] ;;
       setTimeout 500 ;;
       now <- dateNow ;;
       r <- mathRandom ;;
       ret (mkData None (lit "item_container_" ++ now ++ lit "_" ++ r))
     else
       data <- fetchJson url ;;
       match data_error data with
       | Some err => throw (Error (error_message err))
       | None => ret data
       end).

Definition createCarouselContainer (userId : jsstring) (childrenIds : list jsstring)
    (token caption : jsstring) : Async GraphData :=
  traced (CreateCarouselContainer userId childrenIds token caption) VData
    (c <- encodeURIComponent' caption ;;
     let url := lit "https://graph.facebook.com/" ++ API_VERSION ++ lit "/" ++ userId
                ++ lit "/media?media_type=CAROUSEL&children=" ++ join (lit ",") childrenIds
                ++ lit "&caption=" ++ c ++ lit "&access_token=" ++ token in
     if jseqb userId MOCK_USER_ID then
       consoleLog [VString (lit "[Mock] Creating Carousel Container with children: "
                            ++ decimal (length childrenIds))] ;;
       setTimeout 800 ;;
       now <- dateNow ;;
       ret (mkData None (lit "carousel_container_" ++ now))
     else
       data <- fetchJson url ;;
       match data_error data with
       | Some err => throw (Error (error_message err))
       | None => ret data
       end).

Definition publishMedia (userId creationId token : jsstring) : Async GraphData :=
  traced (PublishMedia userId creationId token) VData
    (let url := lit "https://graph.facebook.com/" ++ API_VERSION ++ lit "/" ++ userId
                ++ lit "/media_publish?creation_id=" ++ creationId
                ++ lit "&access_token=" ++ token in
     if jseqb userId MOCK_USER_ID then
       consoleLog [VString (lit "[Mock] Publishing Media ID: " ++ creationId)] ;;
       setTimeout 1200 ;;
       now <- dateNow ;;
       ret (mkData None (lit "published_media_" ++ now))
     else
       data <- fetchJson url ;;
       match data_error data with
       | Some err => throw (Error (error_message err))
       | None => ret data
       end).

(** Step 1, the loop over [slideBlobs]: [i] is the index of the first
    blob of [blobs] and [total] is [slideBlobs.length]. *)
Fixpoint upload_loop (onProgress : bool) (total i : nat) (blobs : list Blob)
    (imageUrls : list jsstring) : Async (list jsstring) :=
  match blobs with
  | [] => ret imageUrls
  | blob :: rest =>
      notify onProgress (lit "Uploading slide " ++ decimal (i + 1) ++ lit " of "
                         ++ decimal total ++ lit "...") ;;
      url <- uploadImageToPublicServer blob ;;
      upload_loop onProgress total (S i) rest (imageUrls ++ [url])
  end.

(** Step 2, the loop over [imageUrls] of the carousel branch. *)
Fixpoint item_loop (onProgress : bool) (user : InstagramUser) (i : nat)
    (urls : list jsstring) (itemContainers : list jsstring) : Async (list jsstring) :=
  match urls with
  | [] => ret itemContainers
  | url :: rest =>
      notify onProgress (lit "Preparing slide " ++ decimal (i + 1) ++ lit " for Instagram...") ;;
      container <- createItemContainer (user_id user) url (accessToken user) [] true ;;
      item_loop onProgress user (S i) rest (itemContainers ++ [data_id container])
  end.

Definition publishCarouselToInstagram (user : InstagramUser) (slideBlobs : list Blob)
    (caption : jsstring) (onProgress : bool) : Async GraphData :=
  try_catch
    (imageUrls <- upload_loop onProgress (length slideBlobs) 0 slideBlobs [] ;;
     creationId <-
       (if length imageUrls =? 1 then
          notify onProgress (lit "Creating media container...") ;;
          container <- createItemContainer (user_id user) (nth 0 imageUrls [])
                         (accessToken user) caption false ;;
          ret (data_id container)
        else
          itemContainers <- item_loop onProgress user 0 imageUrls [] ;;
          notify onProgress (lit "Creating carousel object...") ;;
          carouselContainer <- createCarouselContainer (user_id user) itemContainers
                                 (accessToken user) caption ;;
          ret (data_id carouselContainer)) ;;
     notify onProgress (lit "Finalizing publication...") ;;
     result <- publishMedia (user_id user) creationId (accessToken user) ;;
     ret result)
    (fun error =>
       consoleError [VString (lit "Publishing failed:"); VExn error] ;;
       throw error).

End Workflow.

End Meta.

(** ** The editor state (App.tsx) and the slide texts (CarouselSlide) *)

Module Editor.

Import Markup Meta.

(** [SlideType] of types.ts. *)
Inductive SlideType : Type := COVER | CONTENT | QUOTE | END.

(** [Slide] of types.ts; the two optional fields may be absent. *)
Record Slide : Type := mkSlide {
  slide_id : jsstring;
  slide_type : SlideType;
  title : jsstring;
  body : jsstring;
  backgroundImage : option jsstring;
  backgroundColor : option jsstring
}.

(** [Partial<Slide>]: each key is absent or carries a value, which for an
    optional field may be [undefined]. *)
Record SlideUpdates : Type := mkUpdates {
  set_id : option jsstring;
  set_type : option SlideType;
  set_title : option jsstring;
  set_body : option jsstring;
  set_backgroundImage : option (option jsstring);
  set_backgroundColor : option (option jsstring)
}.

Definition no_updates : SlideUpdates := mkUpdates None None None None None None.

(** [{ ...s, ...updates }] *)
Definition spread (s : Slide) (updates : SlideUpdates) : Slide :=
  let pick {A : Type} (new : option A) (old : A) : A :=
    match new with Some v => v | None => old end in
  mkSlide (pick (set_id updates) (slide_id s))
          (pick (set_type updates) (slide_type s))
          (pick (set_title updates) (title s))
          (pick (set_body updates) (body s))
          (pick (set_backgroundImage updates) (backgroundImage s))
          (pick (set_backgroundColor updates) (backgroundColor s)).

(** The part of the component state the slide handlers read and write.  A
    handler runs on the state of the render it was created in and its
    updates are applied before the next one runs. *)
Record AppState : Type := mkApp {
  slides : list Slide;
  selectedSlideId : jsstring
}.

(** [INITIAL_SLIDES] and the state the component starts in. *)
Definition INITIAL_SLIDES : list Slide :=
  [ mkSlide (lit "1") COVER (lit "Stop <b>Guessing</b>")
      (lit "The secret to viral content is not luck, it's <mark>psychology</mark>.")
      None None;
    mkSlide (lit "2") CONTENT (lit "The Problem")
      (lit "Most creators focus on visuals but ignore the <b>narrative arc</b>."
       ++ [LF; LF] ++ lit "This leads to high impressions but low conversion.")
      None None;
    mkSlide (lit "3") CONTENT (lit "The Solution")
      (lit "Use the <b>H.I.T. Framework</b>:" ++ [LF; LF] ++ lit "1. Hook" ++ [LF]
       ++ lit "2. Insight" ++ [LF] ++ lit "3. Takeaway" ++ [LF; LF]
       ++ lit "Structure creates <mark>retention</mark>.")
      None None;
    mkSlide (lit "4") END (lit "Try it out!") (lit "Save this template and start creating.")
      None None ].

Definition initial_state : AppState := mkApp INITIAL_SLIDES (lit "1").

(** [prev.map(s => s.id === id ? { ...s, ...updates } : s)] *)
Definition updateSlide (id : jsstring) (updates : SlideUpdates) (st : AppState) : AppState :=
  mkApp (map (fun s => if jseqb (slide_id s) id then spread s updates else s) (slides st))
        (selectedSlideId st).

(** [addSlide]; [now] is the text of [Date.now().toString()]. *)
Definition addSlide (now : jsstring) (st : AppState) : AppState :=
  let newSlide := mkSlide now CONTENT (lit "New Slide") (lit "Add your content here.")
                    None None in
  mkApp (slides st ++ [newSlide]) (slide_id newSlide).

(** [removeSlide]: the id it selects afterwards is read from the list as
    it was before the removal. *)
Definition removeSlide (id : jsstring) (st : AppState) : AppState :=
  if 1 <? length (slides st) then
    mkApp (filter (fun s => negb (jseqb (slide_id s) id)) (slides st))
          (if jseqb (selectedSlideId st) id
           then match slides st with
                | first :: _ => slide_id first
                | [] => selectedSlideId st
                end
           else selectedSlideId st)
  else st.

(** [slides.find(s => s.id === selectedSlideId) || slides[0]]; [None] is
    [undefined]. *)
Definition selectedSlide (st : AppState) : option Slide :=
  match find (fun s => jseqb (slide_id s) (selectedSlideId st)) (slides st) with
  | Some s => Some s
  | None => hd_error (slides st)
  end.

(** [s.substring(a, b)]: both indices are clamped to the string and
    swapped when the first is the larger. *)
Definition substring (a b : nat) (s : jsstring) : jsstring :=
  let a' := Nat.min a (length s) in
  let b' := Nat.min b (length s) in
  firstn (Nat.max a' b' - Nat.min a' b') (skipn (Nat.min a' b') s).

(** [s.substring(a)] *)
Definition substring_from (a : nat) (s : jsstring) : jsstring := skipn a s.

(** The argument of [handleFormatText]. *)
Inductive Tag : Type := TagB | TagMark.

Definition tag_name (tag : Tag) : jsstring :=
  match tag with
  | TagB => lit "b"
  | TagMark => lit "mark"
  end.

Definition openTag (tag : Tag) : jsstring := lit "<" ++ tag_name tag ++ lit ">".

Definition closeTag (tag : Tag) : jsstring := lit "</" ++ tag_name tag ++ lit ">".

(** The selection of the body text area. *)
Record Selection : Type := mkSelection {
  selectionStart : nat;
  selectionEnd : nat
}.

(** [handleFormatText]: [textarea] is [textAreaRef.current] with its
    selection, [None] when the ref is empty.  The result is the state and
    the selection once the timer that restores the focus has run.  Reading
    the body of a slide that does not exist throws. *)
Definition handleFormatText (tag : Tag) (textarea : option Selection) (st : AppState)
    : Outcome (AppState * option Selection) :=
  match textarea with
  | None => Fulfilled (st, None)
  | Some sel =>
      let start := selectionStart sel in
      let end_ := selectionEnd sel in
      match selectedSlide st with
      | None => Rejected (TypeError (lit "Cannot read properties of undefined (reading 'body')"))
      | Some slide =>
          let text := body slide in
          if start =? end_ then Fulfilled (st, Some sel)
          else
            let before := substring 0 start text in
            let selection := substring start end_ text in
            let after := substring_from end_ text in
            let newText := before ++ openTag tag ++ selection ++ closeTag tag ++ after in
            Fulfilled
              (updateSlide (selectedSlideId st)
                 (mkUpdates None None None (Some newText) None None) st,
               Some (mkSelection (start + length (openTag tag))
                                 (end_ + length (openTag tag))))
      end
  end.

(** [handleInsertEmoji], in the same terms. *)
Definition handleInsertEmoji (emoji : jsstring) (textarea : option Selection) (st : AppState)
    : Outcome (AppState * option Selection) :=
  match textarea with
  | None => Fulfilled (st, None)
  | Some sel =>
      let start := selectionStart sel in
      let end_ := selectionEnd sel in
      match selectedSlide st with
      | None => Rejected (TypeError (lit "Cannot read properties of undefined (reading 'body')"))
      | Some slide =>
          let text := body slide in
          let newText := substring 0 start text ++ emoji ++ substring_from end_ text in
          let newCursor := start + length emoji in
          Fulfilled
            (updateSlide (selectedSlideId st)
               (mkUpdates None None None (Some newText) None None) st,
             Some (mkSelection newCursor newCursor))
      end
  end.

(** [a || b] on strings: the empty string is falsy. *)
Definition or_else (a b : jsstring) : jsstring :=
  match a with
  | [] => b
  | _ :: _ => a
  end.

(** What [CarouselSlide] passes through [renderFormattedText] for a slide:
    its title and its body; the closing slide has a text to fall back on
    for each. *)
Definition slide_texts (slide : Slide)
    : option (list Fragment) * option (list Fragment) :=
  match slide_type slide with
  | END =>
      (renderFormattedText (or_else (title slide) (lit "Thanks for reading!")),
       renderFormattedText (or_else (body slide) (lit "Save this post for later")))
  | _ =>
      (renderFormattedText (title slide), renderFormattedText (body slide))
  end.

End Editor.

(** ** Connecting an account (services/meta.ts) *)

Module Login.

Import Meta.

(** A Facebook Page of the list [pagesData.data], as far as the code reads
    it. *)
Record Page : Type := mkPage { page_id : jsstring; page_name : jsstring }.

(** The answer to the request for the details of the Instagram account;
    [name] and [profile_picture_url] may be absent. *)
Record IgUser : Type := mkIgUser {
  ig_id : jsstring;
  ig_name : option jsstring;
  ig_username : jsstring;
  ig_profile_picture_url : option jsstring
}.

(** What [await fetch(url)] followed by [await res.json()] gives: a
    rejection, or a body. *)
Inductive Answer (A : Type) : Type :=
| Unreachable (reason : jsstring)
| Body (a : A).
Arguments Unreachable {A} reason.
Arguments Body {A} a.

(** The Graph API as the three requests read it, each answering from the
    addresses requested so far: the [data] of the page list when the
    answer has one; the [id] of [instagram_business_account] when the page
    has one; the account. *)
Record Graph : Type := mkGraph {
  me_accounts : list jsstring -> jsstring -> Answer (option (list Page));
  page_details : list jsstring -> jsstring -> Answer (option jsstring);
  user_details : list jsstring -> jsstring -> Answer IgUser
}.

(** [a || b] where [a] may be absent: absent and empty are falsy. *)
Definition or_default (a : option jsstring) (b : jsstring) : jsstring :=
  match a with
  | Some (c :: r) => c :: r
  | _ => b
  end.

(** The loop over [pagesData.data]; it ends with [igUserId] and
    [pageName], which start as [null] and the empty string. *)
Fixpoint page_loop (g : Graph) (accessToken : jsstring) (pages : list Page)
    (log : list jsstring) : Outcome (option jsstring * jsstring) * list jsstring :=
  match pages with
  | [] => (Fulfilled (None, []), log)
  | page :: rest =>
      let url := lit "https://graph.facebook.com/" ++ API_VERSION ++ lit "/" ++ page_id page
                 ++ lit "?fields=instagram_business_account&access_token=" ++ accessToken in
      match page_details g log url with
      | Unreachable reason => (Rejected (TypeError reason), log ++ [url])
      | Body None => page_loop g accessToken rest (log ++ [url])
      | Body (Some id) => (Fulfilled (Some id, page_name page), log ++ [url])
      end
  end.

(** [fetchInstagramAccount]: the outcome and the addresses requested, in
    order, after those of [log]. *)
Definition fetchInstagramAccount (g : Graph) (accessToken : jsstring) (log : list jsstring)
    : Outcome InstagramUser * list jsstring :=
  let url := lit "https://graph.facebook.com/" ++ API_VERSION
             ++ lit "/me/accounts?access_token=" ++ accessToken in
  match me_accounts g log url with
  | Unreachable reason => (Rejected (TypeError reason), log ++ [url])
  | Body data =>
      let log := log ++ [url] in
      match data with
      | None | Some [] =>
          (Rejected (Error (lit "No Facebook Pages found. Please create a Page to connect Instagram.")),
           log)
      | Some pages =>
          match page_loop g accessToken pages log with
          | (Rejected e, log) => (Rejected e, log)
          | (Fulfilled (None, _), log) | (Fulfilled (Some [], _), log) =>
              (Rejected (Error (lit "No Instagram Business Account connected to your Facebook Pages.")),
               log)
          | (Fulfilled (Some igUserId, pageName), log) =>
              let url := lit "https://graph.facebook.com/" ++ API_VERSION ++ lit "/" ++ igUserId
                         ++ lit "?fields=id,username,name,profile_picture_url&access_token="
                         ++ accessToken in
              match user_details g log url with
              | Unreachable reason => (Rejected (TypeError reason), log ++ [url])
              | Body igUser =>
                  (Fulfilled (mkUser (ig_id igUser) (or_default (ig_name igUser) pageName)
                                (ig_username igUser) (ig_profile_picture_url igUser)
                                accessToken),
                   log ++ [url])
              end
          end
      end
  end.

(** The page the application runs in: whether there is a [window] at all;
    [process.env.REACT_APP_FB_APP_ID]; the location; whether [window.FB] is
    there already and, if not, whether the SDK script ever calls
    [fbAsyncInit]; and what [FB.login] calls back with, if it ever does:
    the access token of [authResponse], or no [authResponse]. *)
Record Browser : Type := mkBrowser {
  has_window : bool;
  env_app_id : option jsstring;
  protocol : jsstring;
  hostname : jsstring;
  has_FB : bool;
  sdk_loads : bool;
  login_response : option (option jsstring)
}.

(** What a login does to the outside. *)
Inductive LoginEvent : Type :=
| SdkInit (appId : jsstring)
| SdkLogin (scope : jsstring)
| Get (url : jsstring)
| ConsoleWarn (message : jsstring) (error : option Exn)
| Wait (ms : nat).

(** [initFacebookSdk]: what it does before its promise resolves; [None]
    when the promise never resolves. *)
Definition initFacebookSdk (b : Browser) (appId : jsstring) : option (list LoginEvent) :=
  if negb (has_window b) then Some []
  else if has_FB b then Some []
  else if sdk_loads b then Some [SdkInit appId]
  else None.

(** [loginToInstagram]: how its promise settles, [None] when it never
    does, and what it did. *)
Definition loginToInstagram (b : Browser) (g : Graph) (appId : option jsstring)
    : option (Outcome InstagramUser) * list LoginEvent :=
  if negb (has_window b) then
    (Some (Fulfilled (mkUser MOCK_USER_ID (lit "SSR User") (lit "ssr_user") None
                        (lit "mock_token"))),
     [])
  else
    let finalAppId := match appId with
                      | Some (c :: r) => Some (c :: r)
                      | _ => env_app_id b
                      end in
    let isSecure := jseqb (protocol b) (lit "https:") in
    let isLocal := jseqb (hostname b) (lit "localhost")
                   || jseqb (hostname b) (lit "127.0.0.1") in
    let mock (evs : list LoginEvent) :=
      (Some (Fulfilled (mkUser MOCK_USER_ID (lit "Demo User") (lit "demo_creator") None
                          (lit "mock_token_123"))),
       evs ++ [Wait 800]) in
    match finalAppId with
    | Some (c :: r) =>
        if isSecure || isLocal then
          match initFacebookSdk b (c :: r) with
          | None => (None, [])
          | Some evs0 =>
              let evs0 :=
                evs0 ++ [SdkLogin (lit "instagram_basic,instagram_content_publish,pages_show_list,pages_read_engagement")] in
              match login_response b with
              | None => (None, evs0)
              | Some response =>
                  let attempt :=
                    match response with
                    | Some accessToken =>
                        let (out, urls) := fetchInstagramAccount g accessToken [] in
                        (out, map Get urls)
                    | None =>
                        (Rejected (Error (lit "User cancelled login or did not fully authorize.")),
                         [])
                    end in
                  match attempt with
                  | (Fulfilled user, evs1) => (Some (Fulfilled user), evs0 ++ evs1)
                  | (Rejected error, evs1) =>
                      mock (evs0 ++ evs1
                            ++ [ConsoleWarn (lit "Real Authentication failed or was cancelled. Falling back to simulation.")
                                  (Some error)])
                  end
              end
          end
        else
          mock [ConsoleWarn (lit "Meta API: HTTPS required for Facebook Login. Switching to Simulation Mode.")
                  None]
    | _ => mock []
    end.

End Login.

(** ** Publishing from the editor (App.tsx) *)

Module Publisher.

Import Meta Editor.

(** [PublishStatus] of types.ts. *)
Inductive PublishStatus : Type :=
| StatusIdle
| StatusRendering
| StatusUploading
| StatusPublishing
| StatusSuccess
| StatusError.

(** What the rendering of a slide gives: no element under the id of the
    slide in [exportRefs]; the value [toBlob] resolves to, a blob or
    [null]; or the rejection of [toBlob]. *)
Inductive Rendering : Type :=
| NoElement
| Rendered (blob : option Blob)
| RenderFails (e : Exn).

(** What [handlePublish] does to the state of the component and to the
    console; [Later ms s m] is the timer that sets the status [s] and the
    message [m] after [ms] milliseconds. *)
Inductive UiEffect : Type :=
| SetPublishStatus (s : PublishStatus)
| SetStatusMessage (m : jsstring)
| LogError (e : Exn)
| Later (ms : nat) (s : PublishStatus) (m : jsstring).

(** The loop over [slides]; [toBlob i id] is the rendering in the
    iteration [i], of the slide with the id [id]. *)
Fixpoint render_loop (toBlob : nat -> jsstring -> Rendering) (total i : nat)
    (slides : list Slide) (blobs : list Blob) : Outcome (list Blob) * list UiEffect :=
  match slides with
  | [] => (Fulfilled blobs, [])
  | slide :: rest =>
      let message :=
        SetStatusMessage (lit "Rendering slide " ++ decimal (i + 1) ++ lit " of "
                          ++ decimal total ++ lit "...") in
      match toBlob i (slide_id slide) with
      | RenderFails e => (Rejected e, [message])
      | Rendered (Some blob) =>
          let (out, effects) := render_loop toBlob total (S i) rest (blobs ++ [blob]) in
          (out, message :: effects)
      | Rendered None | NoElement =>
          let (out, effects) := render_loop toBlob total (S i) rest blobs in
          (out, message :: effects)
      end
  end.

(** The callback given to the service: [(msg) => { setStatusMessage(msg) }],
    once per status message of the run. *)
Definition status_updates (tr : Trace) : list UiEffect :=
  flat_map (fun e => match e with Progress msg => [SetStatusMessage msg] | _ => [] end) tr.

(** [handlePublish]: what it does to the component, and the trace of the
    publish run it starts, if it starts one. *)
Definition handlePublish (env : Env) (toBlob : nat -> jsstring -> Rendering)
    (instagramUser : option InstagramUser) (slides : list Slide) (caption : jsstring)
    : list UiEffect * Trace :=
  match instagramUser with
  | None => ([], [])
  | Some user =>
      let start := [SetPublishStatus StatusRendering;
                    SetStatusMessage (lit "Rendering high-quality slides...")] in
      let failed (e : Exn) :=
        [LogError e;
         SetPublishStatus StatusError;
         SetStatusMessage (lit "An error occurred during publication.");
         Later 4000 StatusIdle []] in
      match render_loop toBlob (length slides) 0 slides [] with
      | (Rejected e, effects) => (start ++ effects ++ failed e, [])
      | (Fulfilled blobs, effects) =>
          let effects := start ++ effects ++ [SetPublishStatus StatusUploading] in
          match publishCarouselToInstagram env user blobs caption true [] with
          | (Rejected e, tr) => (effects ++ status_updates tr ++ failed e, tr)
          | (Fulfilled _, tr) =>
              (effects ++ status_updates tr
               ++ [SetPublishStatus StatusSuccess;
                   SetStatusMessage (lit "Your carousel is now live!");
                   Later 4000 StatusIdle []],
               tr)
          end
      end
  end.

End Publisher.

(** * Specification vocabulary *)

Import Markup Meta.
Local Open Scope async_scope.

(** ** Markup *)

(** An opening tag followed, anywhere later in the text, by the closing tag
    of its kind. *)
Fixpoint has_pair (open close s : jsstring) : bool :=
  startsWith open s && includes close (skipn (length open) s) ||
  match s with
  | [] => false
  | _ :: rest => has_pair open close rest
  end.

(** No opening tag of the dialect has a closing tag after it. *)
Definition unmatched (s : jsstring) : bool :=
  negb (has_pair b_open b_close s) && negb (has_pair mark_open mark_close s).

(** None of the four tags of the dialect occurs. *)
Definition tag_free (s : jsstring) : bool :=
  negb (includes b_open s) && negb (includes b_close s)
  && negb (includes mark_open s) && negb (includes mark_close s).

(** What a segment stands for in the markup dialect. *)
Definition segment_source (seg : FormattedSegment) : jsstring :=
  match seg with
  | PlainText t => t
  | Bold t => b_open ++ t ++ b_close
  | Highlight t => mark_open ++ t ++ mark_close
  end.

(** The text inside a segment's element. *)
Definition segment_text (seg : FormattedSegment) : jsstring :=
  match seg with
  | PlainText t | Bold t | Highlight t => t
  end.

(** A bare [<span>] with no text in it. *)
Definition is_empty_plain (seg : FormattedSegment) : bool :=
  match seg with
  | PlainText [] => true
  | _ => false
  end.

(** ** Traces and runs *)

(** Entry into a service function, or its return. *)
Definition is_api (e : Event) : bool :=
  match e with
  | Called _ | Returned _ => true
  | _ => false
  end.

(** The service calls of a run and their returns, in order. *)
Definition api (tr : Trace) : Trace := filter is_api tr.

(** The service calls of a run, in order. *)
Definition calls (tr : Trace) : list Call :=
  flat_map (fun e => match e with Called c => [c] | _ => [] end) tr.

(** The status messages given to the progress callback, in order. *)
Definition progress (tr : Trace) : list jsstring :=
  flat_map (fun e => match e with Progress s => [s] | _ => [] end) tr.

(** A call of [fetch]. *)
Definition is_fetch (e : Event) : bool :=
  match e with
  | Fetch _ _ => true
  | _ => false
  end.

(** The network calls of a run, in order. *)
Definition fetches (tr : Trace) : Trace := filter is_fetch tr.

(** The message of the error payload a network call answered with. *)
Definition remote_error (e : Event) : option jsstring :=
  match e with
  | Fetch _ (Json d) => option_map error_message (data_error d)
  | _ => None
  end.

(** No network call of the trace was answered with an error payload. *)
Definition clean (tr : Trace) : Prop :=
  forall e, In e tr -> remote_error e = None.

(** [encodeURIComponent(s)] does not throw. *)
Definition encodable (s : jsstring) : bool :=
  match encodeURIComponent s with
  | Some _ => true
  | None => false
  end.

(** What a service call leaves in the [api] trace after [Called]. *)
Definition returned (out : Outcome GraphData) : Trace :=
  match out with
  | Fulfilled d => [Returned (VData d)]
  | Rejected _ => []
  end.

(** How a computation may end with respect to remote errors: without any,
    or rejected with the message of the one it met last of all. *)
Definition error_discipline {A : Type} (out : Outcome A) (evs : Trace) : Prop :=
  match out with
  | Fulfilled _ => clean evs
  | Rejected e =>
      clean evs
      \/ exists low url d err,
           evs = low ++ [Fetch url (Json d)] /\ clean low
           /\ data_error d = Some err /\ e = Error (error_message err)
  end.

(** The events a computation adds to the trace satisfy [Q], whatever the
    history it starts from. *)
Definition emits {A : Type} (m : Async A) (Q : Outcome A -> Trace -> Prop) : Prop :=
  forall tr, exists out evs, m tr = (out, tr ++ evs) /\ Q out evs.

(** The test [userId === MOCK_USER_ID] of the three Graph API functions. *)
Definition simulated (userId : jsstring) : bool := jseqb userId MOCK_USER_ID.

(** What every service call adds to the trace: its entry and, when it
    returns, its result; no status message; at most one remote error, which
    it then throws; and no network call at all for the sentinel account. *)
Definition service_post (c : Call) (userId : jsstring)
    (out : Outcome GraphData) (evs : Trace) : Prop :=
  api evs = Called c :: returned out
  /\ progress evs = []
  /\ error_discipline out evs
  /\ (simulated userId = true -> fetches evs = []).

(** The address the upload step returns. *)
Definition upload_url (r : string) : jsstring :=
  lit "https://images.unsplash.com/photo-1611162617474-5b21e879e113?w=1080&q=80&random="
  ++ lit r.

(** The status message before the upload of the blob at index [i]. *)
Definition upload_status (total i : nat) : jsstring :=
  lit "Uploading slide " ++ decimal (i + 1) ++ lit " of " ++ decimal total ++ lit "...".

(** The status message before the item container of the address at
    index [i]. *)
Definition item_status (i : nat) : jsstring :=
  lit "Preparing slide " ++ decimal (i + 1) ++ lit " for Instagram...".

(** The messages a sink receives, none without a sink. *)
Definition told (onProgress : bool) (statuses : list jsstring) : list jsstring :=
  if onProgress then statuses else [].

(** The upload calls for the blobs, each returning its address. *)
Definition upload_calls (blobs : list Blob) (urls : list jsstring) : Trace :=
  flat_map (fun bu => [Called (UploadImageToPublicServer (fst bu));
                       Returned (VString (snd bu))])
    (combine blobs urls).

(** The item-container calls for the addresses, each returning its
    container. *)
Definition item_calls (user : InstagramUser) (urls : list jsstring)
    (items : list GraphData) : Trace :=
  flat_map (fun ud => [Called (CreateItemContainer (user_id user) (fst ud)
                                 (accessToken user) [] true);
                       Returned (VData (snd ud))])
    (combine urls items).

(** [a] is the beginning of [b]. *)
Definition prefix_of {A : Type} (a b : list A) : Prop := exists rest, b = a ++ rest.

(** A carousel-root call. *)
Definition is_carousel_call (c : Call) : bool :=
  match c with
  | CreateCarouselContainer _ _ _ _ => true
  | _ => false
  end.

(** The status messages of step 2 for [n] addresses when no call fails. *)
Definition container_statuses (n : nat) : list jsstring :=
  if n =? 1 then [lit "Creating media container..."]
  else map item_status (seq 0 n) ++ [lit "Creating carousel object..."].

(** The service calls of step 2 when it ends with the creation id [id]:
    for one address a single media container with the caption; otherwise
    one item container per address, in order, and then the carousel
    container over their ids, in the same order, with the caption. *)
Definition container_calls (user : InstagramUser) (caption : jsstring)
    (urls : list jsstring) (id : jsstring) (apiC : Trace) : Prop :=
  if length urls =? 1 then
    exists d, id = data_id d
      /\ apiC = [Called (CreateItemContainer (user_id user) (nth 0 urls [])
                           (accessToken user) caption false);
                 Returned (VData d)]
  else
    exists items root, length items = length urls /\ id = data_id root
      /\ apiC = item_calls user urls items
                ++ [Called (CreateCarouselContainer (user_id user) (map data_id items)
                              (accessToken user) caption);
                    Returned (VData root)].

(** What step 2 adds to the trace: the error discipline; no network call
    for the sentinel account, which gets its creation id whenever the
    addresses and the caption can be encoded; the calls and messages above
    when it ends with a creation id, which needs an encodable caption; no
    carousel-root call for a single address; and in any case a beginning
    of the messages above. *)
Definition container_post (user : InstagramUser) (caption : jsstring) (onProgress : bool)
    (urls : list jsstring) (out : Outcome jsstring) (evs : Trace) : Prop :=
  error_discipline out evs
  /\ (simulated (user_id user) = true -> fetches evs = [])
  /\ (simulated (user_id user) = true ->
      Forall (fun url => encodable url = true) urls -> encodable caption = true ->
      exists id, out = Fulfilled id)
  /\ (forall id, out = Fulfilled id ->
      encodable caption = true
      /\ progress evs = told onProgress (container_statuses (length urls))
      /\ container_calls user caption urls id (api evs))
  /\ (length urls = 1 -> forall c, In c (calls evs) -> is_carousel_call c = false)
  /\ prefix_of (progress evs) (told onProgress (container_statuses (length urls))).

(** The status messages of a run over [n] blobs in which no step fails. *)
Definition expected_progress (onProgress : bool) (n : nat) : list jsstring :=
  told onProgress
    (map (upload_status n) (seq 0 n) ++ container_statuses n
     ++ [lit "Finalizing publication..."]).

(** What the [catch] block writes before it throws the error again. *)
Definition failure_log (e : Exn) : Event :=
  ConsoleError [VString (lit "Publishing failed:"); VExn e].

(** What the [try] block of a run adds to the trace, in the same terms as
    for step 2; when the run is fulfilled its service calls are the
    uploads, the calls of step 2 and the finalize call on the creation
    id. *)
Definition run_post (user : InstagramUser) (blobs : list Blob) (caption : jsstring)
    (onProgress : bool) (out : Outcome GraphData) (evs : Trace) : Prop :=
  error_discipline out evs
  /\ (simulated (user_id user) = true -> fetches evs = [])
  /\ (simulated (user_id user) = true -> encodable caption = true ->
      exists now, out = Fulfilled (mkData None (lit "published_media_" ++ lit now)))
  /\ (forall result, out = Fulfilled result ->
      encodable caption = true
      /\ progress evs = expected_progress onProgress (length blobs)
      /\ exists rs id apiC,
           length rs = length blobs
           /\ container_calls user caption (map upload_url rs) id apiC
           /\ api evs = upload_calls blobs (map upload_url rs) ++ apiC
                        ++ [Called (PublishMedia (user_id user) id (accessToken user));
                            Returned (VData result)])
  /\ (length blobs = 1 -> forall c, In c (calls evs) -> is_carousel_call c = false)
  /\ prefix_of (progress evs) (expected_progress onProgress (length blobs)).

(** A run ends fulfilled, or rejected after the failure was logged. *)
Definition logged (out : Outcome GraphData) (evs : Trace) : Trace :=
  match out with
  | Fulfilled _ => evs
  | Rejected e => evs ++ [failure_log e]
  end.

(** The service calls of a run without assets: the carousel-root call on
    no children, and the finalize call if the former returned. *)
Definition empty_run_calls (user : InstagramUser) (caption : jsstring)
    (out : Outcome GraphData) (apiE : Trace) : Prop :=
  (exists e, out = Rejected e
     /\ apiE = [Called (CreateCarouselContainer (user_id user) [] (accessToken user) caption)])
  \/ (exists root e, out = Rejected e
       /\ apiE = [Called (CreateCarouselContainer (user_id user) [] (accessToken user) caption);
                  Returned (VData root);
                  Called (PublishMedia (user_id user) (data_id root) (accessToken user))])
  \/ (exists root result, out = Fulfilled result
       /\ apiE = [Called (CreateCarouselContainer (user_id user) [] (accessToken user) caption);
                  Returned (VData root);
                  Called (PublishMedia (user_id user) (data_id root) (accessToken user));
                  Returned (VData result)]).

(** A world for the examples: a fixed clock and random number, and a Graph
    API that accepts every call and answers with the id ["17841400"]. *)
Definition accepting_env : Env :=
  mkEnv (fun _ => "1700000000000"%string) (fun _ => "0.25"%string)
    (fun _ _ => Json (mkData None (lit "17841400"))).

(** The account of the simulated login, and a connected one. *)
Definition demo_user : InstagramUser :=
  mkUser MOCK_USER_ID (lit "Demo User") (lit "demo_creator") None (lit "mock_token_123").

Definition connected_user : InstagramUser :=
  mkUser (lit "17841405793187218") (lit "Ana") (lit "ana") None (lit "EAAB").

(** A one-byte blob standing for a rendered slide. *)
Definition slide (n : N) : Blob := mkBlob [n].

(** A Graph API that refuses every call. *)
Definition refusing_env : Env :=
  mkEnv (fun _ => "1700000000000"%string) (fun _ => "0.25"%string)
    (fun _ _ => Json (mkData (Some (mkError (lit "Invalid OAuth access token."))) [])).

(** ** The editor *)

(** The segment a well-formed span of the given tag is rendered as. *)
Definition tag_segment (tag : Editor.Tag) (text : jsstring) : FormattedSegment :=
  match tag with
  | Editor.TagB => Bold text
  | Editor.TagMark => Highlight text
  end.

(** No character of the text is one that [.] refuses. *)
Definition no_line_terminator (s : jsstring) : bool :=
  forallb (fun c => negb (is_line_terminator c)) s.

(** No opening tag of the dialect occurs. *)
Definition no_opening_tag (s : jsstring) : bool :=
  negb (includes b_open s) && negb (includes mark_open s).

(** The body [handleFormatText] writes for a selection of a text. *)
Definition wrap_selection (tag : Editor.Tag) (start end_ : nat) (text : jsstring) : jsstring :=
  Editor.substring 0 start text ++ Editor.openTag tag
  ++ Editor.substring start end_ text ++ Editor.closeTag tag
  ++ Editor.substring_from end_ text.

(** The text holds no [<]. *)
Definition no_angle (s : jsstring) : bool :=
  forallb (fun c => negb (c =? 60)%N) s.

(** A line shown as it is. *)
Definition plain_line (line : jsstring) : list FormattedSegment := [PlainText line].

(** The slide a state holds under its selected id. *)
Definition slide_of_selected_id (st : Editor.AppState) : option Editor.Slide :=
  find (fun s => jseqb (Editor.slide_id s) (Editor.selectedSlideId st)) (Editor.slides st).

(** The ids of the slides of a state, in order. *)
Definition slide_ids (st : Editor.AppState) : list jsstring :=
  map Editor.slide_id (Editor.slides st).

(** The test [s.id !== id] of [removeSlide]. *)
Definition other_id (id : jsstring) (s : Editor.Slide) : bool :=
  negb (jseqb (Editor.slide_id s) id).

(** A piece of well-formed markup: text, and a span of some tag behind
    it. *)
Record Span : Type := mkSpan {
  span_before : jsstring;
  span_tag : Editor.Tag;
  span_body : jsstring
}.

(** The text before a span holds no opening tag, and its body neither a
    line terminator nor its own closing tag. *)
Definition well_formed_span (sp : Span) : bool :=
  no_opening_tag (span_before sp)
  && no_line_terminator (span_body sp)
  && negb (includes (Editor.closeTag (span_tag sp)) (span_body sp)).

(** The line the spans and a closing text are written as. *)
Definition markup_of (spans : list Span) (tail : jsstring) : jsstring :=
  fold_right
    (fun sp rest =>
       span_before sp ++ Editor.openTag (span_tag sp) ++ span_body sp
       ++ Editor.closeTag (span_tag sp) ++ rest)
    tail spans.

(** The segments they stand for. *)
Definition segments_of (spans : list Span) (tail : jsstring) : list FormattedSegment :=
  flat_map (fun sp => [PlainText (span_before sp); tag_segment (span_tag sp) (span_body sp)])
    spans
  ++ [PlainText tail].

(** ** Network calls *)

(** What [encodeURIComponent] gives where it does not throw. *)
Definition encoded (s : jsstring) : jsstring :=
  match encodeURIComponent s with
  | Some r => r
  | None => []
  end.

(** The addresses the three Graph API functions post to. *)
Definition item_request (userId imageUrl token caption : jsstring) (isCarouselItem : bool)
    : jsstring :=
  (lit "https://graph.facebook.com/" ++ API_VERSION ++ lit "/" ++ userId
   ++ lit "/media?image_url=" ++ encoded imageUrl ++ lit "&access_token=" ++ token)
  ++ (if isCarouselItem then lit "&is_carousel_item=true"
      else lit "&caption=" ++ encoded caption).

Definition carousel_request (userId : jsstring) (childrenIds : list jsstring)
    (token caption : jsstring) : jsstring :=
  lit "https://graph.facebook.com/" ++ API_VERSION ++ lit "/" ++ userId
  ++ lit "/media?media_type=CAROUSEL&children=" ++ join (lit ",") childrenIds
  ++ lit "&caption=" ++ encoded caption ++ lit "&access_token=" ++ token.

Definition publish_request (userId creationId token : jsstring) : jsstring :=
  lit "https://graph.facebook.com/" ++ API_VERSION ++ lit "/" ++ userId
  ++ lit "/media_publish?creation_id=" ++ creationId ++ lit "&access_token=" ++ token.

(** The error a network call makes its caller throw: the rejection of the
    fetch, or the error payload of the answer. *)
Definition fetch_failure (e : Event) : option Exn :=
  match e with
  | Fetch _ (NetworkFailure reason) => Some (TypeError reason)
  | Fetch _ (Json d) => option_map (fun err => Error (error_message err)) (data_error d)
  | _ => None
  end.

(** Every network call of the trace was answered, and without an error. *)
Definition sound (tr : Trace) : Prop :=
  forall e, In e tr -> fetch_failure e = None.

(** Why a computation was rejected: by [URIError], for the reason [why]
    and with all network calls sound, or by the failure of its last
    network call, the earlier ones being sound. *)
Definition failure_cause {A : Type} (why : Prop) (out : Outcome A) (evs : Trace) : Prop :=
  match out with
  | Fulfilled _ => sound evs
  | Rejected e =>
      (e = URIError /\ why /\ sound evs)
      \/ exists low f, evs = low ++ [f] /\ sound low /\ fetch_failure f = Some e
  end.

(** What a Graph API function does on the network: the cause of a
    failure, and for an account other than the sentinel the one call it
    returns the answer of. *)
Definition network_post (why : Prop) (userId request : jsstring)
    (out : Outcome GraphData) (evs : Trace) : Prop :=
  failure_cause why out evs
  /\ (simulated userId = false ->
      forall d, out = Fulfilled d -> fetches evs = [Fetch request (Json d)]).

(** The answers the three Graph API functions make up for the sentinel
    account, from the clock and the random generator. *)
Definition made_up_item (d : GraphData) : Prop :=
  exists now r : string,
    d = mkData None (lit "item_container_" ++ lit now ++ lit "_" ++ lit r).

Definition made_up_carousel (d : GraphData) : Prop :=
  exists now : string, d = mkData None (lit "carousel_container_" ++ lit now).

Definition made_up_media (d : GraphData) : Prop :=
  exists now : string, d = mkData None (lit "published_media_" ++ lit now).

(** What a Graph API function does for its caller.  For a connected
    account it sends the one request [request] and returns the very answer
    it got; when it throws, it has sent nothing and an argument could not
    be encoded ([why]), or the one request it sent failed.  For the
    sentinel account it sends nothing and returns an answer it made up. *)
Definition reply_post (why : Prop) (request : jsstring) (made_up : GraphData -> Prop)
    (userId : jsstring) (out : Outcome GraphData) (evs : Trace) : Prop :=
  (simulated userId = false ->
   match out with
   | Fulfilled d => fetches evs = [Fetch request (Json d)]
   | Rejected e =>
       (e = URIError /\ why /\ fetches evs = [])
       \/ exists answer,
            fetches evs = [Fetch request answer]
            /\ fetch_failure (Fetch request answer) = Some e
   end)
  /\ (simulated userId = true ->
      fetches evs = []
      /\ match out with
         | Fulfilled d => made_up d
         | Rejected e => e = URIError /\ why
         end).

(** A run over the single blob [blob], by its service calls [apiT] and its
    network calls [net].  It uploads the blob and asks for one media
    container, not a carousel item, on the returned address and with the
    caption.  When that call throws, the run ends there.  When it returns,
    the run makes the finalize call on the id of the returned container,
    and nothing else, whether that call returns or throws.  A connected
    account sends the two requests and gets the containers it is
    answered with; the sentinel account sends nothing, gets made-up
    answers, and fails only on a caption that cannot be encoded. *)
Definition single_image_run (user : InstagramUser) (blob : Blob) (caption : jsstring)
    (out : Outcome GraphData) (apiT net : Trace) : Prop :=
  exists url : jsstring,
    (exists e, out = Rejected e
       /\ apiT = [Called (UploadImageToPublicServer blob);
                  Returned (VString url);
                  Called (CreateItemContainer (user_id user) url (accessToken user)
                            caption false)]
       /\ (simulated (user_id user) = false ->
           (e = URIError /\ encodable caption = false /\ net = [])
           \/ exists answer,
                net = [Fetch (item_request (user_id user) url (accessToken user)
                                caption false) answer]
                /\ fetch_failure
                     (Fetch (item_request (user_id user) url (accessToken user)
                               caption false) answer) = Some e)
       /\ (simulated (user_id user) = true ->
           e = URIError /\ encodable caption = false /\ net = []))
    \/ (exists container,
         apiT = [Called (UploadImageToPublicServer blob);
                 Returned (VString url);
                 Called (CreateItemContainer (user_id user) url (accessToken user)
                           caption false);
                 Returned (VData container);
                 Called (PublishMedia (user_id user) (data_id container)
                           (accessToken user))]
                ++ returned out
         /\ (simulated (user_id user) = false ->
             exists answer,
               net = [Fetch (item_request (user_id user) url (accessToken user)
                               caption false) (Json container);
                      Fetch (publish_request (user_id user) (data_id container)
                               (accessToken user)) answer]
               /\ match out with
                  | Fulfilled result => answer = Json result
                  | Rejected e =>
                      fetch_failure
                        (Fetch (publish_request (user_id user) (data_id container)
                                  (accessToken user)) answer) = Some e
                  end)
         /\ (simulated (user_id user) = true ->
             net = [] /\ made_up_item container
             /\ exists result, out = Fulfilled result /\ made_up_media result)).

(** The network calls of the item containers for the addresses, each
    answered with its container. *)
Definition item_fetches (user : InstagramUser) (urls : list jsstring)
    (items : list GraphData) : Trace :=
  map (fun ud => Fetch (item_request (user_id user) (fst ud) (accessToken user) [] true)
                   (Json (snd ud)))
    (combine urls items).

(** The service calls [apiC] and the network calls [net] of step 2 for a
    connected account when it ends with the creation id [id]. *)
Definition container_traffic (user : InstagramUser) (caption : jsstring)
    (urls : list jsstring) (id : jsstring) (apiC net : Trace) : Prop :=
  if length urls =? 1 then
    exists d, id = data_id d
      /\ apiC = [Called (CreateItemContainer (user_id user) (nth 0 urls [])
                           (accessToken user) caption false);
                 Returned (VData d)]
      /\ net = [Fetch (item_request (user_id user) (nth 0 urls []) (accessToken user)
                         caption false) (Json d)]
  else
    exists items root, length items = length urls /\ id = data_id root
      /\ apiC = item_calls user urls items
                ++ [Called (CreateCarouselContainer (user_id user) (map data_id items)
                              (accessToken user) caption);
                    Returned (VData root)]
      /\ net = item_fetches user urls items
               ++ [Fetch (carousel_request (user_id user) (map data_id items)
                            (accessToken user) caption) (Json root)].

(** One of the addresses cannot be encoded. *)
Definition unencodable_among (urls : list jsstring) : Prop :=
  exists url, In url urls /\ encodable url = false.

(** What step 2 does on the network. *)
Definition container_network (user : InstagramUser) (caption : jsstring)
    (urls : list jsstring) (out : Outcome jsstring) (evs : Trace) : Prop :=
  failure_cause (unencodable_among urls \/ encodable caption = false) out evs
  /\ (simulated (user_id user) = false -> forall id, out = Fulfilled id ->
      container_traffic user caption urls id (api evs) (fetches evs)).

(** What the [try] block of a run does on the network: the cause of a
    failure; all uploads first, in any case; and for a connected account
    whose run is fulfilled the service calls and the network calls. *)
Definition run_network (user : InstagramUser) (blobs : list Blob) (caption : jsstring)
    (out : Outcome GraphData) (evs : Trace) : Prop :=
  failure_cause (encodable caption = false) out evs
  /\ (exists rs, length rs = length blobs
        /\ prefix_of (upload_calls blobs (map upload_url rs)) (api evs))
  /\ (simulated (user_id user) = false -> forall result, out = Fulfilled result ->
      exists rs id apiC net, length rs = length blobs
        /\ container_traffic user caption (map upload_url rs) id apiC net
        /\ api evs = upload_calls blobs (map upload_url rs) ++ apiC
                     ++ [Called (PublishMedia (user_id user) id (accessToken user));
                         Returned (VData result)]
        /\ fetches evs = net ++ [Fetch (publish_request (user_id user) id (accessToken user))
                                   (Json result)]).

(** A world without a connection: every network call is rejected. *)
Definition offline_env : Env :=
  mkEnv (fun _ => "1700000000000"%string) (fun _ => "0.25"%string)
    (fun _ _ => NetworkFailure (lit "Failed to fetch")).

(** A caption that ends in half a surrogate pair. *)
Definition broken_caption : jsstring := lit "Launch " ++ [55357%N].

(** ** Connecting an account *)

(** The addresses of the three kinds of request of [fetchInstagramAccount]. *)
Definition accounts_request (token : jsstring) : jsstring :=
  lit "https://graph.facebook.com/v19.0/me/accounts?access_token=" ++ token.

Definition page_request (token : jsstring) (page : Login.Page) : jsstring :=
  lit "https://graph.facebook.com/v19.0/" ++ Login.page_id page
  ++ lit "?fields=instagram_business_account&access_token=" ++ token.

Definition account_request (token id : jsstring) : jsstring :=
  lit "https://graph.facebook.com/v19.0/" ++ id
  ++ lit "?fields=id,username,name,profile_picture_url&access_token=" ++ token.

Definition no_pages_error : Exn :=
  Error (lit "No Facebook Pages found. Please create a Page to connect Instagram.").

Definition no_account_error : Exn :=
  Error (lit "No Instagram Business Account connected to your Facebook Pages.").

(** The account of a login without a [window]. *)
Definition ssr_user : InstagramUser :=
  mkUser MOCK_USER_ID (lit "SSR User") (lit "ssr_user") None (lit "mock_token").

(** The page is served over https, or from the local machine. *)
Definition trusted_origin (b : Login.Browser) : bool :=
  jseqb (Login.protocol b) (lit "https:")
  || jseqb (Login.hostname b) (lit "localhost")
  || jseqb (Login.hostname b) (lit "127.0.0.1").

(** A use of the Facebook SDK or of the network. *)
Definition is_remote (e : Login.LoginEvent) : bool :=
  match e with
  | Login.SdkInit _ | Login.SdkLogin _ | Login.Get _ => true
  | _ => false
  end.

(** The real login did not give an account: the origin is not trusted,
    the user declined, or the lookup of the account was rejected. *)
Definition real_login_failed (b : Login.Browser) (g : Login.Graph) : Prop :=
  trusted_origin b = false
  \/ Login.login_response b = Some None
  \/ exists token e urls,
       Login.login_response b = Some (Some token)
       /\ Login.fetchInstagramAccount g token [] = (Rejected e, urls).

(** A Graph API for the examples: three pages, the first without an
    Instagram account, the other two with one. *)
Definition three_pages : list Login.Page :=
  [Login.mkPage (lit "101") (lit "Bakery");
   Login.mkPage (lit "102") (lit "Studio");
   Login.mkPage (lit "103") (lit "Garage")].

Definition example_graph : Login.Graph :=
  Login.mkGraph
    (fun _ _ => Login.Body (Some three_pages))
    (fun _ url =>
       if includes (lit "/101?") url then Login.Body None
       else if includes (lit "/102?") url then Login.Body (Some (lit "17841405793187218"))
       else Login.Body (Some (lit "17841400000000000")))
    (fun _ _ => Login.Body (Login.mkIgUser (lit "17841405793187218") None (lit "ana") None)).

(** A Graph API whose pages have no Instagram account. *)
Definition unconnected_graph : Login.Graph :=
  Login.mkGraph
    (fun _ _ => Login.Body (Some three_pages))
    (fun _ _ => Login.Body None)
    (fun _ _ => Login.Unreachable (lit "Failed to fetch")).

(** A page served over plain http from a public host, with the SDK at
    hand and a user who would authorize. *)
Definition http_page : Login.Browser :=
  Login.mkBrowser true None (lit "http:") (lit "carrossel.example") true true
    (Some (Some (lit "EAAB"))).

(** The same page served over https. *)
Definition https_page : Login.Browser :=
  Login.mkBrowser true None (lit "https:") (lit "carrossel.example") true true
    (Some (Some (lit "EAAB"))).

(** ** Publishing from the editor *)

(** The message before the rendering of the slide at index [i]. *)
Definition rendering_status (total i : nat) : jsstring :=
  lit "Rendering slide " ++ decimal (i + 1) ++ lit " of " ++ decimal total ++ lit "...".

(** The blobs of the slides whose rendering gives one, in the order of the
    slides; [i] is the index of the first slide. *)
Fixpoint rendered_from (toBlob : nat -> jsstring -> Publisher.Rendering) (i : nat)
    (slides : list Editor.Slide) : list Blob :=
  match slides with
  | [] => []
  | slide :: rest =>
      match toBlob i (Editor.slide_id slide) with
      | Publisher.Rendered (Some blob) => blob :: rendered_from toBlob (S i) rest
      | _ => rendered_from toBlob (S i) rest
      end
  end.

(** No rendering of the slides is rejected; [i] is the index of the first
    slide. *)
Definition renders (toBlob : nat -> jsstring -> Publisher.Rendering) (i : nat)
    (slides : list Editor.Slide) : Prop :=
  forall j slide, nth_error slides j = Some slide ->
  forall e, toBlob (i + j) (Editor.slide_id slide) <> Publisher.RenderFails e.

(** The rendering of the slide at index [k] is the first that is rejected,
    with [e]. *)
Definition first_rejection (toBlob : nat -> jsstring -> Publisher.Rendering)
    (slides : list Editor.Slide) (k : nat) (e : Exn) : Prop :=
  renders toBlob 0 (firstn k slides)
  /\ exists slide, nth_error slides k = Some slide
       /\ toBlob k (Editor.slide_id slide) = Publisher.RenderFails e.

(** The first two effects of [handlePublish], and the last four. *)
Definition opening : list Publisher.UiEffect :=
  [Publisher.SetPublishStatus Publisher.StatusRendering;
   Publisher.SetStatusMessage (lit "Rendering high-quality slides...")].

Definition success_report : list Publisher.UiEffect :=
  [Publisher.SetPublishStatus Publisher.StatusSuccess;
   Publisher.SetStatusMessage (lit "Your carousel is now live!");
   Publisher.Later 4000 Publisher.StatusIdle []].

Definition failure_report (e : Exn) : list Publisher.UiEffect :=
  [Publisher.LogError e;
   Publisher.SetPublishStatus Publisher.StatusError;
   Publisher.SetStatusMessage (lit "An error occurred during publication.");
   Publisher.Later 4000 Publisher.StatusIdle []].

(** The messages shown one after the other. *)
Definition shown (messages : list jsstring) : list Publisher.UiEffect :=
  map Publisher.SetStatusMessage messages.

(** A rendering for the examples: the second slide has no element, the
    others give a one-byte blob. *)
Definition skipping_second (i : nat) (id : jsstring) : Publisher.Rendering :=
  if i =? 1 then Publisher.NoElement else Publisher.Rendered (Some (slide (N.of_nat i))).

(** A rendering that is rejected at the third slide. *)
Definition failing_third (i : nat) (id : jsstring) : Publisher.Rendering :=
  if i =? 2 then Publisher.RenderFails (Error (lit "tainted canvas"))
  else Publisher.Rendered (Some (slide (N.of_nat i))).

(** * Properties of the markup engine *)

Section MarkupProperties.

(** ** Strings *)

Lemma jseqb_eq a b : jseqb a b = true <-> a = b.
Proof.
  revert b. induction a as [|x a IH]; intros [|y b]; simpl; split;
    try discriminate; try reflexivity.
  - intros H. apply andb_true_iff in H as [Hx Hab].
    apply N.eqb_eq in Hx. apply IH in Hab. congruence.
  - intros [= -> ->]. rewrite N.eqb_refl. simpl. apply IH. reflexivity.
Qed.

Lemma startsWith_app p s : startsWith p s = true <-> exists r, s = p ++ r.
Proof.
  revert s. induction p as [|x p IH]; intros s; simpl.
  - split; [exists s; reflexivity | reflexivity].
  - destruct s as [|y s].
    + split; [discriminate | intros [r [=]]].
    + rewrite andb_true_iff, N.eqb_eq, IH. split.
      * intros [-> [r ->]]. exists r. reflexivity.
      * intros [r [= -> ->]]. split; [reflexivity | exists r; reflexivity].
Qed.

Lemma includes_app p s : includes p s = true <-> exists a b, s = a ++ p ++ b.
Proof.
  induction s as [|c s IH]; simpl.
  - rewrite orb_false_r, startsWith_app. split.
    + intros [r ->]. exists [], r. reflexivity.
    + intros [a [b H]]. destruct a; [exists b; exact H | discriminate].
  - rewrite orb_true_iff, startsWith_app, IH. split.
    + intros [[r ->] | [a [b ->]]].
      * exists [], r. reflexivity.
      * exists (c :: a), b. reflexivity.
    + intros [[|x a] [b H]].
      * left. exists b. exact H.
      * right. injection H as -> ->. exists a, b. reflexivity.
Qed.

Lemma includes_false_startsWith p s : includes p s = false -> startsWith p s = false.
Proof. destruct s; simpl; intros H; apply orb_false_iff in H; apply H. Qed.

Lemma includes_false_tail p c s : includes p (c :: s) = false -> includes p s = false.
Proof. simpl. intros H. apply orb_false_iff in H. apply H. Qed.

Lemma includes_false_skipn p n s : includes p s = false -> includes p (skipn n s) = false.
Proof.
  revert s. induction n as [|n IH]; intros s H; [exact H|].
  destruct s as [|c s]; [exact H|]. simpl skipn.
  apply IH. eapply includes_false_tail. exact H.
Qed.

Lemma endsWith_app p s : endsWith p s = true <-> exists r, s = r ++ p.
Proof.
  unfold endsWith. rewrite andb_true_iff, Nat.leb_le, jseqb_eq. split.
  - intros [Hlen H]. exists (firstn (length s - length p) s).
    pose proof (firstn_skipn (length s - length p) s) as E.
    rewrite H in E. symmetry. exact E.
  - intros [r ->]. rewrite length_app. split; [lia|].
    replace (length r + length p - length p) with (length r + 0) by lia.
    rewrite skipn_app, Nat.add_0_r, skipn_all. simpl.
    replace (length r - length r) with 0 by lia. reflexivity.
Qed.

(** ** Splitting a line at the tags *)

Lemma split_tags_match c rest n :
  tag_at (c :: rest) = Some n ->
  split_tags (c :: rest) = [] :: firstn n (c :: rest) :: split_tags (skipn n (c :: rest)).
Proof.
  intros H. rewrite split_tags_equation_2.
  destruct (Logic.inspect (tag_at (c :: rest))) as [[m|] e]; simpl; congruence.
Qed.

Lemma split_tags_no_match c rest :
  tag_at (c :: rest) = None ->
  split_tags (c :: rest) = cons_head c (split_tags rest).
Proof.
  intros H. rewrite split_tags_equation_2.
  destruct (Logic.inspect (tag_at (c :: rest))) as [[m|] e]; simpl; congruence.
Qed.

Lemma split_tags_not_nil s : split_tags s <> [].
Proof.
  funelim (split_tags s); try discriminate.
  destruct (split_tags rest); discriminate.
Qed.

Lemma concat_cons_head c parts :
  parts <> [] -> concat (cons_head c parts) = c :: concat parts.
Proof. destruct parts; [congruence | reflexivity]. Qed.

(** The pieces, put back together, are the line. *)
Lemma concat_split_tags s : concat (split_tags s) = s.
Proof.
  funelim (split_tags s).
  - reflexivity.
  - simpl concat. rewrite H. apply firstn_skipn.
  - rewrite concat_cons_head by apply split_tags_not_nil. congruence.
Qed.

Lemma lazy_until_some close s n :
  lazy_until close s = Some n ->
  exists body rest, s = body ++ close ++ rest /\ n = length body + length close.
Proof.
  revert n. induction s as [|c s IH]; intros n; simpl.
  - destruct (startsWith close []) eqn:E; [|discriminate].
    intros [= <-]. apply startsWith_app in E as [r E].
    exists [], r. split; [exact E | reflexivity].
  - destruct (startsWith close (c :: s)) eqn:E.
    + intros [= <-]. apply startsWith_app in E as [r E].
      exists [], r. split; [exact E | reflexivity].
    + destruct (is_line_terminator c); [discriminate|].
      destruct (lazy_until close s) as [m|]; [|discriminate].
      intros [= <-]. destruct (IH m eq_refl) as [body [rest [-> ->]]].
      exists (c :: body), rest. split; reflexivity.
Qed.

Lemma span_at_some open close s n :
  span_at open close s = Some n ->
  exists body rest, s = open ++ body ++ close ++ rest
                    /\ n = length open + length body + length close.
Proof.
  unfold span_at. destruct (startsWith open s) eqn:E; [|discriminate].
  apply startsWith_app in E as [r ->].
  rewrite skipn_app, skipn_all, Nat.sub_diag. cbn [skipn app].
  destruct (lazy_until close r) as [m|] eqn:L; simpl; [|discriminate].
  intros [= <-]. apply lazy_until_some in L as [body [rest [-> ->]]].
  exists body, rest. split; [reflexivity | lia].
Qed.

Lemma has_pair_app open close a body rest :
  has_pair open close (a ++ open ++ body ++ close ++ rest) = true.
Proof.
  induction a as [|c a IH].
  - simpl app. assert (H : startsWith open (open ++ body ++ close ++ rest) = true)
      by (apply startsWith_app; eexists; reflexivity).
    assert (I : includes close (skipn (length open) (open ++ body ++ close ++ rest)) = true).
    { rewrite skipn_app, skipn_all, Nat.sub_diag. cbn [skipn app].
      apply includes_app. exists body, rest. reflexivity. }
    destruct (open ++ body ++ close ++ rest); simpl in *; rewrite H, I; reflexivity.
  - simpl. rewrite IH. apply orb_true_r.
Qed.

Lemma has_pair_false_tail open close c s :
  has_pair open close (c :: s) = false -> has_pair open close s = false.
Proof. simpl. intros H. apply orb_false_iff in H. apply H. Qed.

Lemma span_at_none open close s :
  has_pair open close s = false -> span_at open close s = None.
Proof.
  intros H. destruct (span_at open close s) as [n|] eqn:E; [|reflexivity].
  apply span_at_some in E as [body [rest [-> _]]].
  pose proof (has_pair_app open close [] body rest) as P.
  cbn [app] in P. congruence.
Qed.

Lemma unmatched_tail c s : unmatched (c :: s) = true -> unmatched s = true.
Proof.
  unfold unmatched. rewrite !andb_true_iff, !negb_true_iff.
  intros [H1 H2]. split; eapply has_pair_false_tail; eassumption.
Qed.

Lemma unmatched_tag_at s : unmatched s = true -> tag_at s = None.
Proof.
  unfold unmatched, tag_at. rewrite !andb_true_iff, !negb_true_iff.
  intros [H1 H2]. rewrite (span_at_none _ _ _ H1). apply span_at_none, H2.
Qed.

(** Without a matched pair the line is a single piece. *)
Lemma split_tags_unmatched s : unmatched s = true -> split_tags s = [s].
Proof.
  induction s as [|c s IH]; intros H.
  - reflexivity.
  - rewrite split_tags_no_match by (apply unmatched_tag_at, H).
    rewrite IH by (eapply unmatched_tail, H). reflexivity.
Qed.

(** ** Rendering a piece *)

Lemma endsWith_behind close a r :
  length close <= length r -> endsWith close (a ++ r) = endsWith close r.
Proof.
  intros H. unfold endsWith. rewrite length_app.
  replace (length a + length r - length close)
    with (length a + (length r - length close)) by lia.
  rewrite skipn_app, skipn_all2 by lia.
  replace (length a + (length r - length close) - length a)
    with (length r - length close) by lia.
  simpl app. f_equal.
  destruct (length close <=? length r) eqn:E1, (length close <=? length a + length r) eqn:E2;
    try reflexivity.
  - apply Nat.leb_gt in E2. lia.
  - apply Nat.leb_gt in E1. lia.
Qed.

Lemma bold_piece s :
  startsWith b_open s = true -> endsWith b_close s = true ->
  exists body, s = b_open ++ body ++ b_close.
Proof.
  intros Hs He. apply startsWith_app in Hs as [r ->].
  destruct r as [|r0 [|r1 [|r2 [|r3 r]]]]; try (cbn in He; discriminate).
  rewrite endsWith_behind in He by (simpl; lia).
  apply endsWith_app in He as [body ->]. exists body. reflexivity.
Qed.

Lemma highlight_piece s :
  startsWith mark_open s = true -> endsWith mark_close s = true ->
  exists body, s = mark_open ++ body ++ mark_close.
Proof.
  intros Hs He. apply startsWith_app in Hs as [r ->].
  destruct r as [|r0 [|r1 [|r2 [|r3 [|r4 [|r5 [|r6 r]]]]]]];
    try (cbn in He; discriminate).
  rewrite endsWith_behind in He by (simpl; lia).
  apply endsWith_app in He as [body ->]. exists body. reflexivity.
Qed.

Lemma slice_middle a body c : slice (length a) (length c) (a ++ body ++ c) = body.
Proof.
  unfold slice. rewrite !length_app, skipn_app, skipn_all, Nat.sub_diag.
  cbn [skipn app].
  replace (length a + (length body + length c) - length c - length a)
    with (length body + 0) by lia.
  rewrite firstn_app_2, firstn_O. apply app_nil_r.
Qed.

(** Every segment stands for exactly the piece it was made from. *)
Lemma render_part_source part : segment_source (render_part part) = part.
Proof.
  unfold render_part.
  destruct (startsWith b_open part && endsWith b_close part) eqn:B.
  - apply andb_true_iff in B as [Hs He].
    destruct (bold_piece _ Hs He) as [body ->].
    cbn [segment_source]. do 2 f_equal.
    apply (slice_middle b_open body b_close).
  - destruct (startsWith mark_open part && endsWith mark_close part) eqn:H.
    + apply andb_true_iff in H as [Hs He].
      destruct (highlight_piece _ Hs He) as [body ->].
      cbn [segment_source]. do 2 f_equal.
      apply (slice_middle mark_open body mark_close).
    + reflexivity.
Qed.

Lemma render_line_source line :
  concat (map segment_source (render_line line)) = line.
Proof.
  unfold render_line. rewrite map_map.
  rewrite (map_ext _ (fun p => p)) by apply render_part_source.
  rewrite map_id. apply concat_split_tags.
Qed.

Lemma render_part_unmatched part :
  unmatched part = true -> render_part part = PlainText part.
Proof.
  unfold unmatched, render_part. rewrite andb_true_iff, !negb_true_iff.
  intros [Hb Hm].
  destruct (startsWith b_open part && endsWith b_close part) eqn:B.
  { apply andb_true_iff in B as [Hs He].
    destruct (bold_piece _ Hs He) as [body ->].
    pose proof (has_pair_app b_open b_close [] body []) as P.
    cbn [app] in P. rewrite app_nil_r in P. congruence. }
  destruct (startsWith mark_open part && endsWith mark_close part) eqn:H.
  { apply andb_true_iff in H as [Hs He].
    destruct (highlight_piece _ Hs He) as [body ->].
    pose proof (has_pair_app mark_open mark_close [] body []) as P.
    cbn [app] in P. rewrite app_nil_r in P. congruence. }
  reflexivity.
Qed.

Lemma render_line_unmatched line :
  unmatched line = true -> render_line line = [PlainText line].
Proof.
  intros H. unfold render_line. rewrite split_tags_unmatched by exact H.
  simpl. rewrite render_part_unmatched by exact H. reflexivity.
Qed.

(** ** Splitting the text into lines *)

Lemma split_newline_cons c rest :
  split_newline (c :: rest) =
  if (c =? LF)%N then [] :: split_newline rest
  else cons_head c (split_newline rest).
Proof.
  unfold split_newline. simpl.
  destruct (split_newline_ne rest) as [l ls].
  destruct (c =? LF)%N; reflexivity.
Qed.

Lemma split_newline_not_nil text : split_newline text <> [].
Proof. unfold split_newline. destruct (split_newline_ne text). discriminate. Qed.

Lemma cons_head_app c xs ys :
  xs <> [] -> cons_head c (xs ++ ys) = cons_head c xs ++ ys.
Proof. destruct xs; [congruence | reflexivity]. Qed.

(** The lines of a text with a line feed in it are the lines before the
    line feed followed by the lines after it. *)
Lemma split_newline_app a b :
  split_newline (a ++ LF :: b) = split_newline a ++ split_newline b.
Proof.
  induction a as [|c a IH].
  - simpl app. rewrite split_newline_cons. reflexivity.
  - simpl app. rewrite !split_newline_cons, IH.
    destruct (c =? LF)%N; [reflexivity|].
    apply cons_head_app, split_newline_not_nil.
Qed.

Lemma split_newline_no_LF text line :
  In line (split_newline text) -> ~ In LF line.
Proof.
  revert line. induction text as [|c text IH]; intros line.
  - intros [<- | []]. intros [].
  - rewrite split_newline_cons. destruct (c =? LF)%N eqn:E.
    + intros [<- | H]; [intros [] | apply IH, H].
    + pose proof (split_newline_not_nil text) as NE.
      destruct (split_newline text) as [|l ls]; [congruence|].
      intros [<- | H].
      * intros [-> | H]; [rewrite N.eqb_refl in E; discriminate|].
        revert H. apply IH. left. reflexivity.
      * apply IH. right. exact H.
Qed.

(** Every line is a piece of the text, and the first line starts it. *)
Lemma split_newline_pieces text :
  (exists b, text = hd [] (split_newline text) ++ b)
  /\ (forall line, In line (split_newline text) -> exists a b, text = a ++ line ++ b).
Proof.
  induction text as [|c text [[b0 IH0] IH]].
  - split; [exists []; reflexivity|].
    intros line [<- | []]. exists [], []. reflexivity.
  - rewrite split_newline_cons. destruct (c =? LF)%N eqn:E.
    + split; [exists (c :: text); reflexivity|].
      intros line [<- | H].
      * exists [], (c :: text). reflexivity.
      * destruct (IH _ H) as [a [b ->]]. exists (c :: a), b. reflexivity.
    + pose proof (split_newline_not_nil text) as NE.
      destruct (split_newline text) as [|l ls]; [congruence|].
      simpl in IH0. split.
      * exists b0. simpl. congruence.
      * intros line [<- | H].
        -- exists [], b0. simpl. congruence.
        -- destruct (IH line) as [a [b ->]]; [right; exact H|].
           exists (c :: a), b. reflexivity.
Qed.

Lemma split_newline_includes p text line :
  includes p text = false -> In line (split_newline text) -> includes p line = false.
Proof.
  intros H Hin. destruct (includes p line) eqn:E; [|reflexivity].
  apply includes_app in E as [x [y ->]].
  destruct (split_newline_pieces text) as [_ P].
  destruct (P _ Hin) as [a [b ->]].
  assert (I : includes p (a ++ (x ++ p ++ y) ++ b) = true).
  { apply includes_app. exists (a ++ x), (y ++ b).
    rewrite <- !app_assoc. reflexivity. }
  congruence.
Qed.

Lemma split_newline_single line : ~ In LF line -> split_newline line = [line].
Proof.
  induction line as [|c line IH]; intros H.
  - reflexivity.
  - rewrite split_newline_cons. destruct (c =? LF)%N eqn:E.
    + apply N.eqb_eq in E. exfalso. apply H. left. congruence.
    + rewrite IH; [reflexivity|]. intros I. apply H. right. exact I.
Qed.

(** ** The whole text *)

Lemma map_segments_mapi_from (f : jsstring -> list FormattedSegment)
    (g : nat -> bool) i arr :
  map segments (mapi_from i (fun j line => mkFragment (f line) (g j)) arr) = map f arr.
Proof.
  revert i. induction arr as [|l arr IH]; intros i; simpl; [reflexivity|].
  rewrite IH. reflexivity.
Qed.

Lemma length_mapi_from {A B : Type} (f : nat -> A -> B) i xs :
  length (mapi_from i f xs) = length xs.
Proof. revert i. induction xs; intros i; simpl; [reflexivity | rewrite IHxs; reflexivity]. Qed.

(** On a text that is not empty the engine renders the lines one by one. *)
Lemma lines_of_render text :
  text <> [] ->
  lines_of (renderFormattedText text) = map render_line (split_newline text).
Proof.
  destruct text as [|c text]; [congruence|]. intros _.
  unfold renderFormattedText, lines_of, mapi.
  apply map_segments_mapi_from.
Qed.

Lemma includes_unfold p s :
  includes p s = startsWith p s || match s with [] => false | _ :: rest => includes p rest end.
Proof. destruct s; reflexivity. Qed.

Lemma includes_cons p c s :
  includes p (c :: s) = startsWith p (c :: s) || includes p s.
Proof. reflexivity. Qed.

Lemma has_pair_unfold open close s :
  has_pair open close s =
  startsWith open s && includes close (skipn (length open) s)
  || match s with [] => false | _ :: rest => has_pair open close rest end.
Proof. destruct s; reflexivity. Qed.

Lemma has_pair_includes open close s :
  has_pair open close s = true -> includes open s = true /\ includes close s = true.
Proof.
  induction s as [|c s IH]; rewrite has_pair_unfold, orb_true_iff, andb_true_iff.
  - intros [[H1 H2] | [=]]. rewrite skipn_nil in H2.
    rewrite includes_unfold, H1. split; [reflexivity | exact H2].
  - intros [[H1 H2] | H].
    + rewrite includes_unfold, H1. split; [reflexivity|].
      destruct (includes close (c :: s)) eqn:E; [reflexivity|].
      rewrite (includes_false_skipn close (length open) (c :: s) E) in H2. discriminate.
    + destruct (IH H) as [Ho Hc].
      rewrite (includes_unfold open), (includes_unfold close), Ho, Hc, !orb_true_r.
      split; reflexivity.
Qed.

Lemma no_open_unmatched s :
  includes b_open s = false -> includes mark_open s = false -> unmatched s = true.
Proof.
  intros Hb Hm. unfold unmatched.
  destruct (has_pair b_open b_close s) eqn:B.
  { apply has_pair_includes in B as [B _]. congruence. }
  destruct (has_pair mark_open mark_close s) eqn:H.
  { apply has_pair_includes in H as [H _]. congruence. }
  reflexivity.
Qed.

Lemma no_close_unmatched s :
  includes b_close s = false -> includes mark_close s = false -> unmatched s = true.
Proof.
  intros Hb Hm. unfold unmatched.
  destruct (has_pair b_open b_close s) eqn:B.
  { apply has_pair_includes in B as [_ B]. congruence. }
  destruct (has_pair mark_open mark_close s) eqn:H.
  { apply has_pair_includes in H as [_ H]. congruence. }
  reflexivity.
Qed.

Lemma tag_free_parts s :
  tag_free s = true ->
  (includes b_open s = false /\ includes b_close s = false)
  /\ (includes mark_open s = false /\ includes mark_close s = false).
Proof.
  unfold tag_free. rewrite !andb_true_iff, !negb_true_iff. tauto.
Qed.

Lemma tag_free_unmatched s : tag_free s = true -> unmatched s = true.
Proof.
  intros H. apply tag_free_parts in H as [[Hb _] [Hm _]].
  apply no_open_unmatched; assumption.
Qed.

Lemma tag_free_line text line :
  tag_free text = true -> In line (split_newline text) -> tag_free line = true.
Proof.
  intros H Hin. apply tag_free_parts in H as [[H1 H2] [H3 H4]].
  unfold tag_free.
  rewrite (split_newline_includes _ _ _ H1 Hin), (split_newline_includes _ _ _ H2 Hin),
    (split_newline_includes _ _ _ H3 Hin), (split_newline_includes _ _ _ H4 Hin).
  reflexivity.
Qed.

(** ** Fragments around a line feed *)

Lemma startsWith_app_short p s q :
  startsWith p (s ++ q) = true -> startsWith p s = false -> length s < length p.
Proof.
  revert s. induction p as [|x p IH]; intros s; simpl; [discriminate|].
  destruct s as [|y s]; simpl; [lia|].
  destruct (x =? y)%N; simpl; [|discriminate].
  intros H1 H2. specialize (IH s H1 H2). lia.
Qed.

Ltac decide_code_units H :=
  cbn -[N.eqb] in H;
  repeat match type of H with
         | context [N.eqb ?a ?b] =>
             first [is_var a | is_var b]; destruct (N.eqb a b); cbn -[N.eqb] in H
         end;
  cbn in H; try discriminate.

(** An opening tag cannot begin in a text without one and end inside a
    closing tag put behind it. *)
Lemma no_open_before_close (open close y : jsstring) :
  In open [b_open; mark_open] -> In close [b_close; mark_close] ->
  includes open y = false -> includes open (y ++ close) = false.
Proof.
  intros Ho Hc. induction y as [|c y IH]; intros H.
  - destruct Ho as [<- | [<- | []]], Hc as [<- | [<- | []]]; reflexivity.
  - rewrite includes_unfold in H. apply orb_false_iff in H as [Hs Hi].
    change ((c :: y) ++ close) with (c :: y ++ close).
    rewrite includes_unfold, (IH Hi), orb_false_r.
    destruct (startsWith open (c :: y ++ close)) eqn:E; [exfalso | reflexivity].
    pose proof (startsWith_app_short open (c :: y) close E Hs) as L.
    destruct Ho as [<- | [<- | []]], Hc as [<- | [<- | []]];
      do 5 (destruct y as [|? y];
            [first [solve [decide_code_units E] | simpl in L; lia]|]);
      simpl in L; lia.
Qed.

Lemma no_close_after_open (open close x : jsstring) :
  In open [b_open; mark_open] -> In close [b_close; mark_close] ->
  includes close x = false -> includes close (open ++ x) = false.
Proof.
  intros Ho Hc H.
  destruct Ho as [<- | [<- | []]], Hc as [<- | [<- | []]];
    cbn [b_open mark_open lit list_ascii_of_string map app];
    rewrite !includes_cons, H; reflexivity.
Qed.

(** ** The specified behaviour of the markup engine *)

(** C5, as stated, fails: for the line [<mark>a</mark><b>b</b>] the engine
    does not return the two segments Highlight(a), Bold(b) alone. *)
Lemma adjacent_tags_not_two_segments :
  length (concat (lines_of (renderFormattedText (lit "<mark>a</mark><b>b</b>")))) = 5
  /\ lines_of (renderFormattedText (lit "<mark>a</mark><b>b</b>"))
     <> [[Highlight (lit "a"); Bold (lit "b")]].
Proof. split; [reflexivity | vm_compute; discriminate]. Qed.

(** C5, amended: for the line [<mark>a</mark><b>b</b>] the engine returns
    five segments, an empty plain-text segment before, between and after
    Highlight(a) and Bold(b); the segments that are not empty plain text
    are exactly Highlight(a) then Bold(b). *)
Theorem adjacent_tags_segments :
  lines_of (renderFormattedText (lit "<mark>a</mark><b>b</b>"))
  = [[PlainText []; Highlight (lit "a"); PlainText []; Bold (lit "b"); PlainText []]]
  /\ map (filter (fun seg => negb (is_empty_plain seg)))
       (lines_of (renderFormattedText (lit "<mark>a</mark><b>b</b>")))
     = [[Highlight (lit "a"); Bold (lit "b")]].
Proof. split; reflexivity. Qed.

(** C6, as stated, fails on the empty string: it contains no tag, splitting
    it at the line feeds gives one (empty) line, but the engine returns
    [null] and not one empty plain-text segment for that line. *)
Lemma empty_text_is_not_one_plain_line :
  tag_free [] = true
  /\ split_newline [] = [[]]
  /\ lines_of (renderFormattedText [])
     <> map (fun line => [PlainText line]) (split_newline []).
Proof. repeat split. discriminate. Qed.

(** C6, amended: for every input string that is not empty and contains no
    tag, the engine splits it at the line feeds and returns, for each line,
    exactly one plain-text segment whose text is that line. *)
Theorem plain_text_lines (text : jsstring) :
  text <> [] -> tag_free text = true ->
  lines_of (renderFormattedText text)
  = map (fun line => [PlainText line]) (split_newline text).
Proof.
  intros NE TF. rewrite lines_of_render by exact NE.
  apply map_ext_in. intros line Hin.
  apply render_line_unmatched, tag_free_unmatched.
  eapply tag_free_line; eassumption.
Qed.

(** The text [a], line feed, [b] gives two lines, [a] and [b]. *)
Lemma plain_text_lines_a_b :
  (lit "a" ++ LF :: lit "b" <> [] /\ tag_free (lit "a" ++ LF :: lit "b") = true)
  /\ lines_of (renderFormattedText (lit "a" ++ LF :: lit "b"))
     = [[PlainText (lit "a")]; [PlainText (lit "b")]].
Proof.
  assert (NE : lit "a" ++ LF :: lit "b" <> []) by discriminate.
  assert (TF : tag_free (lit "a" ++ LF :: lit "b") = true) by reflexivity.
  split; [split; assumption|].
  exact (plain_text_lines NE TF).
Defined.

(** C7: the engine has a result for every input and no markup is an error.
    On a text that is not empty it returns one fragment per line, and the
    segments of a fragment, written back as markup, are that line: nothing
    is dropped or added.  A line in which no opening tag is followed by
    its closing tag is one plain-text segment holding the line as it is;
    so is the whole of [<b>oops]. *)
Theorem malformed_markup_is_plain_text :
  (forall text, text <> [] ->
     exists frags, renderFormattedText text = Some frags
       /\ map (fun f => concat (map segment_source (segments f))) frags
          = split_newline text)
  /\ (forall text i line, text <> [] ->
       nth_error (split_newline text) i = Some line -> unmatched line = true ->
       nth_error (lines_of (renderFormattedText text)) i = Some [PlainText line])
  /\ renderFormattedText (lit "<b>oops")
     = Some [mkFragment [PlainText (lit "<b>oops")] false].
Proof.
  split; [|split].
  - intros text NE. pose proof (lines_of_render NE) as L.
    destruct (renderFormattedText text) as [frags|] eqn:R.
    + exists frags. split; [reflexivity|]. simpl in L.
      rewrite <- (map_map segments (fun segs => concat (map segment_source segs))), L.
      rewrite map_map, (map_ext _ (fun l => l)) by apply render_line_source.
      apply map_id.
    + destruct text; [congruence | discriminate].
  - intros text i line NE Hi U. rewrite lines_of_render by exact NE.
    rewrite nth_error_map, Hi. simpl. rewrite render_line_unmatched by exact U.
    reflexivity.
  - reflexivity.
Qed.

Lemma malformed_markup_is_plain_text_oops :
  (lit "<b>oops" <> []
   /\ nth_error (split_newline (lit "<b>oops")) 0 = Some (lit "<b>oops")
   /\ unmatched (lit "<b>oops") = true)
  /\ nth_error (lines_of (renderFormattedText (lit "<b>oops"))) 0
     = Some [PlainText (lit "<b>oops")].
Proof.
  assert (NE : lit "<b>oops" <> []) by discriminate.
  assert (Hi : nth_error (split_newline (lit "<b>oops")) 0 = Some (lit "<b>oops"))
    by reflexivity.
  assert (U : unmatched (lit "<b>oops") = true) by reflexivity.
  split; [repeat split; assumption|].
  exact (proj1 (proj2 malformed_markup_is_plain_text) _ 0 _ NE Hi U).
Defined.

(** C9: a formatting tag never spans a line break.  The lines around a
    line feed are rendered independently of each other; no segment holds
    a line feed; and for texts [x] and [y] without tags and line feeds, an
    opening tag before [x] whose closing tag stands behind [y] on the next
    line gives no Bold or Highlight segment: both fragments are plain
    text on their lines. *)
Theorem tags_never_span_lines :
  (forall a b,
     lines_of (renderFormattedText (a ++ LF :: b))
     = map render_line (split_newline a) ++ map render_line (split_newline b))
  /\ (forall text segs seg,
       In segs (lines_of (renderFormattedText text)) -> In seg segs ->
       ~ In LF (segment_text seg))
  /\ (forall open close x y,
       In (open, close) [(b_open, b_close); (mark_open, mark_close)] ->
       tag_free x = true -> tag_free y = true -> ~ In LF x -> ~ In LF y ->
       lines_of (renderFormattedText (open ++ x ++ LF :: y ++ close))
       = [[PlainText (open ++ x)]; [PlainText (y ++ close)]]).
Proof.
  assert (Around : forall a b,
     lines_of (renderFormattedText (a ++ LF :: b))
     = map render_line (split_newline a) ++ map render_line (split_newline b)).
  { intros a b. rewrite lines_of_render by (destruct a; discriminate).
    rewrite split_newline_app. apply map_app. }
  split; [exact Around | split].
  - intros text segs seg Hsegs Hseg HLF.
    destruct text as [|c text]; [destruct Hsegs|].
    rewrite lines_of_render in Hsegs by discriminate.
    apply in_map_iff in Hsegs as [line [<- Hline]].
    apply (split_newline_no_LF _ _ Hline).
    rewrite <- (render_line_source line). apply in_concat.
    exists (segment_source seg). split; [apply in_map; exact Hseg|].
    destruct seg; cbn [segment_source segment_text] in *; [exact HLF | |];
      apply in_or_app; right; apply in_or_app; left; exact HLF.
  - intros open close x y Hpair Hx Hy Lx Ly.
    assert (Ho : In open [b_open; mark_open])
      by (destruct Hpair as [[= <- <-] | [[= <- <-] | []]]; simpl; tauto).
    assert (Hc : In close [b_close; mark_close])
      by (destruct Hpair as [[= <- <-] | [[= <- <-] | []]]; simpl; tauto).
    assert (Lo : ~ In LF open).
    { destruct Ho as [<- | [<- | []]]; intros I; simpl in I;
        repeat (destruct I as [I | I]; [discriminate|]); exact I. }
    assert (Lc : ~ In LF close).
    { destruct Hc as [<- | [<- | []]]; intros I; simpl in I;
        repeat (destruct I as [I | I]; [discriminate|]); exact I. }
    rewrite app_assoc, Around.
    rewrite !split_newline_single
      by (intros I; apply in_app_or in I; tauto).
    apply tag_free_parts in Hx as [[_ Hx1] [_ Hx2]].
    apply tag_free_parts in Hy as [[Hy1 _] [Hy2 _]].
    simpl. rewrite !render_line_unmatched; [reflexivity | |].
    + apply no_open_unmatched; apply no_open_before_close; simpl; tauto.
    + apply no_close_unmatched; apply no_close_after_open; simpl; tauto.
Qed.

Lemma tags_never_span_lines_bold :
  (In (b_open, b_close) [(b_open, b_close); (mark_open, mark_close)]
   /\ tag_free (lit "x") = true /\ tag_free (lit "y") = true
   /\ ~ In LF (lit "x") /\ ~ In LF (lit "y"))
  /\ lines_of (renderFormattedText (b_open ++ lit "x" ++ LF :: lit "y" ++ b_close))
     = [[PlainText (b_open ++ lit "x")]; [PlainText (lit "y" ++ b_close)]].
Proof.
  assert (P : In (b_open, b_close) [(b_open, b_close); (mark_open, mark_close)])
    by (left; reflexivity).
  assert (Tx : tag_free (lit "x") = true) by reflexivity.
  assert (Ty : tag_free (lit "y") = true) by reflexivity.
  assert (Lx : ~ In LF (lit "x")) by (intros [I | []]; discriminate).
  assert (Ly : ~ In LF (lit "y")) by (intros [I | []]; discriminate).
  split; [repeat split; assumption|].
  exact (proj2 (proj2 tags_never_span_lines) _ _ _ _ P Tx Ty Lx Ly).
Defined.

(** C10: for the empty string the engine returns [null], no line at all,
    and the empty string is the only such input: every other text gives at
    least one line. *)
Theorem only_empty_text_has_no_lines :
  renderFormattedText [] = None
  /\ lines_of (renderFormattedText []) = []
  /\ (forall text, text <> [] ->
       exists frag frags, renderFormattedText text = Some (frag :: frags))
  /\ (forall text, lines_of (renderFormattedText text) = [] -> text = []).
Proof.
  assert (NE : forall text, text <> [] ->
            exists frag frags, renderFormattedText text = Some (frag :: frags)).
  { intros [|c text] H; [congruence|].
    unfold renderFormattedText, mapi.
    pose proof (split_newline_not_nil (c :: text)) as N.
    destruct (split_newline (c :: text)) as [|l ls]; [congruence|].
    simpl. eexists. eexists. reflexivity. }
  repeat split; try exact NE.
  intros text H. destruct text as [|c text]; [reflexivity|].
  destruct (NE (c :: text)) as [frag [frags R]]; [discriminate|].
  rewrite R in H. discriminate.
Qed.

Lemma only_empty_text_has_no_lines_x :
  lit "x" <> []
  /\ exists frag frags, renderFormattedText (lit "x") = Some (frag :: frags).
Proof.
  assert (NE : lit "x" <> []) by discriminate.
  split; [exact NE|].
  exact (proj1 (proj2 (proj2 only_empty_text_has_no_lines)) _ NE).
Defined.

End MarkupProperties.

(** * Properties of the publishing workflow *)

Section WorkflowProperties.

Lemma api_app a b : api (a ++ b) = api a ++ api b.
Proof. apply filter_app. Qed.

Lemma calls_app a b : calls (a ++ b) = calls a ++ calls b.
Proof. apply flat_map_app. Qed.

Lemma progress_app a b : progress (a ++ b) = progress a ++ progress b.
Proof. apply flat_map_app. Qed.

Lemma fetches_app a b : fetches (a ++ b) = fetches a ++ fetches b.
Proof. apply filter_app. Qed.

Lemma clean_nil : clean [].
Proof. intros e []. Qed.

Lemma clean_app a b : clean a -> clean b -> clean (a ++ b).
Proof. intros Ha Hb e H. apply in_app_or in H as [H | H]; auto. Qed.

Lemma clean_cons e tr : remote_error e = None -> clean tr -> clean (e :: tr).
Proof. intros He Ht x [<- | H]; auto. Qed.

Lemma error_discipline_app {A : Type} (out : Outcome A) a b :
  clean a -> error_discipline out b -> error_discipline out (a ++ b).
Proof.
  intros Ha. destruct out as [x | e]; simpl.
  - apply clean_app, Ha.
  - intros [Hb | [low [url [d [err [-> [Hl [Hd He]]]]]]]].
    + left. apply clean_app; assumption.
    + right. exists (a ++ low), url, d, err.
      rewrite app_assoc. repeat split; try assumption.
      apply clean_app; assumption.
Qed.

(** ** Rules for [emits] *)

Lemma emits_ret {A : Type} (a : A) (Q : Outcome A -> Trace -> Prop) :
  Q (Fulfilled a) [] -> emits (ret a) Q.
Proof. intros H tr. exists (Fulfilled a), []. rewrite app_nil_r. split; [reflexivity | exact H]. Qed.

Lemma emits_emit (e : Event) (Q : Outcome unit -> Trace -> Prop) :
  Q (Fulfilled tt) [e] -> emits (emit e) Q.
Proof. intros H tr. exists (Fulfilled tt), [e]. split; [reflexivity | exact H]. Qed.

Lemma emits_bind {A B : Type} (m : Async A) (k : A -> Async B)
    (P : Outcome A -> Trace -> Prop) (Q : Outcome B -> Trace -> Prop) :
  emits m P ->
  (forall a evs, P (Fulfilled a) evs -> emits (k a) (fun out evs' => Q out (evs ++ evs'))) ->
  (forall e evs, P (Rejected e) evs -> Q (Rejected e) evs) ->
  emits (bind m k) Q.
Proof.
  intros Hm Hk He tr. unfold bind.
  destruct (Hm tr) as [out [evs [-> HP]]]. destruct out as [a | e].
  - destruct (Hk a evs HP (tr ++ evs)) as [out' [evs' [-> HQ]]].
    exists out', (evs ++ evs'). rewrite app_assoc. split; [reflexivity | exact HQ].
  - exists (Rejected e), evs. split; [reflexivity | apply He, HP].
Qed.

Lemma emits_try_catch {A : Type} (body : Async A) (handler : Exn -> Async A)
    (P Q : Outcome A -> Trace -> Prop) :
  emits body P ->
  (forall a evs, P (Fulfilled a) evs -> Q (Fulfilled a) evs) ->
  (forall e evs, P (Rejected e) evs -> emits (handler e) (fun out evs' => Q out (evs ++ evs'))) ->
  emits (try_catch body handler) Q.
Proof.
  intros Hm Ha He tr. unfold try_catch.
  destruct (Hm tr) as [out [evs [-> HP]]]. destruct out as [a | e].
  - exists (Fulfilled a), evs. split; [reflexivity | apply Ha, HP].
  - destruct (He e evs HP (tr ++ evs)) as [out' [evs' [-> HQ]]].
    exists out', (evs ++ evs'). rewrite app_assoc. split; [reflexivity | exact HQ].
Qed.

Lemma emits_weaken {A : Type} (m : Async A) (P Q : Outcome A -> Trace -> Prop) :
  emits m P -> (forall out evs, P out evs -> Q out evs) -> emits m Q.
Proof.
  intros Hm H tr. destruct (Hm tr) as [out [evs [E HP]]].
  exists out, evs. split; [exact E | apply H, HP].
Qed.

(** The events of a run are determined by the run. *)
Lemma emits_run {A : Type} (m : Async A) (Q : Outcome A -> Trace -> Prop) tr out tr' :
  emits m Q -> m tr = (out, tr') -> exists evs, tr' = tr ++ evs /\ Q out evs.
Proof.
  intros Hm E. destruct (Hm tr) as [out' [evs [E' HQ]]].
  rewrite E in E'. injection E' as -> ->. exists evs. split; [reflexivity | exact HQ].
Qed.

(** ** The service functions *)

Lemma clean_Forall evs : Forall (fun e => remote_error e = None) evs -> clean evs.
Proof. intros H e He. rewrite Forall_forall in H. apply H, He. Qed.

Ltac run_service :=
  intros tr;
  unfold createItemContainer, createCarouselContainer, publishMedia,
    uploadImageToPublicServer, traced, encodeURIComponent', fetchJson,
    consoleLog, setTimeout, dateNow, mathRandom, bind, emit, ret, throw;
  cbv beta iota;
  repeat (match goal with
          | |- context [encodeURIComponent ?s] =>
              destruct (encodeURIComponent s) eqn:?
          | |- context [jseqb ?a ?b] => destruct (jseqb a b) eqn:?
          | |- context [http_post ?e ?t ?u] => destruct (http_post e t u) eqn:?
          | |- context [data_error ?d] => destruct (data_error d) eqn:?
          | |- context [if ?b then _ else _] => is_var b; destruct b
          end; cbv beta iota);
  do 2 eexists; (split; [rewrite <- ?app_assoc; reflexivity |]).

Ltac solve_clean :=
  apply clean_Forall; repeat constructor; cbn [remote_error];
  match goal with
  | H : data_error _ = None |- _ => rewrite H; reflexivity
  end.

Ltac solve_discipline :=
  cbn [error_discipline];
  first
    [ solve_clean
    | left; solve_clean
    | right;
      match goal with
      | H : data_error ?d = Some ?err |- context [Fetch ?url (Json ?d)] =>
          eexists; exists url, d, err;
          split; [| split; [| split; [exact H | reflexivity]]];
          [reflexivity | solve_clean]
      end ].

Ltac solve_service_post :=
  unfold service_post, simulated;
  split; [reflexivity | split; [reflexivity | split; [solve_discipline |]]];
  try (intros; first [reflexivity | congruence]).

Lemma publishMedia_emits env userId creationId token :
  emits (publishMedia env userId creationId token)
    (fun out evs =>
       service_post (PublishMedia userId creationId token) userId out evs
       /\ (simulated userId = true ->
           exists now, out = Fulfilled (mkData None (lit "published_media_" ++ lit now)))).
Proof.
  run_service; (split; [solve_service_post |]); unfold simulated; intros; try congruence.
  eexists. reflexivity.
Qed.

Lemma createCarouselContainer_emits env userId childrenIds token caption :
  emits (createCarouselContainer env userId childrenIds token caption)
    (fun out evs =>
       service_post (CreateCarouselContainer userId childrenIds token caption) userId out evs
       /\ (forall d, out = Fulfilled d -> encodable caption = true)
       /\ (simulated userId = true -> encodable caption = true ->
           exists now, out = Fulfilled (mkData None (lit "carousel_container_" ++ lit now)))).
Proof.
  run_service; (split; [solve_service_post | split]);
    unfold simulated, encodable; intros;
    repeat match goal with
           | H : encodeURIComponent _ = _ |- _ => rewrite H in *
           end;
    try congruence.
  eexists. reflexivity.
Qed.

Lemma createItemContainer_emits env userId imageUrl token caption isCarouselItem :
  emits (createItemContainer env userId imageUrl token caption isCarouselItem)
    (fun out evs =>
       service_post (CreateItemContainer userId imageUrl token caption isCarouselItem)
         userId out evs
       /\ (forall d, out = Fulfilled d -> isCarouselItem = false -> encodable caption = true)
       /\ (simulated userId = true -> encodable imageUrl = true ->
           isCarouselItem = true \/ encodable caption = true ->
           exists now r,
             out = Fulfilled (mkData None (lit "item_container_" ++ lit now ++ lit "_" ++ lit r)))).
Proof.
  run_service; (split; [solve_service_post | split]);
    unfold simulated, encodable; intros;
    repeat match goal with
           | H : encodeURIComponent _ = _ |- _ => rewrite H in *
           | H : _ \/ _ |- _ => destruct H
           end;
    try congruence;
    do 2 eexists; reflexivity.
Qed.

Lemma uploadImageToPublicServer_emits env blob :
  emits (uploadImageToPublicServer env blob)
    (fun out evs =>
       exists r, out = Fulfilled (upload_url r)
         /\ api evs = [Called (UploadImageToPublicServer blob);
                       Returned (VString (upload_url r))]
         /\ progress evs = [] /\ clean evs /\ fetches evs = []).
Proof.
  run_service. eexists. split; [reflexivity|].
  repeat split. solve_clean.
Qed.

(** Text written with characters below U+0100 can always be encoded. *)
Lemma encodable_narrow s :
  Forall (fun c => (c < 55296)%N) s -> encodable s = true.
Proof.
  unfold encodable. induction 1 as [|c s Hc Hs IH]; [reflexivity|].
  cbn [encodeURIComponent].
  destruct (encodeURIComponent s); [|discriminate].
  destruct (is_unreserved c); [reflexivity|].
  assert (T : is_trailing_surrogate c = false).
  { unfold is_trailing_surrogate. apply andb_false_iff. left. apply N.leb_gt. lia. }
  assert (L : is_leading_surrogate c = false).
  { unfold is_leading_surrogate. apply andb_false_iff. left. apply N.leb_gt. lia. }
  rewrite T, L. reflexivity.
Qed.

Lemma lit_narrow s : Forall (fun c => (c < 55296)%N) (lit s).
Proof.
  unfold lit. apply Forall_forall. intros c H.
  apply in_map_iff in H as [a [<- _]].
  pose proof (N_ascii_bounded a). lia.
Qed.

Lemma upload_url_encodable r : encodable (upload_url r) = true.
Proof. apply encodable_narrow, Forall_app. split; apply lit_narrow. Qed.

(** ** The two loops *)

Lemma prefix_of_refl {A : Type} (a : list A) : prefix_of a a.
Proof. exists []. symmetry. apply app_nil_r. Qed.

Lemma prefix_of_app {A : Type} (a b c : list A) :
  prefix_of b c -> prefix_of (a ++ b) (a ++ c).
Proof. intros [rest ->]. exists rest. apply app_assoc. Qed.

Lemma prefix_of_start {A : Type} (a b : list A) : prefix_of a (a ++ b).
Proof. exists b. reflexivity. Qed.

Lemma notify_emits onProgress status :
  emits (notify onProgress status)
    (fun out evs => out = Fulfilled tt /\ evs = map Progress (told onProgress [status])).
Proof.
  intros tr. destruct onProgress; simpl.
  - exists (Fulfilled tt), [Progress status]. repeat split.
  - exists (Fulfilled tt), []. rewrite app_nil_r. repeat split.
Qed.

Lemma told_app onProgress a b :
  told onProgress (a ++ b) = told onProgress a ++ told onProgress b.
Proof. destruct onProgress; reflexivity. Qed.

Lemma api_statuses l : api (map Progress l) = [].
Proof. induction l; [reflexivity | exact IHl]. Qed.

Lemma calls_statuses l : calls (map Progress l) = [].
Proof. induction l; [reflexivity | exact IHl]. Qed.

Lemma fetches_statuses l : fetches (map Progress l) = [].
Proof. induction l; [reflexivity | exact IHl]. Qed.

Lemma progress_statuses l : progress (map Progress l) = l.
Proof. induction l; [reflexivity | simpl; rewrite IHl; reflexivity]. Qed.

Lemma clean_statuses l : clean (map Progress l).
Proof. intros e H. apply in_map_iff in H as [s [<- _]]. reflexivity. Qed.

Lemma calls_api tr : calls (api tr) = calls tr.
Proof.
  induction tr as [|e tr IH]; [reflexivity|].
  destruct e; simpl; rewrite ?IH; reflexivity.
Qed.

Lemma upload_loop_emits env onProgress total blobs :
  forall i imageUrls,
  emits (upload_loop env onProgress total i blobs imageUrls)
    (fun out evs =>
       exists rs, length rs = length blobs
         /\ out = Fulfilled (imageUrls ++ map upload_url rs)
         /\ api evs = upload_calls blobs (map upload_url rs)
         /\ progress evs = told onProgress (map (upload_status total) (seq i (length blobs)))
         /\ clean evs /\ fetches evs = []).
Proof.
  induction blobs as [|blob blobs IH]; intros i imageUrls.
  - apply emits_ret. exists []. rewrite app_nil_r.
    repeat split; [destruct onProgress; reflexivity | apply clean_nil].
  - cbn [upload_loop].
    eapply emits_bind; [apply notify_emits | | intros e evs [[=] _]].
    intros [] evs0 [_ ->].
    eapply emits_bind; [apply uploadImageToPublicServer_emits | | intros e evs [r [[=] _]]].
    intros url evs1 [r [[= ->] [A1 [P1 [C1 F1]]]]].
    eapply emits_weaken; [apply (IH (S i) (imageUrls ++ [upload_url r]))|].
    intros out evs2 [rs [L [-> [A2 [P2 [C2 F2]]]]]].
    exists (r :: rs). split; [simpl; congruence|].
    rewrite <- app_assoc. split; [reflexivity|].
    rewrite !api_app, !progress_app, !fetches_app.
    rewrite api_statuses, progress_statuses, fetches_statuses, A1, P1, F1, A2, P2, F2.
    repeat split.
    + destruct onProgress; reflexivity.
    + repeat apply clean_app; try assumption. apply clean_statuses.
Qed.

Lemma item_loop_emits env onProgress user (urls : list jsstring) :
  forall i itemContainers,
  emits (item_loop env onProgress user i urls itemContainers)
    (fun out evs =>
       error_discipline out evs
       /\ (simulated (user_id user) = true -> fetches evs = [])
       /\ (simulated (user_id user) = true ->
           Forall (fun url => encodable url = true) urls ->
           exists ids, out = Fulfilled ids)
       /\ (forall ids, out = Fulfilled ids ->
           exists items, length items = length urls
             /\ ids = itemContainers ++ map data_id items
             /\ api evs = item_calls user urls items
             /\ progress evs = told onProgress (map item_status (seq i (length urls))))
       /\ prefix_of (progress evs)
            (told onProgress (map item_status (seq i (length urls))))).
Proof.
  induction urls as [|url urls IH]; intros i itemContainers.
  - apply emits_ret. split; [|split; [|split; [|split]]].
    + apply clean_nil.
    + reflexivity.
    + intros. eexists. reflexivity.
    + intros ids [= <-]. exists []. rewrite app_nil_r.
      repeat split. destruct onProgress; reflexivity.
    + exists []. destruct onProgress; reflexivity.
  - cbn [item_loop].
    eapply emits_bind; [apply notify_emits | | intros e evs [[=] _]].
    intros [] evs0 [_ ->].
    eapply emits_bind; [apply createItemContainer_emits | |].
    + intros container evs1 [[A1 [P1 [D1 F1]]] [_ S1]].
      eapply emits_weaken; [apply (IH (S i) (itemContainers ++ [data_id container]))|].
      intros out evs2 [D2 [F2 [S2 [R2 X2]]]].
      split; [|split; [|split; [|split]]].
      * repeat apply error_discipline_app; try assumption. apply clean_statuses.
      * intros M. rewrite !fetches_app, fetches_statuses, (F1 M), (F2 M). reflexivity.
      * intros M E. inversion E; subst. apply S2; assumption.
      * intros ids Hids. destruct (R2 ids Hids) as [items [L [-> [A2 P2]]]].
        exists (container :: items). split; [simpl; congruence|].
        rewrite <- app_assoc. split; [reflexivity|].
        rewrite !api_app, !progress_app, api_statuses, progress_statuses, A1, P1, A2, P2.
        split; [reflexivity|]. destruct onProgress; reflexivity.
      * rewrite !progress_app, progress_statuses, P1. cbn [length seq map app].
        change (item_status i :: map item_status (seq (S i) (length urls)))
          with ([item_status i] ++ map item_status (seq (S i) (length urls))).
        rewrite told_app. apply prefix_of_app. exact X2.
    + intros e evs1 [[A1 [P1 [D1 F1]]] [_ S1]].
      split; [|split; [|split; [|split]]].
      * apply error_discipline_app; [apply clean_statuses | exact D1].
      * intros M. rewrite fetches_app, fetches_statuses, (F1 M). reflexivity.
      * intros M E. inversion E; subst.
        destruct S1 as [now [r [=]]]; auto.
      * intros ids [=].
      * rewrite progress_app, progress_statuses, P1, app_nil_r. cbn [length seq map].
        change (item_status i :: map item_status (seq (S i) (length urls)))
          with ([item_status i] ++ map item_status (seq (S i) (length urls))).
        rewrite told_app. apply prefix_of_start.
Qed.

(** ** Container creation *)

Lemma calls_service c userId out evs :
  service_post c userId out evs -> calls evs = [c].
Proof.
  intros [A _]. rewrite <- calls_api, A. destruct out; reflexivity.
Qed.

Lemma single_container_emits env user caption onProgress (urls : list jsstring) :
  length urls = 1 ->
  emits (notify onProgress (lit "Creating media container...") ;;
         container <- createItemContainer env (user_id user) (nth 0 urls [])
                        (accessToken user) caption false ;;
         ret (data_id container))
    (container_post user caption onProgress urls).
Proof.
  intros L1.
  eapply emits_bind; [apply notify_emits | | intros e evs [[=] _]].
  intros [] evs0 [_ ->].
  eapply emits_bind; [apply createItemContainer_emits | |].
  - intros container evs1 [SP [G1 S1]]. apply emits_ret. rewrite app_nil_r.
    pose proof (calls_service SP) as CS. destruct SP as [A1 [P1 [D1 F1]]].
    assert (PS : progress (map Progress (told onProgress [lit "Creating media container..."])
                           ++ evs1)
                 = told onProgress (container_statuses (length urls))).
    { rewrite progress_app, progress_statuses, P1, app_nil_r.
      unfold container_statuses. rewrite L1. reflexivity. }
    split; [|split; [|split; [|split; [|split]]]].
    + apply error_discipline_app; [apply clean_statuses | exact D1].
    + intros M. rewrite fetches_app, fetches_statuses, (F1 M). reflexivity.
    + intros. eexists. reflexivity.
    + intros id [= <-]. split; [apply (G1 container); reflexivity|].
      split; [exact PS|].
      rewrite api_app, api_statuses, A1.
      unfold container_calls. rewrite L1.
      exists container. split; reflexivity.
    + intros _ c. rewrite calls_app, calls_statuses, CS.
      intros [<- | []]. reflexivity.
    + rewrite PS. apply prefix_of_refl.
  - intros e evs1 [SP [G1 S1]].
    pose proof (calls_service SP) as CS. destruct SP as [A1 [P1 [D1 F1]]].
    split; [|split; [|split; [|split; [|split]]]].
    + apply error_discipline_app; [apply clean_statuses | exact D1].
    + intros M. rewrite fetches_app, fetches_statuses, (F1 M). reflexivity.
    + intros M E Ec. destruct S1 as [now [r [=]]]; auto.
      destruct urls as [|u [|]]; try discriminate. inversion E; assumption.
    + intros id [=].
    + intros _ c. rewrite calls_app, calls_statuses, CS.
      intros [<- | []]. reflexivity.
    + rewrite progress_app, progress_statuses, P1, app_nil_r.
      unfold container_statuses. rewrite L1. apply prefix_of_refl.
Qed.

Lemma carousel_containers_emits env user caption onProgress (urls : list jsstring) :
  length urls <> 1 ->
  emits (itemContainers <- item_loop env onProgress user 0 urls [] ;;
         notify onProgress (lit "Creating carousel object...") ;;
         carouselContainer <- createCarouselContainer env (user_id user) itemContainers
                                (accessToken user) caption ;;
         ret (data_id carouselContainer))
    (container_post user caption onProgress urls).
Proof.
  intros L1.
  eapply emits_bind; [apply item_loop_emits | |].
  - intros ids evsI [DI [FI [SI [RI XI]]]].
    destruct (RI ids eq_refl) as [items [L [-> [AI PI]]]]. simpl app.
    eapply emits_bind; [apply notify_emits | | intros e evs [[=] _]].
    intros [] evs0 [_ ->].
    assert (PS : forall evsC, progress evsC = [] ->
              progress (evsI ++ map Progress (told onProgress [lit "Creating carousel object..."])
                        ++ evsC)
              = told onProgress (container_statuses (length urls))).
    { intros evsC PC. rewrite !progress_app, progress_statuses, PI, PC, app_nil_r.
      unfold container_statuses.
      apply Nat.eqb_neq in L1. rewrite L1, <- told_app. reflexivity. }
    eapply emits_bind; [apply createCarouselContainer_emits | |].
    + intros root evsC [[AC [PC [DC FC]]] [GC SC]]. apply emits_ret. rewrite app_nil_r.
      split; [|split; [|split; [|split; [|split]]]].
      * repeat apply error_discipline_app; try assumption. apply clean_statuses.
      * intros M. rewrite !fetches_app, fetches_statuses, (FI M), (FC M). reflexivity.
      * intros. eexists. reflexivity.
      * intros id [= <-]. split; [apply (GC root); reflexivity|].
        split; [exact (PS _ PC)|].
        rewrite !api_app, api_statuses, AI, AC.
        unfold container_calls.
        apply Nat.eqb_neq in L1. rewrite L1.
        exists items, root. repeat split. exact L.
      * intros E. congruence.
      * rewrite (PS _ PC). apply prefix_of_refl.
    + intros e evsC [[AC [PC [DC FC]]] [GC SC]].
      split; [|split; [|split; [|split; [|split]]]].
      * repeat apply error_discipline_app; try assumption. apply clean_statuses.
      * intros M. rewrite !fetches_app, fetches_statuses, (FI M), (FC M). reflexivity.
      * intros M E Ec. destruct (SC M Ec) as [now [=]].
      * intros id [=].
      * intros E. congruence.
      * rewrite (PS _ PC). apply prefix_of_refl.
  - intros e evsI [DI [FI [SI [RI XI]]]].
    split; [|split; [|split; [|split; [|split]]]].
    + exact DI.
    + exact FI.
    + intros M E Ec. destruct (SI M E) as [ids [=]].
    + intros id [=].
    + intros E. congruence.
    + destruct XI as [rest XI]. unfold container_statuses.
      apply Nat.eqb_neq in L1. rewrite L1, told_app, XI, <- app_assoc.
      apply prefix_of_start.
Qed.

(** ** The whole run *)

Lemma upload_calls_no_carousel blobs urls c :
  In c (calls (upload_calls blobs urls)) -> is_carousel_call c = false.
Proof.
  unfold upload_calls. revert urls.
  induction blobs as [|b blobs IH]; intros [|u urls]; simpl; try tauto.
  intros [<- | H]; [reflexivity | eauto].
Qed.

Lemma container_step_emits env user caption onProgress (urls : list jsstring) :
  emits (if length urls =? 1 then
           notify onProgress (lit "Creating media container...") ;;
           container <- createItemContainer env (user_id user) (nth 0 urls [])
                          (accessToken user) caption false ;;
           ret (data_id container)
         else
           itemContainers <- item_loop env onProgress user 0 urls [] ;;
           notify onProgress (lit "Creating carousel object...") ;;
           carouselContainer <- createCarouselContainer env (user_id user) itemContainers
                                  (accessToken user) caption ;;
           ret (data_id carouselContainer))
    (container_post user caption onProgress urls).
Proof.
  destruct (length urls =? 1) eqn:E.
  - apply single_container_emits, Nat.eqb_eq, E.
  - apply carousel_containers_emits, Nat.eqb_neq, E.
Qed.

Lemma run_body_emits env user blobs caption onProgress :
  emits (imageUrls <- upload_loop env onProgress (length blobs) 0 blobs [] ;;
         creationId <-
           (if length imageUrls =? 1 then
              notify onProgress (lit "Creating media container...") ;;
              container <- createItemContainer env (user_id user) (nth 0 imageUrls [])
                             (accessToken user) caption false ;;
              ret (data_id container)
            else
              itemContainers <- item_loop env onProgress user 0 imageUrls [] ;;
              notify onProgress (lit "Creating carousel object...") ;;
              carouselContainer <- createCarouselContainer env (user_id user) itemContainers
                                     (accessToken user) caption ;;
              ret (data_id carouselContainer)) ;;
         notify onProgress (lit "Finalizing publication...") ;;
         result <- publishMedia env (user_id user) creationId (accessToken user) ;;
         ret result)
    (run_post user blobs caption onProgress).
Proof.
  eapply emits_bind;
    [apply upload_loop_emits | | intros e evs [rs [_ [[=] _]]]].
  intros imageUrls evsU [rs [L [[= ->] [AU [PU [CU FU]]]]]]. simpl app.
  assert (LU : length (map upload_url rs) = length blobs)
    by (rewrite length_map; exact L).
  assert (EU : Forall (fun url => encodable url = true) (map upload_url rs)).
  { apply Forall_forall. intros u H. apply in_map_iff in H as [r [<- _]].
    apply upload_url_encodable. }
  assert (NU : forall c, In c (calls evsU) -> is_carousel_call c = false).
  { intros c. rewrite <- calls_api, AU. apply upload_calls_no_carousel. }
  eapply emits_bind; [apply container_step_emits | |].
  - intros id evsC [DC [FC [SC [RC [NC XC]]]]].
    destruct (RC id eq_refl) as [GC [PC AC]].
    eapply emits_bind; [apply notify_emits | | intros e evs [[=] _]].
    intros [] evs0 [_ ->].
    assert (PS : forall evsP, progress evsP = [] ->
              progress (evsU ++ evsC
                        ++ map Progress (told onProgress [lit "Finalizing publication..."])
                        ++ evsP)
              = expected_progress onProgress (length blobs)).
    { intros evsP PP. rewrite !progress_app, progress_statuses, PU, PC, PP, LU, app_nil_r.
      unfold expected_progress. rewrite !told_app. reflexivity. }
    eapply emits_bind; [apply publishMedia_emits | |].
    + intros result evsP [SP S1]. apply emits_ret. rewrite app_nil_r.
      pose proof (calls_service SP) as CS. destruct SP as [AP [PP [DP FP]]].
      split; [|split; [|split; [|split; [|split]]]].
      * repeat apply error_discipline_app; try assumption. apply clean_statuses.
      * intros M. rewrite !fetches_app, fetches_statuses, FU, (FC M), (FP M). reflexivity.
      * exact (fun M _ => S1 M).
      * intros r [= <-]. split; [exact GC|]. split.
        -- exact (PS _ PP).
        -- exists rs, id, (api evsC). split; [exact L|]. split; [exact AC|].
           rewrite !api_app, api_statuses, AU, AP. reflexivity.
      * intros L1 c. rewrite !calls_app, calls_statuses, CS, !in_app_iff.
        intros [H | [H | [[] | [<- | []]]]]; [auto | | reflexivity].
        apply NC; [congruence | exact H].
      * rewrite (PS _ PP). apply prefix_of_refl.
    + intros e evsP [SP S1].
      pose proof (calls_service SP) as CS. destruct SP as [AP [PP [DP FP]]].
      split; [|split; [|split; [|split; [|split]]]].
      * repeat apply error_discipline_app; try assumption. apply clean_statuses.
      * intros M. rewrite !fetches_app, fetches_statuses, FU, (FC M), (FP M). reflexivity.
      * intros M _. destruct (S1 M) as [now [=]].
      * intros r [=].
      * intros L1 c. rewrite !calls_app, calls_statuses, CS, !in_app_iff.
        intros [H | [H | [[] | [<- | []]]]]; [auto | | reflexivity].
        apply NC; [congruence | exact H].
      * rewrite (PS _ PP). apply prefix_of_refl.
  - intros e evsC [DC [FC [SC [RC [NC XC]]]]].
    split; [|split; [|split; [|split; [|split]]]].
    + apply error_discipline_app; assumption.
    + intros M. rewrite fetches_app, FU, (FC M). reflexivity.
    + intros M Ec. destruct (SC M EU Ec) as [id [=]].
    + intros r [=].
    + intros L1 c. rewrite calls_app. intros H.
      apply in_app_or in H as [H | H]; auto.
      apply NC; [congruence | exact H].
    + destruct XC as [rest XC]. rewrite LU in XC.
      rewrite progress_app, PU. unfold expected_progress.
      rewrite !told_app, XC, <- !app_assoc.
      apply prefix_of_app, prefix_of_start.
Qed.

Lemma publishCarouselToInstagram_emits env user blobs caption onProgress :
  emits (publishCarouselToInstagram env user blobs caption onProgress)
    (fun out evs =>
       exists evs0, evs = logged out evs0 /\ run_post user blobs caption onProgress out evs0).
Proof.
  unfold publishCarouselToInstagram.
  eapply emits_try_catch; [apply run_body_emits | |].
  - intros result evs H. exists evs. split; [reflexivity | exact H].
  - intros e evs H.
    eapply emits_bind with (P := fun out evs' => out = Fulfilled tt /\ evs' = [failure_log e]).
    + apply emits_emit. split; reflexivity.
    + intros [] evs1 [_ ->] tr. exists (Rejected e), [].
      rewrite app_nil_r. split; [reflexivity|].
      exists evs. split; [reflexivity | exact H].
    + intros e' evs1 [[=] _].
Qed.

Lemma publish_run env user blobs caption onProgress out tr :
  publishCarouselToInstagram env user blobs caption onProgress [] = (out, tr) ->
  exists evs0, tr = logged out evs0 /\ run_post user blobs caption onProgress out evs0.
Proof.
  intros R.
  eapply emits_run in R; [|apply publishCarouselToInstagram_emits].
  destruct R as [evs [-> H]]. exact H.
Qed.

Lemma calls_upload_calls blobs (urls : list jsstring) :
  length urls = length blobs ->
  calls (upload_calls blobs urls) = map UploadImageToPublicServer blobs.
Proof.
  unfold upload_calls. revert urls.
  induction blobs as [|b blobs IH]; intros [|u urls]; simpl; try discriminate;
    [reflexivity|].
  intros [= L]. rewrite IH by exact L. reflexivity.
Qed.

Lemma calls_item_calls user (urls : list jsstring) items :
  length items = length urls ->
  calls (item_calls user urls items)
  = map (fun url => CreateItemContainer (user_id user) url (accessToken user) [] true) urls.
Proof.
  unfold item_calls. revert items.
  induction urls as [|u urls IH]; intros [|d items]; simpl; try discriminate;
    [reflexivity|].
  intros [= L]. rewrite IH by exact L. reflexivity.
Qed.

(** A remote error in a trace that has only one, at the end of its first
    part, is that one. *)
Lemma remote_error_position (pre post low rest : Trace) x y :
  pre ++ x :: post = low ++ y :: rest ->
  remote_error x <> None -> clean low -> clean rest ->
  pre = low /\ x = y /\ post = rest.
Proof.
  revert low. induction pre as [|p pre IH]; intros [|z low] E Hx Hl Hr; simpl in E.
  - injection E as -> ->. repeat split.
  - injection E as -> _. exfalso. apply Hx, Hl. left. reflexivity.
  - injection E as -> <-. exfalso. apply Hx, Hr, in_elt.
  - injection E as -> E.
    destruct (IH low E Hx) as [-> [-> ->]]; [|exact Hr|repeat split].
    intros e He. apply Hl. right. exact He.
Qed.

(** ** The specified behaviour of the workflow *)

(** C3: when a remote call of a run answers with an error payload, the
    run is rejected with an error whose message is exactly the payload's
    message, and nothing happens after that call but the logging of the
    failure: no upload, no container creation, no publish call, no status
    message and no further network call. *)
Theorem remote_error_ends_run env user blobs caption onProgress out tr
    pre url data err post :
  publishCarouselToInstagram env user blobs caption onProgress [] = (out, tr) ->
  tr = pre ++ Fetch url (Json data) :: post ->
  data_error data = Some err ->
  out = Rejected (Error (error_message err))
  /\ post = [failure_log (Error (error_message err))].
Proof.
  intros R Etr Herr. destruct (publish_run _ _ _ _ _ R) as [evs0 [E' H]].
  destruct H as [D _]. subst tr.
  assert (Hx : remote_error (Fetch url (Json data)) <> None)
    by (simpl; rewrite Herr; discriminate).
  assert (Dirty : forall evs, clean evs -> pre ++ Fetch url (Json data) :: post = evs -> False).
  { intros evs C <-. apply Hx, C, in_elt. }
  destruct out as [result | e]; simpl in D, E'.
  - exfalso. exact (Dirty _ D E').
  - destruct D as [C | [low [u [d [err' [-> [Cl [Hd ->]]]]]]]].
    + exfalso. apply (Dirty (evs0 ++ [failure_log e])); [|exact E'].
      apply clean_app; [exact C|]. intros x [<- | []]. reflexivity.
    + rewrite <- app_assoc in E'. simpl in E'.
      apply remote_error_position in E' as [_ [[= _ ->] ->]]; try assumption.
      * rewrite Herr in Hd. injection Hd as <-. split; reflexivity.
      * intros x [<- | []]. reflexivity.
Qed.

Lemma remote_error_ends_run_refused :
  exists pre url,
    snd (publishCarouselToInstagram refusing_env connected_user [slide 1; slide 2]
           (lit "Two slides") true [])
    = pre ++ Fetch url (Json (mkData (Some (mkError (lit "Invalid OAuth access token."))) []))
          :: [failure_log (Error (lit "Invalid OAuth access token."))]
    /\ length (calls pre) = 3
    /\ fst (publishCarouselToInstagram refusing_env connected_user [slide 1; slide 2]
              (lit "Two slides") true [])
       = Rejected (Error (lit "Invalid OAuth access token.")).
Proof.
  pose (run := publishCarouselToInstagram refusing_env connected_user [slide 1; slide 2]
                 (lit "Two slides") true []).
  pose (n := length (snd run) - 2).
  exists (firstn n (snd run)).
  exists (match nth n (snd run) (Timeout 0) with Fetch u _ => u | _ => [] end).
  assert (T : snd run
              = firstn n (snd run)
                ++ Fetch (match nth n (snd run) (Timeout 0) with Fetch u _ => u | _ => [] end)
                     (Json (mkData (Some (mkError (lit "Invalid OAuth access token."))) []))
                   :: [failure_log (Error (lit "Invalid OAuth access token."))])
    by (vm_compute; reflexivity).
  split; [exact T|]. split; [vm_compute; reflexivity|].
  exact (proj1 (@remote_error_ends_run refusing_env connected_user [slide 1; slide 2]
                  (lit "Two slides") true _ _ _ _ _ _ _
                  (surjective_pairing run) T eq_refl)).
Defined.

Lemma simulated_sentinel userId : userId = MOCK_USER_ID -> simulated userId = true.
Proof. intros ->. apply jseqb_eq. reflexivity. Qed.

Lemma progress_logged out evs : progress (logged out evs) = progress evs.
Proof. destruct out; simpl; [reflexivity|]. rewrite progress_app. apply app_nil_r. Qed.

Lemma fetches_logged out evs : fetches (logged out evs) = fetches evs.
Proof. destruct out; simpl; [reflexivity|]. rewrite fetches_app. apply app_nil_r. Qed.

Lemma api_logged out evs : api (logged out evs) = api evs.
Proof. destruct out; simpl; [reflexivity|]. rewrite api_app. apply app_nil_r. Qed.



Lemma empty_run_emits env user caption onProgress :
  emits (publishCarouselToInstagram env user [] caption onProgress)
    (fun out evs => empty_run_calls user caption out (api evs)).
Proof.
  unfold publishCarouselToInstagram.
  pose (carousel := CreateCarouselContainer (user_id user) [] (accessToken user) caption).
  eapply emits_try_catch with
    (P := fun out evs => empty_run_calls user caption out (api evs)).
  - cbn [upload_loop length].
    eapply emits_bind with (P := fun out evs => out = Fulfilled [] /\ evs = []);
      [apply emits_ret; split; reflexivity | | intros e evs [[=] _]].
    intros imageUrls evs [[= ->] ->]. cbn [length Nat.eqb item_loop app].
    eapply emits_bind with
      (P := fun out evs =>
              match out with
              | Fulfilled id =>
                  exists root, id = data_id root
                    /\ api evs = [Called carousel; Returned (VData root)]
              | Rejected _ => api evs = [Called carousel]
              end).
    + eapply emits_bind with (P := fun out evs => out = Fulfilled [] /\ evs = []);
        [apply emits_ret; split; reflexivity | | intros e evs [[=] _]].
      intros ids evs [[= ->] ->]. cbn [app].
      eapply emits_bind; [apply notify_emits | | intros e evs [[=] _]].
      intros [] evs0 [_ ->].
      eapply emits_bind; [apply createCarouselContainer_emits | |].
      * intros root evsC [[AC _] _]. apply emits_ret. exists root.
        rewrite app_nil_r, api_app, api_statuses, AC. split; reflexivity.
      * intros e evsC [[AC _] _]. rewrite api_app, api_statuses, AC. reflexivity.
    + intros id evsC [root [-> AC]].
      eapply emits_bind; [apply notify_emits | | intros e evs [[=] _]].
      intros [] evs0 [_ ->].
      eapply emits_bind; [apply publishMedia_emits | |].
      * intros result evsP [[AP _] _]. apply emits_ret. right. right.
        exists root, result.
        rewrite app_nil_r, !api_app, api_statuses, AC, AP. split; reflexivity.
      * intros e evsP [[AP _] _]. right. left. exists root, e.
        rewrite !api_app, api_statuses, AC, AP. split; reflexivity.
    + intros e evsC AC. left. exists e. split; [reflexivity | exact AC].
  - intros result evs H. exact H.
  - intros e evs H.
    eapply emits_bind with (P := fun out evs' => out = Fulfilled tt /\ evs' = [failure_log e]).
    + apply emits_emit. split; reflexivity.
    + intros [] evs1 [_ ->] tr. exists (Rejected e), [].
      rewrite app_nil_r. split; [reflexivity|].
      rewrite api_app, app_nil_r.
      destruct H as [[e' [[= <-] A]] | [[root [e' [[= <-] A]]] | [root [result [[=] _]]]]].
      * left. exists e. split; [reflexivity | exact A].
      * right. left. exists root, e. split; [reflexivity | exact A].
    + intros e' evs1 [[=] _].
Qed.

(** C8, as stated, fails: with an empty asset list and the sentinel account
    the run ends in success and a finalize call is made; with a connected
    account whose Graph API accepts the calls it is no different, and two
    network calls are issued. *)
Lemma empty_asset_list_is_published :
  publishCarouselToInstagram accepting_env demo_user [] (lit "Launch day") true []
  = (Fulfilled (mkData None (lit "published_media_1700000000000")),
     snd (publishCarouselToInstagram accepting_env demo_user [] (lit "Launch day") true []))
  /\ calls (snd (publishCarouselToInstagram accepting_env demo_user []
                   (lit "Launch day") true []))
     = [CreateCarouselContainer MOCK_USER_ID [] (lit "mock_token_123") (lit "Launch day");
        PublishMedia MOCK_USER_ID (lit "carousel_container_1700000000000")
          (lit "mock_token_123")]
  /\ fst (publishCarouselToInstagram accepting_env connected_user []
            (lit "Launch day") true [])
     = Fulfilled (mkData None (lit "17841400"))
  /\ length (fetches (snd (publishCarouselToInstagram accepting_env connected_user []
                             (lit "Launch day") true []))) = 2.
Proof. repeat split; vm_compute; reflexivity. Qed.

(** C8, amended: with an empty asset list the run does not fail by itself.
    It makes no upload call and no item-container call; it makes the
    carousel-root call with an empty children list and, when that call
    returns, the finalize call on the returned id, and it ends in failure
    exactly when one of these two calls throws.  For the sentinel account
    and a caption that can be encoded it ends in success with a made-up
    published-media id, without any network call. *)
Theorem empty_asset_list_run env user caption onProgress out tr :
  publishCarouselToInstagram env user [] caption onProgress [] = (out, tr) ->
  empty_run_calls user caption out (api tr)
  /\ (user_id user = MOCK_USER_ID -> encodable caption = true ->
      fetches tr = []
      /\ exists now, out = Fulfilled (mkData None (lit "published_media_" ++ lit now))).
Proof.
  intros R. split.
  - eapply emits_run in R; [|apply empty_run_emits].
    destruct R as [evs [-> H]]. exact H.
  - intros M Ec. apply simulated_sentinel in M.
    destruct (publish_run _ _ _ _ _ R) as [evs0 [-> [_ [F [S _]]]]].
    rewrite fetches_logged. split; [exact (F M) | exact (S M Ec)].
Qed.

Lemma empty_asset_list_run_demo :
  (user_id demo_user = MOCK_USER_ID /\ encodable (lit "Launch day") = true)
  /\ fetches (snd (publishCarouselToInstagram accepting_env demo_user []
                     (lit "Launch day") true [])) = []
  /\ exists now,
       fst (publishCarouselToInstagram accepting_env demo_user [] (lit "Launch day") true [])
       = Fulfilled (mkData None (lit "published_media_" ++ lit now)).
Proof.
  assert (M : user_id demo_user = MOCK_USER_ID) by reflexivity.
  assert (Ec : encodable (lit "Launch day") = true) by reflexivity.
  split; [split; assumption|].
  exact (proj2 (@empty_asset_list_run accepting_env demo_user (lit "Launch day") true _ _
                  (surjective_pairing _)) M Ec).
Defined.

(** ** Network calls and the causes of failure *)

Lemma sound_Forall evs : Forall (fun e => fetch_failure e = None) evs -> sound evs.
Proof. intros H e He. rewrite Forall_forall in H. apply H, He. Qed.

Lemma sound_nil : sound [].
Proof. intros e []. Qed.

Lemma sound_app a b : sound a -> sound b -> sound (a ++ b).
Proof. intros Ha Hb e H. apply in_app_or in H as [H | H]; auto. Qed.

Lemma sound_statuses l : sound (map Progress l).
Proof. intros e H. apply in_map_iff in H as [s [<- _]]. reflexivity. Qed.

Lemma sound_no_fetch evs : fetches evs = [] -> sound evs.
Proof.
  intros H e He. destruct e; try reflexivity.
  assert (I : In (Fetch url result) (fetches evs))
    by (apply filter_In; split; [exact He | reflexivity]).
  rewrite H in I. destruct I.
Qed.

Lemma failure_cause_app {A : Type} (why : Prop) (out : Outcome A) a b :
  sound a -> failure_cause why out b -> failure_cause why out (a ++ b).
Proof.
  intros Ha. destruct out as [x | e]; simpl.
  - apply sound_app, Ha.
  - intros [[E [W Hb]] | [low [f [-> [Hl Hf]]]]].
    + left. repeat split; try assumption. apply sound_app; assumption.
    + right. exists (a ++ low), f. rewrite app_assoc.
      repeat split; try assumption. apply sound_app; assumption.
Qed.

Lemma failure_cause_weaken {A : Type} (why why' : Prop) (out : Outcome A) evs :
  (why -> why') -> failure_cause why out evs -> failure_cause why' out evs.
Proof.
  intros W. destruct out as [x | e]; simpl; [tauto|].
  intros [[E [H S]] | H]; [left; auto | right; exact H].
Qed.

Ltac solve_sound :=
  apply sound_Forall; repeat constructor; cbn [fetch_failure];
  match goal with
  | H : data_error _ = None |- _ => rewrite H; reflexivity
  end.

Ltac solve_cause :=
  cbn [failure_cause];
  first
    [ solve_sound
    | right;
      match goal with
      | |- context [Fetch ?url ?r] =>
          eexists; exists (Fetch url r);
          split; [reflexivity | split; [solve_sound |]];
          cbn [fetch_failure];
          first [ reflexivity
                | match goal with
                  | H : data_error _ = Some _ |- _ => rewrite H; reflexivity
                  end ]
      end
    | left; split; [reflexivity | split; [| solve_sound]] ].

Lemma unencodable s : encodeURIComponent s = None -> encodable s = false.
Proof. unfold encodable. intros ->. reflexivity. Qed.

Lemma encoded_some s r : encodeURIComponent s = Some r -> encoded s = r.
Proof. unfold encoded. intros ->. reflexivity. Qed.

Lemma publishMedia_network env userId creationId token :
  emits (publishMedia env userId creationId token)
    (network_post False userId (publish_request userId creationId token)).
Proof.
  run_service; (split; [solve_cause |]); unfold simulated; intros; try congruence.
  match goal with H : Fulfilled _ = Fulfilled _ |- _ => injection H as <- end.
  reflexivity.
Qed.

Lemma createCarouselContainer_network env userId childrenIds token caption :
  emits (createCarouselContainer env userId childrenIds token caption)
    (network_post (encodable caption = false) userId
       (carousel_request userId childrenIds token caption)).
Proof.
  run_service; (split; [solve_cause; try (apply unencodable; assumption) |]);
    unfold simulated; intros; try congruence.
  match goal with H : Fulfilled _ = Fulfilled _ |- _ => injection H as <- end.
  unfold carousel_request.
  match goal with H : encodeURIComponent _ = Some _ |- _ => rewrite (encoded_some _ H) end.
  reflexivity.
Qed.

Lemma createItemContainer_network env userId imageUrl token caption isCarouselItem :
  emits (createItemContainer env userId imageUrl token caption isCarouselItem)
    (network_post
       (encodable imageUrl = false \/ (isCarouselItem = false /\ encodable caption = false))
       userId (item_request userId imageUrl token caption isCarouselItem)).
Proof.
  run_service;
    (split;
     [solve_cause;
      first [ left; apply unencodable; assumption
            | right; split; [reflexivity | apply unencodable; assumption] ] |]);
    unfold simulated; intros; try congruence.
  all: match goal with H : Fulfilled _ = Fulfilled _ |- _ => injection H as <- end.
  all: unfold item_request.
  all: repeat match goal with
              | H : encodeURIComponent _ = Some _ |- _ => rewrite (encoded_some _ H); clear H
              end.
  all: rewrite <- ?app_assoc; reflexivity.
Qed.

Lemma emits_conj {A : Type} (m : Async A) (P Q : Outcome A -> Trace -> Prop) :
  emits m P -> emits m Q -> emits m (fun out evs => P out evs /\ Q out evs).
Proof.
  intros HP HQ tr.
  destruct (HP tr) as [out [evs [E p]]]. destruct (HQ tr) as [out' [evs' [E' q]]].
  rewrite E in E'. injection E' as <- E'. apply app_inv_head in E'. subst evs'.
  exists out, evs. split; [exact E | split; assumption].
Qed.

Lemma createItemContainer_traffic env userId imageUrl token caption isCarouselItem :
  emits (createItemContainer env userId imageUrl token caption isCarouselItem)
    (fun out evs =>
       service_post (CreateItemContainer userId imageUrl token caption isCarouselItem)
         userId out evs
       /\ network_post
            (encodable imageUrl = false
             \/ (isCarouselItem = false /\ encodable caption = false))
            userId (item_request userId imageUrl token caption isCarouselItem) out evs).
Proof.
  apply emits_conj; [|apply createItemContainer_network].
  eapply emits_weaken; [apply createItemContainer_emits|].
  intros out evs [H _]. exact H.
Qed.

Lemma createCarouselContainer_traffic env userId childrenIds token caption :
  emits (createCarouselContainer env userId childrenIds token caption)
    (fun out evs =>
       service_post (CreateCarouselContainer userId childrenIds token caption) userId out evs
       /\ network_post (encodable caption = false) userId
            (carousel_request userId childrenIds token caption) out evs).
Proof.
  apply emits_conj; [|apply createCarouselContainer_network].
  eapply emits_weaken; [apply createCarouselContainer_emits|].
  intros out evs [H _]. exact H.
Qed.

Lemma publishMedia_traffic env userId creationId token :
  emits (publishMedia env userId creationId token)
    (fun out evs =>
       service_post (PublishMedia userId creationId token) userId out evs
       /\ network_post False userId (publish_request userId creationId token) out evs).
Proof.
  apply emits_conj; [|apply publishMedia_network].
  eapply emits_weaken; [apply publishMedia_emits|].
  intros out evs [H _]. exact H.
Qed.

Lemma item_loop_network env onProgress user (urls : list jsstring) :
  forall i itemContainers,
  emits (item_loop env onProgress user i urls itemContainers)
    (fun out evs =>
       failure_cause (unencodable_among urls) out evs
       /\ (simulated (user_id user) = false -> forall ids, out = Fulfilled ids ->
           exists items, length items = length urls
             /\ ids = itemContainers ++ map data_id items
             /\ api evs = item_calls user urls items
             /\ fetches evs = item_fetches user urls items)).
Proof.
  induction urls as [|url urls IH]; intros i itemContainers.
  - apply emits_ret. split; [apply sound_nil|].
    intros _ ids [= <-]. exists []. rewrite app_nil_r. repeat split.
  - cbn [item_loop].
    eapply emits_bind; [apply notify_emits | | intros e evs [[=] _]].
    intros [] evs0 [_ ->].
    eapply emits_bind; [apply createItemContainer_traffic | |].
    + intros container evs1 [[A1 _] [C1 N1]].
      eapply emits_weaken; [apply (IH (S i) (itemContainers ++ [data_id container]))|].
      intros out evs2 [C2 N2]. split.
      * apply failure_cause_app; [apply sound_statuses|].
        apply failure_cause_app; [exact C1|].
        eapply failure_cause_weaken; [|exact C2].
        intros [u [I E]]. exists u. split; [right; exact I | exact E].
      * intros M ids Hids. destruct (N2 M ids Hids) as [items [L [-> [A2 F2]]]].
        exists (container :: items). split; [simpl; congruence|].
        rewrite <- app_assoc. split; [reflexivity|].
        rewrite !api_app, !fetches_app, api_statuses, fetches_statuses, A1, A2, F2,
          (N1 M container eq_refl).
        split; reflexivity.
    + intros e evs1 [_ [C1 _]]. split; [|intros _ ids [=]].
      apply failure_cause_app; [apply sound_statuses|].
      eapply failure_cause_weaken; [|exact C1].
      intros [E | [[=] _]]. exists url. split; [left; reflexivity | exact E].
Qed.

Lemma container_step_network env user caption onProgress (urls : list jsstring) :
  emits (if length urls =? 1 then
           notify onProgress (lit "Creating media container...") ;;
           container <- createItemContainer env (user_id user) (nth 0 urls [])
                          (accessToken user) caption false ;;
           ret (data_id container)
         else
           itemContainers <- item_loop env onProgress user 0 urls [] ;;
           notify onProgress (lit "Creating carousel object...") ;;
           carouselContainer <- createCarouselContainer env (user_id user) itemContainers
                                  (accessToken user) caption ;;
           ret (data_id carouselContainer))
    (container_network user caption urls).
Proof.
  unfold container_network, container_traffic.
  destruct (length urls =? 1) eqn:E.
  - eapply emits_bind; [apply notify_emits | | intros e evs [[=] _]].
    intros [] evs0 [_ ->].
    eapply emits_bind; [apply createItemContainer_traffic | |].
    + intros container evs1 [[A1 _] [C1 N1]]. apply emits_ret. rewrite app_nil_r. split.
      * apply failure_cause_app; [apply sound_statuses | exact C1].
      * intros M id [= <-]. exists container.
        rewrite api_app, fetches_app, api_statuses, fetches_statuses, A1,
          (N1 M _ eq_refl).
        repeat split.
    + intros e evs1 [_ [C1 _]]. split; [|intros _ id [=]].
      apply failure_cause_app; [apply sound_statuses|].
      eapply failure_cause_weaken; [|exact C1].
      intros [Eu | [_ Ec]]; [left | right; exact Ec].
      exists (nth 0 urls []). split; [|exact Eu].
      destruct urls as [|u [|]]; try discriminate. left. reflexivity.
  - eapply emits_bind; [apply item_loop_network | |].
    + intros ids evsI [CI NI].
      eapply emits_bind; [apply notify_emits | | intros e evs [[=] _]].
      intros [] evs0 [_ ->].
      eapply emits_bind; [apply createCarouselContainer_traffic | |].
      * intros root evsC [[AC _] [CC NC]]. apply emits_ret. rewrite app_nil_r. split.
        -- apply failure_cause_app; [exact CI|].
           apply failure_cause_app; [apply sound_statuses | exact CC].
        -- intros M id [= <-]. destruct (NI M ids eq_refl) as [items [L [-> [AI FI]]]].
           simpl app in *. exists items, root.
           rewrite !api_app, !fetches_app, api_statuses, fetches_statuses, AI, FI, AC,
             (NC M _ eq_refl).
           repeat split. exact L.
      * intros e evsC [_ [CC _]]. split; [|intros _ id [=]].
        apply failure_cause_app; [exact CI|].
        apply failure_cause_app; [apply sound_statuses|].
        eapply failure_cause_weaken; [|exact CC]. intros Ec. right. exact Ec.
    + intros e evsI [CI _]. split; [|intros _ id [=]].
      eapply failure_cause_weaken; [|exact CI]. intros H. left. exact H.
Qed.

Lemma run_body_network env user blobs caption onProgress :
  emits (imageUrls <- upload_loop env onProgress (length blobs) 0 blobs [] ;;
         creationId <-
           (if length imageUrls =? 1 then
              notify onProgress (lit "Creating media container...") ;;
              container <- createItemContainer env (user_id user) (nth 0 imageUrls [])
                             (accessToken user) caption false ;;
              ret (data_id container)
            else
              itemContainers <- item_loop env onProgress user 0 imageUrls [] ;;
              notify onProgress (lit "Creating carousel object...") ;;
              carouselContainer <- createCarouselContainer env (user_id user) itemContainers
                                     (accessToken user) caption ;;
              ret (data_id carouselContainer)) ;;
         notify onProgress (lit "Finalizing publication...") ;;
         result <- publishMedia env (user_id user) creationId (accessToken user) ;;
         ret result)
    (run_network user blobs caption).
Proof.
  eapply emits_bind;
    [apply upload_loop_emits | | intros e evs [rs [_ [[=] _]]]].
  intros imageUrls evsU [rs [L [[= ->] [AU [PU [CU FU]]]]]]. simpl app.
  assert (EU : ~ unencodable_among (map upload_url rs)).
  { intros [u [H E]]. apply in_map_iff in H as [r [<- _]].
    rewrite upload_url_encodable in E. discriminate. }
  assert (SU : sound evsU) by (apply sound_no_fetch; exact FU).
  assert (UP : forall rest, exists rs, length rs = length blobs
                 /\ prefix_of (upload_calls blobs (map upload_url rs)) (api (evsU ++ rest))).
  { intros rest. exists rs. split; [exact L|]. rewrite api_app, AU. apply prefix_of_start. }
  eapply emits_bind; [apply container_step_network | |].
  - intros id evsC [CC NC].
    eapply emits_bind; [apply notify_emits | | intros e evs [[=] _]].
    intros [] evs0 [_ ->].
    eapply emits_bind; [apply publishMedia_traffic | |].
    + intros result evsP [[AP _] [CP NP]]. apply emits_ret. rewrite app_nil_r.
      split; [|split; [apply UP|]].
      * apply (@failure_cause_app GraphData); [exact SU|].
        apply (@failure_cause_app GraphData); [exact CC|].
        apply (@failure_cause_app GraphData); [apply sound_statuses | exact CP].
      * intros M r [= <-]. exists rs, id, (api evsC), (fetches evsC).
        split; [exact L|]. split; [exact (NC M id eq_refl)|].
        rewrite !api_app, !fetches_app, api_statuses, fetches_statuses, AU, FU, AP,
          (NP M _ eq_refl).
        split; reflexivity.
    + intros e evsP [_ [CP _]]. split; [|split; [apply UP | intros _ r [=]]].
      apply failure_cause_app; [exact SU|].
      apply failure_cause_app; [exact CC|].
      apply failure_cause_app; [apply sound_statuses|].
      eapply failure_cause_weaken; [|exact CP]. intros [].
  - intros e evsC [CC _]. split; [|split; [apply UP | intros _ r [=]]].
    apply failure_cause_app; [exact SU|].
    eapply failure_cause_weaken; [|exact CC].
    intros [H | H]; [destruct (EU H) | exact H].
Qed.

Lemma run_full env user blobs caption onProgress out tr :
  publishCarouselToInstagram env user blobs caption onProgress [] = (out, tr) ->
  exists evs0, tr = logged out evs0
    /\ run_post user blobs caption onProgress out evs0
    /\ run_network user blobs caption out evs0.
Proof.
  intros R.
  assert (H : emits (publishCarouselToInstagram env user blobs caption onProgress)
                (fun out evs =>
                   exists evs0, evs = logged out evs0
                     /\ run_post user blobs caption onProgress out evs0
                     /\ run_network user blobs caption out evs0)).
  { unfold publishCarouselToInstagram.
    eapply emits_try_catch;
      [apply emits_conj; [apply run_body_emits | apply run_body_network] | |].
    - intros result evs H. exists evs. split; [reflexivity | exact H].
    - intros e evs H.
      eapply emits_bind with
        (P := fun out evs' => out = Fulfilled tt /\ evs' = [failure_log e]).
      + apply emits_emit. split; reflexivity.
      + intros [] evs1 [_ ->] tr0. exists (Rejected e), [].
        rewrite app_nil_r. split; [reflexivity|].
        exists evs. split; [reflexivity | exact H].
      + intros e' evs1 [[=] _]. }
  eapply emits_run in R; [|exact H].
  destruct R as [evs [-> Hr]]. exact Hr.
Qed.

(** ** More on the workflow *)

Lemma length_container_statuses n :
  length (container_statuses n) = if n =? 1 then 1 else n + 1.
Proof.
  unfold container_statuses. destruct (n =? 1); [reflexivity|].
  rewrite length_app, length_map, length_seq. reflexivity.
Qed.

(** X11: the status messages of a run: one per upload, naming the slide and the
    total; then one for the single media container or, for a carousel, one
    per item container and one for the carousel object; then the final
    one.  A fulfilled run gives exactly these to the sink, three for one
    blob and 2N+2 otherwise; a failed run a beginning of them; and without
    a sink there is none. *)
Theorem run_status_messages env user blobs caption onProgress out tr :
  publishCarouselToInstagram env user blobs caption onProgress [] = (out, tr) ->
  prefix_of (progress tr)
    (told onProgress
       (map (upload_status (length blobs)) (seq 0 (length blobs))
        ++ container_statuses (length blobs) ++ [lit "Finalizing publication..."]))
  /\ (forall result, out = Fulfilled result ->
      progress tr = expected_progress onProgress (length blobs)
      /\ (onProgress = true ->
          length (progress tr)
          = if length blobs =? 1 then 3 else 2 * length blobs + 2))
  /\ (onProgress = false -> progress tr = []).
Proof.
  intros R. destruct (publish_run _ _ _ _ _ R) as [evs0 [-> [_ [_ [_ [RP [_ X]]]]]]].
  rewrite progress_logged. split; [exact X|]. split.
  - intros result ->. destruct (RP result eq_refl) as [_ [P _]].
    split; [exact P|]. intros ->. rewrite P. unfold expected_progress, told.
    rewrite !length_app, length_map, length_seq, length_container_statuses.
    destruct (length blobs =? 1) eqn:E; simpl; [apply Nat.eqb_eq in E|]; lia.
  - intros ->. destruct X as [rest X]. unfold expected_progress, told in X.
    symmetry in X. apply app_eq_nil in X. tauto.
Qed.

Lemma run_status_messages_two_slides :
  progress (snd (publishCarouselToInstagram accepting_env connected_user [slide 1; slide 2]
                   (lit "Two slides") true []))
  = [lit "Uploading slide 1 of 2..."; lit "Uploading slide 2 of 2...";
     lit "Preparing slide 1 for Instagram..."; lit "Preparing slide 2 for Instagram...";
     lit "Creating carousel object..."; lit "Finalizing publication..."].
Proof.
  assert (R : publishCarouselToInstagram accepting_env connected_user [slide 1; slide 2]
                (lit "Two slides") true []
              = (Fulfilled (mkData None (lit "17841400")),
                 snd (publishCarouselToInstagram accepting_env connected_user
                        [slide 1; slide 2] (lit "Two slides") true [])))
    by (vm_compute; reflexivity).
  rewrite (proj1 (proj1 (proj2 (run_status_messages _ _ _ _ _ R)) _ eq_refl)).
  reflexivity.
Defined.

Lemma failure_position (pre post low rest : Trace) x y :
  pre ++ x :: post = low ++ y :: rest ->
  fetch_failure x <> None -> sound low -> sound rest ->
  pre = low /\ x = y /\ post = rest.
Proof.
  revert low. induction pre as [|p pre IH]; intros [|z low] E Hx Hl Hr; simpl in E.
  - injection E as -> ->. repeat split.
  - injection E as -> _. exfalso. apply Hx, Hl. left. reflexivity.
  - injection E as -> <-. exfalso. apply Hx, Hr, in_elt.
  - injection E as -> E.
    destruct (IH low E Hx) as [-> [-> ->]]; [|exact Hr|repeat split].
    intros e He. apply Hl. right. exact He.
Qed.

Lemma sound_failure_log e : sound [failure_log e].
Proof. intros x [<- | []]. reflexivity. Qed.

(** X12: when a network call of a run is rejected, the run is rejected with
    the [TypeError] of that rejection, and nothing happens after that call
    but the logging of the failure. *)
Theorem network_failure_ends_run env user blobs caption onProgress out tr
    pre url reason post :
  publishCarouselToInstagram env user blobs caption onProgress [] = (out, tr) ->
  tr = pre ++ Fetch url (NetworkFailure reason) :: post ->
  out = Rejected (TypeError reason)
  /\ post = [failure_log (TypeError reason)].
Proof.
  intros R Etr. destruct (run_full _ _ _ _ _ R) as [evs0 [E' [_ [C _]]]]. subst tr.
  assert (Hx : fetch_failure (Fetch url (NetworkFailure reason)) <> None) by discriminate.
  assert (Dirty : forall evs, sound evs ->
            pre ++ Fetch url (NetworkFailure reason) :: post = evs -> False).
  { intros evs S <-. apply Hx, S, in_elt. }
  destruct out as [result | e]; simpl in C, E'.
  - exfalso. exact (Dirty _ C E').
  - destruct C as [[_ [_ S]] | [low [f [-> [Sl Hf]]]]].
    + exfalso. apply (Dirty (evs0 ++ [failure_log e])); [|exact E'].
      apply sound_app; [exact S | apply sound_failure_log].
    + rewrite <- app_assoc in E'. simpl in E'.
      apply failure_position in E' as [_ [<- ->]];
        [| exact Hx | exact Sl | apply sound_failure_log].
      simpl in Hf. injection Hf as <-. split; reflexivity.
Qed.

Lemma network_failure_ends_run_offline :
  exists pre url,
    snd (publishCarouselToInstagram offline_env connected_user [slide 1; slide 2]
           (lit "Two slides") true [])
    = pre ++ Fetch url (NetworkFailure (lit "Failed to fetch"))
          :: [failure_log (TypeError (lit "Failed to fetch"))]
    /\ length (calls pre) = 3
    /\ fst (publishCarouselToInstagram offline_env connected_user [slide 1; slide 2]
              (lit "Two slides") true [])
       = Rejected (TypeError (lit "Failed to fetch")).
Proof.
  pose (run := publishCarouselToInstagram offline_env connected_user [slide 1; slide 2]
                 (lit "Two slides") true []).
  pose (n := length (snd run) - 2).
  exists (firstn n (snd run)).
  exists (match nth n (snd run) (Timeout 0) with Fetch u _ => u | _ => [] end).
  assert (T : snd run
              = firstn n (snd run)
                ++ Fetch (match nth n (snd run) (Timeout 0) with Fetch u _ => u | _ => [] end)
                     (NetworkFailure (lit "Failed to fetch"))
                   :: [failure_log (TypeError (lit "Failed to fetch"))])
    by (vm_compute; reflexivity).
  split; [exact T|]. split; [vm_compute; reflexivity|].
  exact (proj1 (@network_failure_ends_run offline_env connected_user [slide 1; slide 2]
                  (lit "Two slides") true _ _ _ _ _ _
                  (surjective_pairing run) T)).
Defined.

Lemma fetch_failure_some f e :
  fetch_failure f = Some e ->
  (exists url reason, f = Fetch url (NetworkFailure reason) /\ e = TypeError reason)
  \/ (exists url d err, f = Fetch url (Json d) /\ data_error d = Some err
                        /\ e = Error (error_message err)).
Proof.
  destruct f as [| | | | | | | |url [reason|d]]; try discriminate; simpl.
  - intros [= <-]. left. exists url, reason. split; reflexivity.
  - destruct (data_error d) as [err|] eqn:E; [|discriminate].
    intros [= <-]. right. exists url, d, err. repeat split. exact E.
Qed.

Lemma fetch_failure_fetch f e : fetch_failure f = Some e -> is_fetch f = true.
Proof. destruct f; try discriminate. reflexivity. Qed.

(** X13: a run fails for one of three reasons only, and the caller gets the
    error of that reason after it was logged: the caption cannot be encoded
    ([URIError]), the last network call was rejected ([TypeError]), or the
    last network call was answered with an error payload ([Error] with its
    message).  Every network call before that, and every one of a
    fulfilled run, was answered without an error.  For the sentinel account
    the first reason is the only one. *)
Theorem run_failure_reasons env user blobs caption onProgress out tr :
  publishCarouselToInstagram env user blobs caption onProgress [] = (out, tr) ->
  match out with
  | Fulfilled _ => sound tr
  | Rejected e =>
      exists evs0, tr = evs0 ++ [failure_log e]
        /\ ((e = URIError /\ encodable caption = false /\ sound evs0)
            \/ (exists low url reason,
                  evs0 = low ++ [Fetch url (NetworkFailure reason)] /\ sound low
                  /\ e = TypeError reason)
            \/ (exists low url d err,
                  evs0 = low ++ [Fetch url (Json d)] /\ sound low
                  /\ data_error d = Some err /\ e = Error (error_message err)))
        /\ (simulated (user_id user) = true -> e = URIError)
  end.
Proof.
  intros R. destruct (run_full _ _ _ _ _ R) as [evs0 [-> [[_ [F _]] [C _]]]].
  destruct out as [result | e]; simpl in *; [exact C|].
  exists evs0. split; [reflexivity|]. split.
  - destruct C as [H | [low [f [-> [Sl Hf]]]]]; [left; exact H | right].
    destruct (fetch_failure_some _ Hf)
      as [[url [reason [-> ->]]] | [url [d [err [-> [Hd ->]]]]]].
    + left. exists low, url, reason. repeat split. exact Sl.
    + right. exists low, url, d, err. repeat split; assumption.
  - intros M. destruct C as [[H _] | [low [f [-> [_ Hf]]]]]; [exact H|].
    specialize (F M). rewrite fetches_app in F. apply app_eq_nil in F as [_ F].
    simpl in F. rewrite (fetch_failure_fetch _ Hf) in F. discriminate.
Qed.

Lemma run_failure_reasons_refused :
  exists evs0,
    snd (publishCarouselToInstagram refusing_env connected_user [slide 1]
           (lit "One slide") true [])
    = evs0 ++ [failure_log (Error (lit "Invalid OAuth access token."))]
    /\ length (fetches evs0) = 1.
Proof.
  pose (run := publishCarouselToInstagram refusing_env connected_user [slide 1]
                 (lit "One slide") true []).
  assert (R : run = (Rejected (Error (lit "Invalid OAuth access token.")), snd run))
    by (vm_compute; reflexivity).
  destruct (run_failure_reasons _ _ _ _ _ R) as [evs0 [E _]].
  exists evs0. split; [exact E|].
  assert (N : length (fetches (snd run)) = 1) by (vm_compute; reflexivity).
  rewrite E, fetches_app, length_app in N. simpl in N. lia.
Defined.

Lemma emits_logged (body : Async GraphData) (P : Outcome GraphData -> Trace -> Prop) :
  emits body P ->
  emits (try_catch body
           (fun error =>
              consoleError [VString (lit "Publishing failed:"); VExn error] ;;
              throw error))
    (fun out evs => exists evs0, evs = logged out evs0 /\ P out evs0).
Proof.
  intros Hb. eapply emits_try_catch; [exact Hb | |].
  - intros result evs H. exists evs. split; [reflexivity | exact H].
  - intros e evs H.
    eapply emits_bind with
      (P := fun out evs' => out = Fulfilled tt /\ evs' = [failure_log e]).
    + apply emits_emit. split; reflexivity.
    + intros [] evs1 [_ ->] tr0. exists (Rejected e), [].
      rewrite app_nil_r. split; [reflexivity|].
      exists evs. split; [reflexivity | exact H].
    + intros e' evs1 [[=] _].
Qed.

Lemma late_failure_body env user blobs caption onProgress :
  simulated (user_id user) = true -> encodable caption = false -> length blobs <> 1 ->
  emits (imageUrls <- upload_loop env onProgress (length blobs) 0 blobs [] ;;
         creationId <-
           (if length imageUrls =? 1 then
              notify onProgress (lit "Creating media container...") ;;
              container <- createItemContainer env (user_id user) (nth 0 imageUrls [])
                             (accessToken user) caption false ;;
              ret (data_id container)
            else
              itemContainers <- item_loop env onProgress user 0 imageUrls [] ;;
              notify onProgress (lit "Creating carousel object...") ;;
              carouselContainer <- createCarouselContainer env (user_id user) itemContainers
                                     (accessToken user) caption ;;
              ret (data_id carouselContainer)) ;;
         notify onProgress (lit "Finalizing publication...") ;;
         result <- publishMedia env (user_id user) creationId (accessToken user) ;;
         ret result)
    (fun out evs =>
       out = Rejected URIError
       /\ exists rs items, length rs = length blobs /\ length items = length blobs
            /\ api evs
               = upload_calls blobs (map upload_url rs)
                 ++ item_calls user (map upload_url rs) items
                 ++ [Called (CreateCarouselContainer (user_id user) (map data_id items)
                               (accessToken user) caption)]).
Proof.
  intros M Ec N1.
  eapply emits_bind;
    [apply upload_loop_emits | | intros e evs [rs [_ [[=] _]]]].
  intros imageUrls evsU [rs [L [[= ->] [AU _]]]]. simpl app.
  assert (LU : length (map upload_url rs) = length blobs)
    by (rewrite length_map; exact L).
  assert (EU : Forall (fun url => encodable url = true) (map upload_url rs)).
  { apply Forall_forall. intros u H. apply in_map_iff in H as [r [<- _]].
    apply upload_url_encodable. }
  assert (E1 : (length (map upload_url rs) =? 1) = false)
    by (apply Nat.eqb_neq; congruence).
  rewrite E1.
  eapply emits_bind with
    (P := fun (out : Outcome jsstring) evs =>
            out = Rejected URIError
            /\ exists items, length items = length blobs
                 /\ api evs
                    = item_calls user (map upload_url rs) items
                      ++ [Called (CreateCarouselContainer (user_id user) (map data_id items)
                                    (accessToken user) caption)]).
  - eapply emits_bind; [apply item_loop_emits | |].
    + intros ids evsI [_ [_ [_ [RI _]]]].
      destruct (RI ids eq_refl) as [items [Li [-> [AI _]]]]. simpl app.
      eapply emits_bind; [apply notify_emits | | intros e evs [[=] _]].
      intros [] evs0 [_ ->].
      eapply emits_bind;
        [apply emits_conj;
           [apply createCarouselContainer_emits | apply createCarouselContainer_network] | |].
      * intros root evsC [[_ [G _]] _]. specialize (G root eq_refl). congruence.
      * intros e evsC [[[AC [_ [_ FC]]] _] [C _]]. split.
        -- f_equal. simpl in C.
           destruct C as [[-> _] | [low [f [-> [_ Hf]]]]]; [reflexivity|].
           specialize (FC M). rewrite fetches_app in FC. apply app_eq_nil in FC as [_ FC].
           simpl in FC. rewrite (fetch_failure_fetch _ Hf) in FC. discriminate.
        -- exists items. split; [congruence|].
           rewrite !api_app, api_statuses, AI, AC. reflexivity.
    + intros e evsI [_ [_ [SI _]]]. destruct (SI M EU) as [ids [=]].
  - intros id evsC [[=] _].
  - intros e evsC [[= ->] [items [Li AC]]]. split; [reflexivity|].
    exists rs, items. split; [exact L|]. split; [exact Li|].
    rewrite api_app, AU, AC. reflexivity.
Qed.

(** X14: a caption that cannot be encoded fails every run, the simulated one
    too, where the error is [URIError] and still no network call is made;
    but the run finds out only after it has uploaded every blob, and, when
    it does not have exactly one blob, only after it has created an item
    container for each: the simulated run ends at the carousel call. *)
Theorem unencodable_caption_fails_late env user blobs caption onProgress out tr :
  encodable caption = false ->
  publishCarouselToInstagram env user blobs caption onProgress [] = (out, tr) ->
  (exists e, out = Rejected e)
  /\ (simulated (user_id user) = true -> out = Rejected URIError /\ fetches tr = [])
  /\ (exists urls, length urls = length blobs
        /\ prefix_of (upload_calls blobs urls) (api tr))
  /\ (simulated (user_id user) = true -> length blobs <> 1 ->
      exists (urls : list jsstring) (items : list GraphData),
        length urls = length blobs /\ length items = length blobs
        /\ api tr
           = upload_calls blobs urls ++ item_calls user urls items
             ++ [Called (CreateCarouselContainer (user_id user) (map data_id items)
                           (accessToken user) caption)]).
Proof.
  intros Ec R.
  assert (Late : simulated (user_id user) = true -> length blobs <> 1 ->
            exists (urls : list jsstring) (items : list GraphData),
              length urls = length blobs /\ length items = length blobs
              /\ api tr
                 = upload_calls blobs urls ++ item_calls user urls items
                   ++ [Called (CreateCarouselContainer (user_id user) (map data_id items)
                                 (accessToken user) caption)]).
  { intros M N1. pose proof R as R'. unfold publishCarouselToInstagram in R'.
    eapply emits_run in R';
      [|apply emits_logged, (@late_failure_body env user blobs caption onProgress M Ec N1)].
    destruct R' as [evs [-> [evs0 [-> [_ [rs [items [L [Li A]]]]]]]]].
    exists (map upload_url rs), items. rewrite length_map.
    split; [exact L|]. split; [exact Li|]. cbn [app]. rewrite api_logged. exact A. }
  destruct (run_full _ _ _ _ _ R) as [evs0 [-> [[_ [F [_ [RP _]]]] [C [U _]]]]].
  assert (Rej : exists e, out = Rejected e).
  { destruct out as [result | e]; [|exists e; reflexivity].
    destruct (RP result eq_refl) as [Ec' _]. congruence. }
  split; [exact Rej|]. split.
  - intros M. rewrite fetches_logged. split; [|exact (F M)].
    destruct Rej as [e ->]. simpl in C.
    destruct C as [[-> _] | [low [f [-> [_ Hf]]]]]; [reflexivity|].
    specialize (F M). rewrite fetches_app in F. apply app_eq_nil in F as [_ F].
    simpl in F. rewrite (fetch_failure_fetch _ Hf) in F. discriminate.
  - split; [|exact Late]. destruct U as [rs [L [rest U]]]. exists (map upload_url rs).
    rewrite length_map. split; [exact L|].
    rewrite api_logged, U. apply prefix_of_start.
Qed.

Lemma unencodable_caption_fails_late_demo :
  encodable broken_caption = false
  /\ fst (publishCarouselToInstagram accepting_env demo_user [slide 1; slide 2]
            broken_caption true [])
     = Rejected URIError
  /\ length (calls (snd (publishCarouselToInstagram accepting_env demo_user
                           [slide 1; slide 2] broken_caption true []))) = 5.
Proof.
  assert (Ec : encodable broken_caption = false) by reflexivity.
  assert (M : simulated (user_id demo_user) = true) by reflexivity.
  split; [exact Ec|]. split; [|vm_compute; reflexivity].
  exact (proj1 (proj1 (proj2 (@unencodable_caption_fails_late accepting_env demo_user
                                [slide 1; slide 2] broken_caption true _ _ Ec
                                (surjective_pairing _))) M)).
Defined.

Lemma length_item_fetches user (urls : list jsstring) items :
  length items = length urls -> length (item_fetches user urls items) = length urls.
Proof.
  intros L. unfold item_fetches. rewrite length_map, length_combine, L. apply Nat.min_id.
Qed.

(** X15: what a fulfilled run of a connected account sends when it does not
    have exactly one blob: one POST per uploaded address, in upload order,
    to [/media] with the encoded address as [image_url] and
    [is_carousel_item=true]; then one to [/media] with
    [media_type=CAROUSEL], the ids those calls were answered with, joined
    by commas in the same order, and the encoded caption; then one to
    [/media_publish] with the id the carousel call was answered with.  The
    run returns the answer of the last call, and these N+2 are all its
    network calls. *)
Theorem connected_carousel_requests env user blobs caption onProgress result tr :
  simulated (user_id user) = false ->
  length blobs <> 1 ->
  publishCarouselToInstagram env user blobs caption onProgress [] = (Fulfilled result, tr) ->
  exists (urls : list jsstring) (items : list GraphData) (root : GraphData),
    length urls = length blobs /\ length items = length blobs
    /\ api tr
       = upload_calls blobs urls ++ item_calls user urls items
         ++ [Called (CreateCarouselContainer (user_id user) (map data_id items)
                       (accessToken user) caption);
             Returned (VData root);
             Called (PublishMedia (user_id user) (data_id root) (accessToken user));
             Returned (VData result)]
    /\ fetches tr
       = item_fetches user urls items
         ++ [Fetch (carousel_request (user_id user) (map data_id items)
                      (accessToken user) caption) (Json root);
             Fetch (publish_request (user_id user) (data_id root) (accessToken user))
               (Json result)]
    /\ length (fetches tr) = length blobs + 2.
Proof.
  intros M N1 R. destruct (run_full _ _ _ _ _ R) as [evs0 [-> [_ [_ [_ T]]]]]. simpl logged.
  destruct (T M result eq_refl) as [rs [id [apiC [net [L [CT [A F]]]]]]].
  unfold container_traffic in CT. rewrite length_map, L in CT.
  apply Nat.eqb_neq in N1. rewrite N1 in CT.
  destruct CT as [items [root [Li [-> [-> ->]]]]].
  exists (map upload_url rs), items, root.
  rewrite length_map. split; [exact L|]. split; [exact Li|].
  rewrite A, F, <- !app_assoc. split; [reflexivity|]. split; [reflexivity|].
  rewrite length_app, length_item_fetches, length_map, L by (rewrite length_map; congruence).
  reflexivity.
Qed.

Lemma connected_carousel_requests_two_slides :
  (simulated (user_id connected_user) = false /\ length [slide 1; slide 2] <> 1)
  /\ length (fetches (snd (publishCarouselToInstagram accepting_env connected_user
                             [slide 1; slide 2] (lit "Two slides") true []))) = 4
  /\ nth 2 (fetches (snd (publishCarouselToInstagram accepting_env connected_user
                            [slide 1; slide 2] (lit "Two slides") true []))) (Timeout 0)
     = Fetch (lit "https://graph.facebook.com/v19.0/17841405793187218/media?media_type=CAROUSEL&children=17841400,17841400&caption=Two%20slides&access_token=EAAB")
         (Json (mkData None (lit "17841400"))).
Proof.
  assert (M : simulated (user_id connected_user) = false) by reflexivity.
  assert (N1 : length [slide 1; slide 2] <> 1) by discriminate.
  assert (R : publishCarouselToInstagram accepting_env connected_user [slide 1; slide 2]
                (lit "Two slides") true []
              = (Fulfilled (mkData None (lit "17841400")),
                 snd (publishCarouselToInstagram accepting_env connected_user
                        [slide 1; slide 2] (lit "Two slides") true [])))
    by (vm_compute; reflexivity).
  split; [split; assumption|]. split; [|vm_compute; reflexivity].
  destruct (@connected_carousel_requests _ _ _ _ _ _ _ M N1 R) as [urls [items [root [_ [_ [_ [_ L]]]]]]].
  exact L.
Defined.

(** X16: what a fulfilled run of a connected account sends for a single blob:
    one POST to [/media] with the encoded address of the upload as
    [image_url] and the encoded caption, without [is_carousel_item]; then
    one to [/media_publish] with the id the first was answered with.  These
    two are all its network calls. *)
Theorem connected_single_image_requests env user blob caption onProgress result tr :
  simulated (user_id user) = false ->
  publishCarouselToInstagram env user [blob] caption onProgress [] = (Fulfilled result, tr) ->
  exists (url : jsstring) (d : GraphData),
    api tr
    = [Called (UploadImageToPublicServer blob); Returned (VString url);
       Called (CreateItemContainer (user_id user) url (accessToken user) caption false);
       Returned (VData d);
       Called (PublishMedia (user_id user) (data_id d) (accessToken user));
       Returned (VData result)]
    /\ fetches tr
       = [Fetch (item_request (user_id user) url (accessToken user) caption false) (Json d);
          Fetch (publish_request (user_id user) (data_id d) (accessToken user))
            (Json result)].
Proof.
  intros M R. destruct (run_full _ _ _ _ _ R) as [evs0 [-> [_ [_ [_ T]]]]]. simpl logged.
  destruct (T M result eq_refl) as [rs [id [apiC [net [L [CT [A F]]]]]]].
  destruct rs as [|r [|]]; try discriminate.
  unfold container_traffic in CT. simpl in CT.
  destruct CT as [d [-> [-> ->]]].
  exists (upload_url r), d. rewrite A, F. split; reflexivity.
Qed.

Lemma connected_single_image_requests_one_slide :
  simulated (user_id connected_user) = false
  /\ length (fetches (snd (publishCarouselToInstagram accepting_env connected_user [slide 1]
                             (lit "Launch day") true []))) = 2
  /\ fetches (snd (publishCarouselToInstagram accepting_env connected_user [slide 1]
                     (lit "Launch day") true []))
     = [Fetch (lit "https://graph.facebook.com/v19.0/17841405793187218/media?image_url=https%3A%2F%2Fimages.unsplash.com%2Fphoto-1611162617474-5b21e879e113%3Fw%3D1080%26q%3D80%26random%3D0.25&access_token=EAAB&caption=Launch%20day")
          (Json (mkData None (lit "17841400")));
        Fetch (lit "https://graph.facebook.com/v19.0/17841405793187218/media_publish?creation_id=17841400&access_token=EAAB")
          (Json (mkData None (lit "17841400")))].
Proof.
  assert (M : simulated (user_id connected_user) = false) by reflexivity.
  assert (R : publishCarouselToInstagram accepting_env connected_user [slide 1]
                (lit "Launch day") true []
              = (Fulfilled (mkData None (lit "17841400")),
                 snd (publishCarouselToInstagram accepting_env connected_user
                        [slide 1] (lit "Launch day") true [])))
    by (vm_compute; reflexivity).
  split; [exact M|]. split; [|vm_compute; reflexivity].
  destruct (@connected_single_image_requests _ _ _ _ _ _ _ M R) as [url [d [_ F]]].
  rewrite F. reflexivity.
Defined.

(** ** What the calls ask for and give back *)

Ltac solve_request :=
  unfold item_request, carousel_request, publish_request;
  repeat match goal with
         | H : encodeURIComponent _ = Some _ |- _ => rewrite (encoded_some _ H); clear H
         end;
  rewrite <- ?app_assoc; reflexivity.

Ltac solve_reply :=
  unfold reply_post, simulated; split;
  [ intros M;
    first
      [ congruence
      | solve_request
      | left; split; [reflexivity | split; [| reflexivity]]
      | right; eexists; split;
        [ solve_request
        | cbn [fetch_failure];
          first [ reflexivity
                | match goal with
                  | H : data_error _ = Some _ |- _ => rewrite H; reflexivity
                  end ] ] ]
  | intros M;
    first [ congruence
          | split; [reflexivity | cbv beta iota; try (split; [reflexivity |])] ] ].

Lemma publishMedia_reply env userId creationId token :
  emits (publishMedia env userId creationId token)
    (reply_post False (publish_request userId creationId token) made_up_media userId).
Proof.
  run_service; solve_reply.
  eexists. reflexivity.
Qed.

Lemma createCarouselContainer_reply env userId childrenIds token caption :
  emits (createCarouselContainer env userId childrenIds token caption)
    (reply_post (encodable caption = false)
       (carousel_request userId childrenIds token caption) made_up_carousel userId).
Proof.
  run_service; solve_reply; try (apply unencodable; assumption).
  eexists. reflexivity.
Qed.

Lemma createItemContainer_reply env userId imageUrl token caption isCarouselItem :
  emits (createItemContainer env userId imageUrl token caption isCarouselItem)
    (reply_post
       (encodable imageUrl = false \/ (isCarouselItem = false /\ encodable caption = false))
       (item_request userId imageUrl token caption isCarouselItem) made_up_item userId).
Proof.
  run_service; solve_reply;
    try (first [ left; apply unencodable; assumption
               | right; split; [reflexivity | apply unencodable; assumption] ]).
  all: do 2 eexists; reflexivity.
Qed.

(** ** The calls of a run, what they ask for and what they give back *)

Lemma item_loop_reply env onProgress user (urls : list jsstring) :
  forall i itemContainers,
  emits (item_loop env onProgress user i urls itemContainers)
    (fun out evs =>
       forall ids, out = Fulfilled ids ->
       exists items, length items = length urls
         /\ ids = itemContainers ++ map data_id items
         /\ api evs = item_calls user urls items
         /\ (simulated (user_id user) = false ->
             fetches evs = item_fetches user urls items)
         /\ (simulated (user_id user) = true ->
             fetches evs = [] /\ Forall made_up_item items)).
Proof.
  induction urls as [|url urls IH]; intros i itemContainers.
  - apply emits_ret. intros ids [= <-]. exists []. rewrite app_nil_r.
    repeat split. constructor.
  - cbn [item_loop].
    eapply emits_bind; [apply notify_emits | | intros e evs [[=] _]].
    intros [] evs0 [_ ->].
    eapply emits_bind;
      [apply emits_conj; [apply createItemContainer_emits | apply createItemContainer_reply]
      | | intros e evs1 _ ids [=]].
    intros container evs1 [[[A1 _] _] [N1 S1]].
    eapply emits_weaken; [apply (IH (S i) (itemContainers ++ [data_id container]))|].
    intros out evs2 H ids Hids.
    destruct (H ids Hids) as [items [L [-> [A2 [N2 S2]]]]].
    exists (container :: items). split; [simpl; congruence|].
    rewrite <- app_assoc. split; [reflexivity|].
    rewrite !api_app, !fetches_app, api_statuses, fetches_statuses, A1, A2.
    split; [reflexivity|]. split.
    + intros M. pose proof (N1 M) as F1. cbv beta iota in F1.
      rewrite F1, (N2 M). reflexivity.
    + intros M. destruct (S1 M) as [F1 Sh]. destruct (S2 M) as [F2 Fa].
      rewrite F1, F2. split; [reflexivity|]. constructor; assumption.
Qed.

Lemma carousel_run_reply env user blobs caption onProgress :
  length blobs <> 1 ->
  emits (imageUrls <- upload_loop env onProgress (length blobs) 0 blobs [] ;;
         creationId <-
           (if length imageUrls =? 1 then
              notify onProgress (lit "Creating media container...") ;;
              container <- createItemContainer env (user_id user) (nth 0 imageUrls [])
                             (accessToken user) caption false ;;
              ret (data_id container)
            else
              itemContainers <- item_loop env onProgress user 0 imageUrls [] ;;
              notify onProgress (lit "Creating carousel object...") ;;
              carouselContainer <- createCarouselContainer env (user_id user) itemContainers
                                     (accessToken user) caption ;;
              ret (data_id carouselContainer)) ;;
         notify onProgress (lit "Finalizing publication...") ;;
         result <- publishMedia env (user_id user) creationId (accessToken user) ;;
         ret result)
    (fun out evs =>
       forall result, out = Fulfilled result ->
       exists rs items root, length rs = length blobs /\ length items = length blobs
         /\ api evs
            = upload_calls blobs (map upload_url rs)
              ++ item_calls user (map upload_url rs) items
              ++ [Called (CreateCarouselContainer (user_id user) (map data_id items)
                            (accessToken user) caption);
                  Returned (VData root);
                  Called (PublishMedia (user_id user) (data_id root) (accessToken user));
                  Returned (VData result)]
         /\ (simulated (user_id user) = false ->
             fetches evs
             = item_fetches user (map upload_url rs) items
               ++ [Fetch (carousel_request (user_id user) (map data_id items)
                            (accessToken user) caption) (Json root);
                   Fetch (publish_request (user_id user) (data_id root) (accessToken user))
                     (Json result)])
         /\ (simulated (user_id user) = true ->
             fetches evs = [] /\ Forall made_up_item items
             /\ made_up_carousel root /\ made_up_media result)).
Proof.
  intros N1.
  eapply emits_bind;
    [apply upload_loop_emits | | intros e evs [rs [_ [[=] _]]]].
  intros imageUrls evsU [rs [L [[= ->] [AU [_ [_ FU]]]]]]. simpl app.
  assert (LU : length (map upload_url rs) = length blobs)
    by (rewrite length_map; exact L).
  assert (E1 : (length (map upload_url rs) =? 1) = false)
    by (apply Nat.eqb_neq; congruence).
  rewrite E1.
  eapply emits_bind with
    (P := fun (out : Outcome jsstring) evs =>
            forall id, out = Fulfilled id ->
            exists items root, length items = length blobs /\ id = data_id root
              /\ api evs
                 = item_calls user (map upload_url rs) items
                   ++ [Called (CreateCarouselContainer (user_id user) (map data_id items)
                                 (accessToken user) caption);
                       Returned (VData root)]
              /\ (simulated (user_id user) = false ->
                  fetches evs
                  = item_fetches user (map upload_url rs) items
                    ++ [Fetch (carousel_request (user_id user) (map data_id items)
                                 (accessToken user) caption) (Json root)])
              /\ (simulated (user_id user) = true ->
                  fetches evs = [] /\ Forall made_up_item items /\ made_up_carousel root)).
  - eapply emits_bind; [apply item_loop_reply | | intros e evs _ id [=]].
    intros ids evsI HI.
    destruct (HI ids eq_refl) as [items [Li [-> [AI [NI SI]]]]]. simpl app.
    eapply emits_bind; [apply notify_emits | | intros e evs [[=] _]].
    intros [] evs0 [_ ->].
    eapply emits_bind;
      [apply emits_conj;
         [apply createCarouselContainer_emits | apply createCarouselContainer_reply]
      | | intros e evs _ id [=]].
    intros root evsC [[[AC _] _] [NC SC]]. apply emits_ret. rewrite app_nil_r.
    intros id [= <-]. exists items, root.
    split; [congruence|]. split; [reflexivity|].
    rewrite !api_app, !fetches_app, api_statuses, fetches_statuses, AI, AC.
    split; [reflexivity|]. split.
    + intros M. pose proof (NC M) as FC. cbv beta iota in FC.
      rewrite (NI M), FC. reflexivity.
    + intros M. destruct (SI M) as [FI Fa]. destruct (SC M) as [FC Sh].
      rewrite FI, FC. repeat split; assumption.
  - intros id evsC HC.
    destruct (HC id eq_refl) as [items [root [Li [-> [AC [NC SC]]]]]].
    eapply emits_bind; [apply notify_emits | | intros e evs [[=] _]].
    intros [] evs0 [_ ->].
    eapply emits_bind;
      [apply emits_conj; [apply publishMedia_emits | apply publishMedia_reply]
      | | intros e evs _ result [=]].
    intros result evsP [[[AP _] _] [NP SP]]. apply emits_ret. rewrite app_nil_r.
    intros r [= <-]. exists rs, items, root.
    split; [exact L|]. split; [exact Li|].
    rewrite !api_app, !fetches_app, api_statuses, fetches_statuses, AU, FU, AC, AP,
      <- !app_assoc.
    split; [reflexivity|]. split.
    + intros M. pose proof (NP M) as FP. cbv beta iota in FP.
      rewrite (NC M), FP, <- !app_assoc. reflexivity.
    + intros M. destruct (SC M) as [FC [Fa Sr]]. destruct (SP M) as [FP Sh].
      rewrite FC, FP. repeat split; assumption.
  - intros e evsC _ result [=].
Qed.

(** C1: with N >= 2 assets and no failing step the run makes the N upload
    calls in the order of the blobs, then N item-container calls, one per
    returned address in upload order, then one carousel-root call whose
    children are the ids the item calls returned, in the same order, then
    one finalize call on the id the carousel-root call returned, and
    nothing else.  What the calls do is fixed as well.  For a connected
    account each item call sends one request for a carousel item with the
    encoded address and returns the container it is answered with; the
    carousel-root call sends one request with the ids of these containers,
    joined by commas in the same order, and the encoded caption, and
    returns the container it is answered with; the finalize call sends one
    request with the id of that container and its answer is the result of
    the run; these are all the network calls.  For the sentinel account no
    request is sent and the containers and the result are made up, one
    [item_container_] id per address, a [carousel_container_] id and a
    [published_media_] id. *)
Theorem carousel_call_sequence env user blobs caption onProgress result tr :
  2 <= length blobs ->
  publishCarouselToInstagram env user blobs caption onProgress [] = (Fulfilled result, tr) ->
  exists (urls : list jsstring) (items : list GraphData) (root : GraphData),
    length urls = length blobs /\ length items = length blobs
    /\ api tr
       = upload_calls blobs urls ++ item_calls user urls items
         ++ [Called (CreateCarouselContainer (user_id user) (map data_id items)
                       (accessToken user) caption);
             Returned (VData root);
             Called (PublishMedia (user_id user) (data_id root) (accessToken user));
             Returned (VData result)]
    /\ calls tr
       = map UploadImageToPublicServer blobs
         ++ map (fun url => CreateItemContainer (user_id user) url (accessToken user) [] true)
              urls
         ++ [CreateCarouselContainer (user_id user) (map data_id items)
               (accessToken user) caption;
             PublishMedia (user_id user) (data_id root) (accessToken user)]
    /\ (simulated (user_id user) = false ->
        fetches tr
        = item_fetches user urls items
          ++ [Fetch (carousel_request (user_id user) (map data_id items)
                       (accessToken user) caption) (Json root);
              Fetch (publish_request (user_id user) (data_id root) (accessToken user))
                (Json result)])
    /\ (simulated (user_id user) = true ->
        fetches tr = [] /\ Forall made_up_item items
        /\ made_up_carousel root /\ made_up_media result).
Proof.
  intros N2 R.
  assert (N1 : length blobs <> 1) by lia.
  pose proof R as R'. unfold publishCarouselToInstagram in R'.
  eapply emits_run in R';
    [|apply emits_logged, (@carousel_run_reply env user blobs caption onProgress N1)].
  destruct R' as [evs [-> [evs0 [-> H]]]]. cbn [app logged].
  destruct (H result eq_refl) as [rs [items [root [L [Li [A [N S]]]]]]].
  exists (map upload_url rs), items, root.
  assert (Lu : length (map upload_url rs) = length blobs)
    by (rewrite length_map; exact L).
  split; [exact Lu|]. split; [exact Li|]. split; [exact A|].
  split; [|split; assumption].
  rewrite <- calls_api, A, !calls_app, calls_upload_calls, calls_item_calls
    by congruence.
  reflexivity.
Qed.

Lemma carousel_call_sequence_two_slides :
  (2 <= length [slide 1; slide 2]
   /\ publishCarouselToInstagram accepting_env connected_user [slide 1; slide 2]
        (lit "Two slides") true []
      = (Fulfilled (mkData None (lit "17841400")),
         snd (publishCarouselToInstagram accepting_env connected_user [slide 1; slide 2]
                (lit "Two slides") true []))
   /\ simulated (user_id connected_user) = false)
  /\ exists (urls : list jsstring) (items : list GraphData) (root : GraphData),
       length urls = 2 /\ length items = 2
       /\ calls (snd (publishCarouselToInstagram accepting_env connected_user
                        [slide 1; slide 2] (lit "Two slides") true []))
          = map UploadImageToPublicServer [slide 1; slide 2]
            ++ map (fun url => CreateItemContainer (user_id connected_user) url
                                 (accessToken connected_user) [] true) urls
            ++ [CreateCarouselContainer (user_id connected_user) (map data_id items)
                  (accessToken connected_user) (lit "Two slides");
                PublishMedia (user_id connected_user) (data_id root)
                  (accessToken connected_user)]
       /\ fetches (snd (publishCarouselToInstagram accepting_env connected_user
                          [slide 1; slide 2] (lit "Two slides") true []))
          = item_fetches connected_user urls items
            ++ [Fetch (carousel_request (user_id connected_user) (map data_id items)
                         (accessToken connected_user) (lit "Two slides")) (Json root);
                Fetch (publish_request (user_id connected_user) (data_id root)
                         (accessToken connected_user))
                  (Json (mkData None (lit "17841400")))].
Proof.
  assert (N2 : 2 <= length [slide 1; slide 2]) by (simpl; lia).
  assert (R : publishCarouselToInstagram accepting_env connected_user [slide 1; slide 2]
                (lit "Two slides") true []
              = (Fulfilled (mkData None (lit "17841400")),
                 snd (publishCarouselToInstagram accepting_env connected_user
                        [slide 1; slide 2] (lit "Two slides") true [])))
    by (vm_compute; reflexivity).
  assert (M : simulated (user_id connected_user) = false) by reflexivity.
  split; [repeat split; assumption|].
  destruct (carousel_call_sequence _ _ _ _ _ N2 R)
    as [urls [items [root [Lu [Li [_ [C [F _]]]]]]]].
  exists urls, items, root. repeat split; try assumption. exact (F M).
Defined.

Lemma single_run_reply env user blob caption onProgress :
  emits (imageUrls <- upload_loop env onProgress (length [blob]) 0 [blob] [] ;;
         creationId <-
           (if length imageUrls =? 1 then
              notify onProgress (lit "Creating media container...") ;;
              container <- createItemContainer env (user_id user) (nth 0 imageUrls [])
                             (accessToken user) caption false ;;
              ret (data_id container)
            else
              itemContainers <- item_loop env onProgress user 0 imageUrls [] ;;
              notify onProgress (lit "Creating carousel object...") ;;
              carouselContainer <- createCarouselContainer env (user_id user) itemContainers
                                     (accessToken user) caption ;;
              ret (data_id carouselContainer)) ;;
         notify onProgress (lit "Finalizing publication...") ;;
         result <- publishMedia env (user_id user) creationId (accessToken user) ;;
         ret result)
    (fun out evs => single_image_run user blob caption out (api evs) (fetches evs)).
Proof.
  eapply emits_bind;
    [apply upload_loop_emits | | intros e evs [rs [_ [[=] _]]]].
  intros imageUrls evsU [rs [L [[= ->] [AU [_ [_ FU]]]]]].
  destruct rs as [|r [|r' rs]]; try discriminate.
  change ([] ++ map upload_url [r]) with [upload_url r].
  change (length [upload_url r] =? 1) with true. cbv iota.
  change (nth 0 [upload_url r] []) with (upload_url r).
  change (upload_calls [blob] (map upload_url [r]))
    with [Called (UploadImageToPublicServer blob); Returned (VString (upload_url r))] in AU.
  pose (create := CreateItemContainer (user_id user) (upload_url r) (accessToken user)
                    caption false).
  pose (request := item_request (user_id user) (upload_url r) (accessToken user)
                     caption false).
  assert (Why : encodable (upload_url r) = false
                \/ false = false /\ encodable caption = false ->
                encodable caption = false).
  { intros [E | [_ E]]; [|exact E]. rewrite upload_url_encodable in E. discriminate. }
  eapply emits_bind with
    (P := fun (out : Outcome jsstring) evs =>
            match out with
            | Fulfilled id =>
                exists container, id = data_id container
                  /\ api evs = [Called create; Returned (VData container)]
                  /\ (simulated (user_id user) = false ->
                      fetches evs = [Fetch request (Json container)])
                  /\ (simulated (user_id user) = true ->
                      fetches evs = [] /\ made_up_item container)
            | Rejected e =>
                api evs = [Called create]
                /\ (simulated (user_id user) = false ->
                    (e = URIError /\ encodable caption = false /\ fetches evs = [])
                    \/ exists answer,
                         fetches evs = [Fetch request answer]
                         /\ fetch_failure (Fetch request answer) = Some e)
                /\ (simulated (user_id user) = true ->
                    e = URIError /\ encodable caption = false /\ fetches evs = [])
            end).
  - eapply emits_bind; [apply notify_emits | | intros e evs [[=] _]].
    intros [] evs0 [_ ->].
    eapply emits_bind;
      [apply emits_conj; [apply createItemContainer_emits | apply createItemContainer_reply]
      | |].
    + intros container evs1 [[[A1 _] _] [N1 S1]]. apply emits_ret. rewrite app_nil_r.
      exists container. split; [reflexivity|].
      rewrite api_app, fetches_app, api_statuses, fetches_statuses, A1.
      split; [reflexivity|]. split; [exact N1 | exact S1].
    + intros e evs1 [[[A1 _] _] [N1 S1]].
      rewrite api_app, fetches_app, api_statuses, fetches_statuses, A1.
      split; [reflexivity|]. split.
      * intros M. destruct (N1 M) as [[-> [W F]] | H]; [left | right; exact H].
        repeat split; [apply Why; exact W | exact F].
      * intros M. destruct (S1 M) as [F [-> W]].
        repeat split; [apply Why; exact W | exact F].
  - intros id evsC [container [-> [AC [NC SC]]]].
    eapply emits_bind; [apply notify_emits | | intros e evs [[=] _]].
    intros [] evs0 [_ ->].
    eapply emits_bind;
      [apply emits_conj; [apply publishMedia_emits | apply publishMedia_reply] | |].
    + intros result evsP [[[AP _] _] [NP SP]]. apply emits_ret. rewrite app_nil_r.
      exists (upload_url r). right. exists container.
      rewrite !api_app, !fetches_app, api_statuses, fetches_statuses, AU, FU, AC, AP.
      split; [reflexivity|]. split.
      * intros M. exists (Json result). pose proof (NP M) as FP. cbv beta iota in FP.
        rewrite (NC M), FP. split; reflexivity.
      * intros M. destruct (SC M) as [FC Sh]. destruct (SP M) as [FP Sr].
        rewrite FC, FP. split; [reflexivity|]. split; [exact Sh|].
        exists result. split; [reflexivity | exact Sr].
    + intros e evsP [[[AP _] _] [NP SP]].
      exists (upload_url r). right. exists container.
      rewrite !api_app, !fetches_app, api_statuses, fetches_statuses, AU, FU, AC, AP.
      split; [reflexivity|]. split.
      * intros M. destruct (NP M) as [[_ [[] _]] | [answer [FP Hf]]].
        exists answer. rewrite (NC M), FP. split; [reflexivity | exact Hf].
      * intros M. destruct (SP M) as [_ [_ []]].
  - intros e evsC [AC [NC SC]].
    exists (upload_url r). left. exists e. split; [reflexivity|].
    rewrite api_app, fetches_app, AU, FU, AC.
    split; [reflexivity|]. split; [exact NC | exact SC].
Qed.

(** C2: with exactly one asset the run never makes a carousel-root call.
    It uploads the blob and makes one container call on the returned
    address, not a carousel item and with the caption; when that call
    returns it makes the finalize call on the id of the returned container,
    whether the finalize call then returns or throws, and when it throws
    the run ends with the container call.  What the calls do is fixed as
    well: for a connected account the container call sends the one request
    with the encoded address and the encoded caption, without
    [is_carousel_item], and returns the container it is answered with, and
    the finalize call sends the one request with the id of that container;
    for the sentinel account nothing is sent and the container and the
    result are made up.  A run in which no step fails is the upload, the
    container call and the finalize call, each with its return. *)
Theorem single_image_call_sequence env user blob caption onProgress out tr :
  publishCarouselToInstagram env user [blob] caption onProgress [] = (out, tr) ->
  (forall c, In c (calls tr) -> is_carousel_call c = false)
  /\ single_image_run user blob caption out (api tr) (fetches tr)
  /\ (forall result, out = Fulfilled result ->
      exists (url : jsstring) (container : GraphData),
        api tr
        = [Called (UploadImageToPublicServer blob);
           Returned (VString url);
           Called (CreateItemContainer (user_id user) url (accessToken user) caption false);
           Returned (VData container);
           Called (PublishMedia (user_id user) (data_id container) (accessToken user));
           Returned (VData result)]
        /\ (simulated (user_id user) = false ->
            fetches tr
            = [Fetch (item_request (user_id user) url (accessToken user) caption false)
                 (Json container);
               Fetch (publish_request (user_id user) (data_id container)
                        (accessToken user)) (Json result)])
        /\ (simulated (user_id user) = true ->
            fetches tr = [] /\ made_up_item container /\ made_up_media result)).
Proof.
  intros R.
  assert (Run : single_image_run user blob caption out (api tr) (fetches tr)).
  { pose proof R as R'. unfold publishCarouselToInstagram in R'.
    eapply emits_run in R';
      [|apply emits_logged, (single_run_reply env user blob caption onProgress)].
    destruct R' as [evs [-> [evs0 [-> H]]]]. cbn [app].
    rewrite api_logged, fetches_logged. exact H. }
  split; [|split; [exact Run|]].
  - destruct (publish_run _ _ _ _ _ R) as [evs0 [-> [_ [_ [_ [_ [NC _]]]]]]].
    intros c Hc. apply NC; [reflexivity|].
    destruct out; simpl in Hc; [exact Hc|].
    rewrite calls_app, in_app_iff in Hc. destruct Hc as [Hc | []]. exact Hc.
  - intros result ->.
    destruct Run as [url [[e [[=] _]] | [container [A [N S]]]]].
    exists url, container. split; [exact A|]. split.
    + intros M. destruct (N M) as [answer [F ->]]. exact F.
    + intros M. destruct (S M) as [F [Sh [result' [[= <-] Sr]]]].
      repeat split; assumption.
Qed.

Lemma single_image_call_sequence_one_slide :
  (publishCarouselToInstagram accepting_env connected_user [slide 1] (lit "One slide") true []
   = (Fulfilled (mkData None (lit "17841400")),
      snd (publishCarouselToInstagram accepting_env connected_user [slide 1]
             (lit "One slide") true []))
   /\ simulated (user_id connected_user) = false)
  /\ length (calls (snd (publishCarouselToInstagram accepting_env connected_user [slide 1]
                           (lit "One slide") true []))) = 3
  /\ exists (url : jsstring) (container : GraphData),
       fetches (snd (publishCarouselToInstagram accepting_env connected_user [slide 1]
                       (lit "One slide") true []))
       = [Fetch (item_request (user_id connected_user) url (accessToken connected_user)
                   (lit "One slide") false) (Json container);
          Fetch (publish_request (user_id connected_user) (data_id container)
                   (accessToken connected_user))
            (Json (mkData None (lit "17841400")))].
Proof.
  assert (R : publishCarouselToInstagram accepting_env connected_user [slide 1]
                (lit "One slide") true []
              = (Fulfilled (mkData None (lit "17841400")),
                 snd (publishCarouselToInstagram accepting_env connected_user [slide 1]
                        (lit "One slide") true [])))
    by (vm_compute; reflexivity).
  assert (M : simulated (user_id connected_user) = false) by reflexivity.
  split; [split; assumption|]. split; [reflexivity|].
  destruct (proj2 (proj2 (single_image_call_sequence _ _ _ _ _ R)) _ eq_refl)
    as [url [container [_ [F _]]]].
  exists url, container. exact (F M).
Defined.

End WorkflowProperties.

(** * More on the markup engine: one tagged span *)

Section SpanProperties.

Import Editor.

Ltac compare_code_units H :=
  cbn -[N.eqb] in H;
  repeat match type of H with
         | context [N.eqb ?a ?b] =>
             first [is_var a | is_var b]; destruct (N.eqb a b); cbn -[N.eqb] in H
         end;
  cbn in H; try discriminate.

Lemma openTag_cases tag : In (openTag tag) [b_open; mark_open].
Proof. destruct tag; simpl; tauto. Qed.

Lemma closeTag_cases tag : In (closeTag tag) [b_close; mark_close].
Proof. destruct tag; simpl; tauto. Qed.

(** No opening tag starts in a text without one and ends inside an
    opening tag put behind it. *)
Lemma open_not_across (o open t rest : jsstring) :
  In o [b_open; mark_open] -> In open [b_open; mark_open] ->
  t <> [] -> startsWith o t = false ->
  startsWith o (t ++ open ++ rest) = false.
Proof.
  intros Ho Hopen NE Hs.
  destruct (startsWith o (t ++ open ++ rest)) eqn:E; [exfalso | reflexivity].
  pose proof (startsWith_app_short o t (open ++ rest) E Hs) as L.
  destruct t as [|c t]; [congruence|].
  destruct Ho as [<- | [<- | []]], Hopen as [<- | [<- | []]];
    do 5 (destruct t as [|? t];
          [first [solve [compare_code_units E] | simpl in L; lia]|]);
    simpl in L; lia.
Qed.

(** No closing tag starts in a text without one and ends inside the same
    closing tag put behind it. *)
Lemma close_not_across (close t rest : jsstring) :
  In close [b_close; mark_close] ->
  t <> [] -> startsWith close t = false ->
  startsWith close (t ++ close ++ rest) = false.
Proof.
  intros Hc NE Hs.
  destruct (startsWith close (t ++ close ++ rest)) eqn:E; [exfalso | reflexivity].
  pose proof (startsWith_app_short close t (close ++ rest) E Hs) as L.
  destruct t as [|c t]; [congruence|].
  destruct Hc as [<- | [<- | []]];
    do 6 (destruct t as [|? t];
          [first [solve [compare_code_units E] | simpl in L; lia]|]);
    simpl in L; lia.
Qed.

Lemma span_at_not_started open close s :
  startsWith open s = false -> span_at open close s = None.
Proof. unfold span_at. intros ->. reflexivity. Qed.

Lemma no_opening_tag_parts s :
  no_opening_tag s = true -> includes b_open s = false /\ includes mark_open s = false.
Proof. unfold no_opening_tag. rewrite andb_true_iff, !negb_true_iff. tauto. Qed.

(** Text without an opening tag in front of a tag stays in one piece with
    whatever the scan finds in front of that tag. *)
Lemma split_tags_before before open rest :
  In open [b_open; mark_open] -> no_opening_tag before = true ->
  split_tags (before ++ open ++ rest)
  = match split_tags (open ++ rest) with
    | p :: ps => (before ++ p) :: ps
    | [] => [before]
    end.
Proof.
  intros Ho H. apply no_opening_tag_parts in H as [Hb Hm].
  induction before as [|c before IH].
  - simpl app. destruct (split_tags (open ++ rest)) eqn:E; [|reflexivity].
    exfalso. exact (split_tags_not_nil _ E).
  - change ((c :: before) ++ open ++ rest) with (c :: before ++ open ++ rest).
    rewrite split_tags_no_match.
    + rewrite IH by (eapply includes_false_tail; eassumption).
      destruct (split_tags (open ++ rest)); reflexivity.
    + unfold tag_at.
      change (c :: before ++ open ++ rest) with ((c :: before) ++ open ++ rest).
      rewrite !span_at_not_started; [reflexivity | |];
        (apply open_not_across;
         [ first [left; reflexivity | right; left; reflexivity]
         | exact Ho | discriminate
         | apply includes_false_startsWith; assumption ]).
Qed.

Lemma lazy_until_unfold close s :
  lazy_until close s
  = if startsWith close s then Some (length close)
    else match s with
         | [] => None
         | c :: rest =>
             if is_line_terminator c then None else option_map S (lazy_until close rest)
         end.
Proof. destruct s; reflexivity. Qed.

Lemma startsWith_self p rest : startsWith p (p ++ rest) = true.
Proof. apply startsWith_app. exists rest. reflexivity. Qed.

(** The lazy star runs over a body without line terminators and without
    the closing tag, and stops at the closing tag behind it. *)
Lemma lazy_until_body close body rest :
  In close [b_close; mark_close] ->
  no_line_terminator body = true -> includes close body = false ->
  lazy_until close (body ++ close ++ rest) = Some (length body + length close).
Proof.
  intros Hc. induction body as [|c body IH]; intros HT HI.
  - simpl app. rewrite lazy_until_unfold, startsWith_self. reflexivity.
  - assert (N : startsWith close ((c :: body) ++ close ++ rest) = false)
      by (apply close_not_across;
          [exact Hc | discriminate | apply includes_false_startsWith; exact HI]).
    change ((c :: body) ++ close ++ rest) with (c :: body ++ close ++ rest) in *.
    rewrite lazy_until_unfold, N.
    cbn [no_line_terminator forallb] in HT. apply andb_true_iff in HT as [Hc0 HT].
    apply negb_true_iff in Hc0. rewrite Hc0.
    rewrite IH; [reflexivity | exact HT | eapply includes_false_tail; exact HI].
Qed.

Lemma tag_at_span tag body rest :
  no_line_terminator body = true -> includes (closeTag tag) body = false ->
  tag_at (openTag tag ++ body ++ closeTag tag ++ rest)
  = Some (length (openTag tag ++ body ++ closeTag tag)).
Proof.
  intros HT HI. rewrite !length_app.
  pose proof (@lazy_until_body (closeTag tag) body rest (closeTag_cases tag) HT HI) as L.
  unfold tag_at. destruct tag.
  - unfold span_at. change (openTag TagB) with b_open in *.
    change (closeTag TagB) with b_close in *.
    rewrite startsWith_self, skipn_app, skipn_all, Nat.sub_diag.
    cbn [skipn app]. rewrite L. reflexivity.
  - change (openTag TagMark) with mark_open in *.
    change (closeTag TagMark) with mark_close in *.
    rewrite (span_at_not_started b_open b_close) by reflexivity.
    unfold span_at.
    rewrite startsWith_self, skipn_app, skipn_all, Nat.sub_diag.
    cbn [skipn app]. rewrite L. reflexivity.
Qed.

Lemma split_tags_match_any s n :
  tag_at s = Some n ->
  split_tags s = [] :: firstn n s :: split_tags (skipn n s).
Proof.
  destruct s as [|c rest]; [discriminate|]. apply split_tags_match.
Qed.

Lemma firstn_length_app {A : Type} (l r : list A) : firstn (length l) (l ++ r) = l.
Proof.
  rewrite firstn_app, Nat.sub_diag, firstn_all. simpl. apply app_nil_r.
Qed.

Lemma skipn_length_app {A : Type} (l r : list A) : skipn (length l) (l ++ r) = r.
Proof. rewrite skipn_app, skipn_all, Nat.sub_diag. reflexivity. Qed.

Lemma split_tags_span tag body rest :
  no_line_terminator body = true -> includes (closeTag tag) body = false ->
  split_tags (openTag tag ++ body ++ closeTag tag ++ rest)
  = [] :: (openTag tag ++ body ++ closeTag tag) :: split_tags rest.
Proof.
  intros HT HI. rewrite (@split_tags_match_any _ _ (@tag_at_span tag body rest HT HI)).
  replace (openTag tag ++ body ++ closeTag tag ++ rest)
    with ((openTag tag ++ body ++ closeTag tag) ++ rest)
    by (rewrite <- !app_assoc; reflexivity).
  rewrite firstn_length_app, skipn_length_app. reflexivity.
Qed.

Lemma render_part_span tag body :
  render_part (openTag tag ++ body ++ closeTag tag) = tag_segment tag body.
Proof.
  unfold render_part. destruct tag.
  - change (openTag TagB) with b_open. change (closeTag TagB) with b_close.
    rewrite startsWith_self.
    assert (E : endsWith b_close (b_open ++ body ++ b_close) = true)
      by (apply endsWith_app; exists (b_open ++ body); rewrite <- app_assoc; reflexivity).
    rewrite E. cbn [andb tag_segment]. f_equal.
    apply (slice_middle b_open body b_close).
  - change (openTag TagMark) with mark_open. change (closeTag TagMark) with mark_close.
    assert (B : startsWith b_open (mark_open ++ body ++ mark_close) = false) by reflexivity.
    rewrite B, startsWith_self.
    assert (E : endsWith mark_close (mark_open ++ body ++ mark_close) = true)
      by (apply endsWith_app; exists (mark_open ++ body); rewrite <- app_assoc; reflexivity).
    rewrite E. cbn [andb tag_segment]. f_equal.
    apply (slice_middle mark_open body mark_close).
Qed.

Lemma render_part_no_opening part :
  no_opening_tag part = true -> render_part part = PlainText part.
Proof.
  intros H. apply no_opening_tag_parts in H as [Hb Hm]. unfold render_part.
  rewrite (includes_false_startsWith _ _ Hb), (includes_false_startsWith _ _ Hm).
  reflexivity.
Qed.

Lemma render_line_one_span tag before body after :
  no_opening_tag before = true ->
  no_line_terminator body = true ->
  includes (closeTag tag) body = false ->
  render_line (before ++ openTag tag ++ body ++ closeTag tag ++ after)
  = PlainText before :: tag_segment tag body :: render_line after.
Proof.
  intros HB HT HI. unfold render_line.
  rewrite split_tags_before by (apply openTag_cases || exact HB).
  rewrite split_tags_span by assumption.
  rewrite app_nil_r. cbn [map].
  rewrite render_part_no_opening by exact HB.
  rewrite render_part_span. reflexivity.
Qed.

(** X1: the engine reads well-formed markup back.  A line written as
    spans, each after text without an opening tag and with a body that
    holds no line terminator and not its own closing tag, and closed by a
    text in which no opening tag is followed by its closing tag, renders
    as exactly these texts and spans in order: the text before each span
    as a plain segment (an empty one when there is none), the body of each
    span as a Bold or Highlight segment, the closing text as a plain
    segment. *)
Theorem render_line_reads_markup (spans : list Span) (tail : jsstring) :
  forallb well_formed_span spans = true ->
  unmatched tail = true ->
  render_line (markup_of spans tail) = segments_of spans tail.
Proof.
  intros WF U. induction spans as [|sp spans IH].
  - apply render_line_unmatched, U.
  - cbn [forallb] in WF. apply andb_true_iff in WF as [W WF].
    unfold well_formed_span in W.
    apply andb_true_iff in W as [W HI]. apply andb_true_iff in W as [HB HT].
    apply negb_true_iff in HI.
    cbn [markup_of fold_right]. fold (markup_of spans tail).
    rewrite render_line_one_span by assumption.
    rewrite (IH WF). reflexivity.
Qed.

Lemma render_line_reads_markup_two :
  (forallb well_formed_span
     [mkSpan (lit "Stop ") TagB (lit "Guessing"); mkSpan (lit " now, ") TagMark (lit "today")]
   = true
   /\ unmatched (lit "!") = true)
  /\ render_line (lit "Stop <b>Guessing</b> now, <mark>today</mark>!")
     = [PlainText (lit "Stop "); Bold (lit "Guessing"); PlainText (lit " now, ");
        Highlight (lit "today"); PlainText (lit "!")].
Proof.
  assert (WF : forallb well_formed_span
                 [mkSpan (lit "Stop ") TagB (lit "Guessing");
                  mkSpan (lit " now, ") TagMark (lit "today")] = true) by reflexivity.
  assert (U : unmatched (lit "!") = true) by reflexivity.
  split; [split; assumption|].
  exact (render_line_reads_markup _ _ WF U).
Defined.

(** The lines of two texts put together: the last line of the first runs
    on into the first line of the second. *)
Lemma split_newline_join a b :
  split_newline (a ++ b)
  = removelast (split_newline a)
    ++ (last (split_newline a) [] ++ hd [] (split_newline b)) :: tl (split_newline b).
Proof.
  induction a as [|c a IH].
  - simpl. pose proof (split_newline_not_nil b) as NE.
    destruct (split_newline b); [congruence | reflexivity].
  - change ((c :: a) ++ b) with (c :: a ++ b).
    rewrite !split_newline_cons, IH.
    pose proof (split_newline_not_nil a) as NE.
    destruct (split_newline a) as [|l ls]; [congruence|].
    destruct (c =? LF)%N.
    + reflexivity.
    + destruct ls; reflexivity.
Qed.

Lemma no_line_terminator_no_LF s : no_line_terminator s = true -> ~ In LF s.
Proof.
  unfold no_line_terminator. rewrite forallb_forall. intros H I.
  specialize (H _ I). discriminate.
Qed.

Lemma no_line_terminator_app a b :
  no_line_terminator (a ++ b) = no_line_terminator a && no_line_terminator b.
Proof. apply forallb_app. Qed.

Lemma tag_free_no_opening s : tag_free s = true -> no_opening_tag s = true.
Proof.
  intros H. apply tag_free_parts in H as [[Hb _] [Hm _]].
  unfold no_opening_tag. rewrite Hb, Hm. reflexivity.
Qed.

Lemma includes_false_app_l p a b : includes p (a ++ b) = false -> includes p a = false.
Proof.
  intros H. destruct (includes p a) eqn:E; [|reflexivity].
  apply includes_app in E as [x [y ->]].
  assert (I : includes p ((x ++ p ++ y) ++ b) = true).
  { apply includes_app. exists x, (y ++ b). rewrite <- !app_assoc. reflexivity. }
  congruence.
Qed.

Lemma includes_false_app_r p a b : includes p (a ++ b) = false -> includes p b = false.
Proof.
  intros H. destruct (includes p b) eqn:E; [|reflexivity].
  apply includes_app in E as [x [y ->]].
  assert (I : includes p (a ++ x ++ p ++ y) = true).
  { apply includes_app. exists (a ++ x), y. rewrite <- !app_assoc. reflexivity. }
  congruence.
Qed.

Lemma tag_free_app a b : tag_free (a ++ b) = true -> tag_free a = true /\ tag_free b = true.
Proof.
  intros H. apply tag_free_parts in H as [[H1 H2] [H3 H4]]. unfold tag_free.
  rewrite (includes_false_app_l _ _ _ H1), (includes_false_app_l _ _ _ H2),
    (includes_false_app_l _ _ _ H3), (includes_false_app_l _ _ _ H4),
    (includes_false_app_r _ _ _ H1), (includes_false_app_r _ _ _ H2),
    (includes_false_app_r _ _ _ H3), (includes_false_app_r _ _ _ H4).
  split; reflexivity.
Qed.

Lemma In_removelast {A : Type} (x : A) l : In x (removelast l) -> In x l.
Proof.
  induction l as [|a l IH]; [intros []|].
  simpl. destruct l as [|b l]; [intros []|].
  intros [<- | H]; [left; reflexivity | right; apply IH, H].
Qed.

Lemma In_last {A : Type} (l : list A) d : l <> [] -> In (last l d) l.
Proof.
  induction l as [|a l IH]; [congruence|]. intros _.
  destruct l as [|b l]; [left; reflexivity|].
  right. apply IH. discriminate.
Qed.

Lemma In_hd {A : Type} (l : list A) d : l <> [] -> In (hd d l) l.
Proof. destruct l; [congruence | left; reflexivity]. Qed.

Lemma In_tl {A : Type} (x : A) l : In x (tl l) -> In x l.
Proof. destruct l; [intros [] | right; assumption]. Qed.

(** The three parts [handleFormatText] cuts a text into, for a selection
    inside the text. *)
Lemma selection_parts start end_ (text : jsstring) :
  start <= end_ -> end_ <= length text ->
  substring 0 start text = firstn start text
  /\ substring start end_ text = firstn (end_ - start) (skipn start text)
  /\ text = firstn start text ++ firstn (end_ - start) (skipn start text)
            ++ substring_from end_ text.
Proof.
  intros H1 H2. unfold substring, substring_from.
  rewrite !Nat.min_0_l, !Nat.max_0_l, Nat.sub_0_r.
  rewrite (Nat.min_l start), (Nat.min_l end_), (Nat.min_l start end_),
    (Nat.max_r start end_) by lia.
  split; [reflexivity|]. split; [reflexivity|].
  rewrite <- (firstn_skipn start text) at 1. f_equal.
  rewrite <- (firstn_skipn (end_ - start) (skipn start text)) at 1. f_equal.
  rewrite skipn_skipn. f_equal. lia.
Qed.

(** X2: wrapping a selection that lies within one line of a tag-free body
    makes the engine show that line as the text before the selection, one
    Bold or Highlight segment holding exactly the selected text, and the
    text after it; every other line stays one plain segment. *)
Theorem wrapped_selection_renders tag start end_ (text : jsstring) :
  start < end_ -> end_ <= length text ->
  tag_free text = true ->
  no_line_terminator (substring start end_ text) = true ->
  lines_of (renderFormattedText (wrap_selection tag start end_ text))
  = map plain_line (removelast (split_newline (substring 0 start text)))
    ++ [PlainText (last (split_newline (substring 0 start text)) []);
        tag_segment tag (substring start end_ text);
        PlainText (hd [] (split_newline (substring_from end_ text)))]
       :: map plain_line (tl (split_newline (substring_from end_ text))).
Proof.
  intros Hlt Hle TF NT.
  destruct (@selection_parts start end_ text) as [Eb [Es Et]]; [lia | lia |].
  unfold wrap_selection. rewrite Eb, Es in *.
  set (before := firstn start text) in *.
  set (selection := firstn (end_ - start) (skipn start text)) in *.
  set (after := substring_from end_ text) in *.
  rewrite Et in TF. apply tag_free_app in TF as [TFb TF].
  apply tag_free_app in TF as [TFs TFa].
  rewrite lines_of_render by (destruct before, tag; discriminate).
  set (span := openTag tag ++ selection ++ closeTag tag).
  assert (Lspan : ~ In LF span).
  { unfold span. intros I. apply in_app_or in I as [I | I];
      [|apply in_app_or in I as [I | I]].
    - destruct tag; simpl in I; repeat (destruct I as [I | I]; [discriminate|]); exact I.
    - exact (no_line_terminator_no_LF _ NT I).
    - destruct tag; simpl in I; repeat (destruct I as [I | I]; [discriminate|]); exact I. }
  replace (before ++ openTag tag ++ selection ++ closeTag tag ++ after)
    with (before ++ span ++ after) by (unfold span; rewrite <- !app_assoc; reflexivity).
  rewrite split_newline_join, (split_newline_join span after).
  rewrite (@split_newline_single span Lspan). cbn [removelast last hd tl app].
  pose proof (split_newline_not_nil before) as NEb.
  pose proof (split_newline_not_nil after) as NEa.
  rewrite map_app. cbn [map]. f_equal; [|f_equal].
  - apply map_ext_in. intros line Hin.
    apply render_line_unmatched, tag_free_unmatched.
    apply (tag_free_line _ _ TFb). apply In_removelast, Hin.
  - unfold span. rewrite <- !app_assoc.
    rewrite render_line_one_span.
    + rewrite render_line_unmatched; [reflexivity|].
      apply tag_free_unmatched, (tag_free_line _ _ TFa), In_hd, NEa.
    + apply tag_free_no_opening, (tag_free_line _ _ TFb), In_last, NEb.
    + exact NT.
    + apply tag_free_parts in TFs as [[_ H1] [_ H2]]. destruct tag; assumption.
  - apply map_ext_in. intros line Hin.
    apply render_line_unmatched, tag_free_unmatched.
    apply (tag_free_line _ _ TFa). apply In_tl, Hin.
Qed.

Lemma wrapped_selection_renders_framework :
  (4 < 17 /\ 17 <= length (lit "Use H.I.T. system:" ++ LF :: lit "1. Hook")
   /\ tag_free (lit "Use H.I.T. system:" ++ LF :: lit "1. Hook") = true)
  /\ lines_of (renderFormattedText
                 (wrap_selection TagB 4 17 (lit "Use H.I.T. system:" ++ LF :: lit "1. Hook")))
     = [[PlainText (lit "Use "); Bold (lit "H.I.T. system"); PlainText (lit ":")];
        [PlainText (lit "1. Hook")]].
Proof.
  assert (H1 : 4 < 17) by lia.
  assert (H2 : 17 <= length (lit "Use H.I.T. system:" ++ LF :: lit "1. Hook"))
    by (simpl; lia).
  assert (H3 : tag_free (lit "Use H.I.T. system:" ++ LF :: lit "1. Hook") = true)
    by reflexivity.
  split; [repeat split; assumption|].
  exact (@wrapped_selection_renders TagB 4 17 _ H1 H2 H3 eq_refl).
Defined.

(** A closing tag does not begin in a text without it and end inside the
    other closing tag put behind it. *)
Lemma close_not_across_other (c c' t : jsstring) :
  In c [b_close; mark_close] -> In c' [b_close; mark_close] -> c <> c' ->
  includes c t = false -> includes c (t ++ c') = false.
Proof.
  intros Hc Hc' D. induction t as [|x t IH]; intros H.
  - destruct Hc as [<- | [<- | []]], Hc' as [<- | [<- | []]];
      try congruence; reflexivity.
  - rewrite includes_unfold in H. apply orb_false_iff in H as [Hs Hi].
    change ((x :: t) ++ c') with (x :: t ++ c').
    rewrite includes_unfold, (IH Hi), orb_false_r.
    destruct (startsWith c (x :: t ++ c')) eqn:E; [exfalso | reflexivity].
    pose proof (startsWith_app_short c (x :: t) c' E Hs) as L.
    destruct Hc as [<- | [<- | []]], Hc' as [<- | [<- | []]]; try congruence;
      do 6 (destruct t as [|? t];
            [first [solve [compare_code_units E] | simpl in L; lia]|]);
      simpl in L; lia.
Qed.

Lemma no_line_terminator_tags tag :
  no_line_terminator (openTag tag) = true /\ no_line_terminator (closeTag tag) = true.
Proof. destruct tag; split; reflexivity. Qed.

(** X10: nested tags are not interpreted.  Around a tag-free text on one
    line, a span inside a span of the other tag shows the inner tags as
    text of the outer segment; a span inside a span of the same tag ends
    at the first closing tag, so the segment begins with the inner opening
    tag and the second closing tag is left over as plain text. *)
Theorem nested_tags_are_literal outer inner x :
  no_line_terminator x = true -> tag_free x = true ->
  (outer <> inner ->
     render_line (openTag outer ++ openTag inner ++ x ++ closeTag inner ++ closeTag outer)
     = [PlainText []; tag_segment outer (openTag inner ++ x ++ closeTag inner);
        PlainText []])
  /\ render_line (openTag outer ++ openTag outer ++ x ++ closeTag outer ++ closeTag outer)
     = [PlainText []; tag_segment outer (openTag outer ++ x); PlainText (closeTag outer)].
Proof.
  intros NT TF. apply tag_free_parts in TF as [[_ Hb] [_ Hm]].
  assert (Hx : forall tag, includes (closeTag tag) x = false)
    by (intros []; assumption).
  split.
  - intros D.
    pose proof (@render_line_one_span outer [] (openTag inner ++ x ++ closeTag inner) [])
      as R.
    cbn [app] in R. rewrite <- !app_assoc, app_nil_r in R. rewrite R; [reflexivity.. | |].
    + rewrite !no_line_terminator_app, NT.
      destruct (no_line_terminator_tags inner) as [-> ->]. reflexivity.
    + rewrite app_assoc. apply close_not_across_other;
        [apply closeTag_cases | apply closeTag_cases
        | destruct outer, inner; congruence || discriminate |].
      apply no_close_after_open; [apply openTag_cases | apply closeTag_cases | apply Hx].
  - pose proof (@render_line_one_span outer [] (openTag outer ++ x) (closeTag outer)) as R.
    cbn [app] in R. rewrite <- !app_assoc in R. rewrite R.
    + destruct outer; reflexivity.
    + reflexivity.
    + rewrite no_line_terminator_app, NT.
      destruct (no_line_terminator_tags outer) as [-> _]. reflexivity.
    + apply no_close_after_open; [apply openTag_cases | apply closeTag_cases | apply Hx].
Qed.

Lemma nested_tags_are_literal_x :
  (no_line_terminator (lit "x") = true /\ tag_free (lit "x") = true /\ TagB <> TagMark)
  /\ render_line (lit "<b><mark>x</mark></b>")
     = [PlainText []; Bold (lit "<mark>x</mark>"); PlainText []].
Proof.
  assert (NT : no_line_terminator (lit "x") = true) by reflexivity.
  assert (TF : tag_free (lit "x") = true) by reflexivity.
  assert (D : TagB <> TagMark) by discriminate.
  split; [repeat split; assumption|].
  exact (proj1 (@nested_tags_are_literal TagB TagMark (lit "x") NT TF) D).
Defined.

Lemma startsWith_angle o c s :
  In o [b_open; mark_open; b_close; mark_close] -> (c =? 60)%N = false ->
  startsWith o (c :: s) = false.
Proof.
  intros Ho Hc.
  assert (E : (60 =? c)%N = false) by (rewrite N.eqb_sym; exact Hc).
  destruct Ho as [<- | [<- | [<- | [<- | []]]]]; cbn -[N.eqb]; rewrite E; reflexivity.
Qed.

Lemma no_angle_cons c s :
  no_angle (c :: s) = true -> (c =? 60)%N = false /\ no_angle s = true.
Proof.
  unfold no_angle. cbn [forallb]. intros H. apply andb_true_iff in H as [H1 H2].
  split; [apply negb_true_iff; exact H1 | exact H2].
Qed.

Lemma includes_no_angle o s :
  In o [b_open; mark_open] -> no_angle s = true -> includes o s = false.
Proof.
  intros Ho. induction s as [|c s IH]; intros H.
  - destruct Ho as [<- | [<- | []]]; reflexivity.
  - apply no_angle_cons in H as [Hc H]. rewrite includes_cons, (IH H), orb_false_r.
    apply startsWith_angle; [|exact Hc].
    destruct Ho as [<- | [<- | []]]; simpl; auto.
Qed.

Lemma includes_opening_before_close o u close :
  In o [b_open; mark_open] -> In close [b_close; mark_close] ->
  no_angle u = true -> includes o (u ++ close) = false.
Proof.
  intros Ho Hc. induction u as [|c u IH]; intros H.
  - destruct Ho as [<- | [<- | []]], Hc as [<- | [<- | []]]; reflexivity.
  - apply no_angle_cons in H as [Ha H]. cbn [app].
    rewrite includes_cons, (IH H), orb_false_r.
    apply startsWith_angle; [|exact Ha].
    destruct Ho as [<- | [<- | []]]; simpl; auto.
Qed.

Lemma lazy_until_terminator close body tail :
  In close [b_close; mark_close] ->
  no_angle body = true -> no_line_terminator body = false ->
  lazy_until close (body ++ tail) = None.
Proof.
  intros Hc. induction body as [|c body IH]; intros Ha Ht; [discriminate|].
  apply no_angle_cons in Ha as [Hn Ha]. cbn [app].
  rewrite lazy_until_unfold, startsWith_angle;
    [| destruct Hc as [<- | [<- | []]]; simpl; auto | exact Hn].
  unfold no_line_terminator in Ht. cbn [forallb] in Ht.
  destruct (is_line_terminator c); [reflexivity|]. cbn [negb andb] in Ht.
  rewrite (IH Ha Ht). reflexivity.
Qed.

Lemma no_angle_app a b : no_angle a = true -> no_angle b = true -> no_angle (a ++ b) = true.
Proof.
  unfold no_angle. intros Ha Hb. rewrite forallb_app.
  apply andb_true_iff. split; assumption.
Qed.

(** The split finds no span where the body holds a character that [.]
    refuses. *)
Lemma split_tags_broken_span tag body :
  no_angle body = true -> no_line_terminator body = false ->
  split_tags (openTag tag ++ body ++ closeTag tag)
  = [openTag tag ++ body ++ closeTag tag].
Proof.
  intros Ha Ht.
  assert (Hc : In (closeTag tag) [b_close; mark_close]) by apply closeTag_cases.
  pose proof (fun tail => @lazy_until_terminator (closeTag tag) body tail Hc Ha Ht) as L.
  assert (U : forall u, no_angle u = true ->
            split_tags ((u ++ body) ++ closeTag tag) = [(u ++ body) ++ closeTag tag]).
  { intros u Hu. apply split_tags_unmatched, no_open_unmatched;
      apply includes_opening_before_close; simpl; auto using no_angle_app. }
  destruct tag.
  - change (openTag TagB ++ body ++ closeTag TagB)
      with (60%N :: (lit "b>" ++ body) ++ closeTag TagB).
    rewrite split_tags_no_match, (U (lit "b>") eq_refl); [reflexivity|].
    unfold tag_at, span_at.
    change (startsWith b_open (60%N :: (lit "b>" ++ body) ++ closeTag TagB)) with true.
    change (startsWith mark_open (60%N :: (lit "b>" ++ body) ++ closeTag TagB)) with false.
    change (skipn (length b_open) (60%N :: (lit "b>" ++ body) ++ closeTag TagB))
      with (body ++ closeTag TagB).
    change b_close with (closeTag TagB). rewrite (L (closeTag TagB)). reflexivity.
  - change (openTag TagMark ++ body ++ closeTag TagMark)
      with (60%N :: (lit "mark>" ++ body) ++ closeTag TagMark).
    rewrite split_tags_no_match, (U (lit "mark>") eq_refl); [reflexivity|].
    unfold tag_at, span_at.
    change (startsWith b_open (60%N :: (lit "mark>" ++ body) ++ closeTag TagMark)) with false.
    change (startsWith mark_open (60%N :: (lit "mark>" ++ body) ++ closeTag TagMark)) with true.
    change (skipn (length mark_open) (60%N :: (lit "mark>" ++ body) ++ closeTag TagMark))
      with (body ++ closeTag TagMark).
    change mark_close with (closeTag TagMark). rewrite (L (closeTag TagMark)). reflexivity.
Qed.

(** X24: a line terminator other than the line feed breaks the pattern but
    not the test of the pieces.  When the body of a span holds a character
    that [.] refuses, the split finds no span; yet a line that is nothing
    but this span still starts with the opening tag and ends with the
    closing tag, and is shown as one Bold or Highlight segment, without
    the empty plain segments around it; with text before it on the line,
    the whole line is shown as it is, tags included. *)
Theorem line_terminator_in_span tag body before :
  no_angle body = true -> no_line_terminator body = false ->
  no_angle before = true -> before <> [] ->
  render_line (openTag tag ++ body ++ closeTag tag) = [tag_segment tag body]
  /\ render_line (before ++ openTag tag ++ body ++ closeTag tag)
     = [PlainText (before ++ openTag tag ++ body ++ closeTag tag)].
Proof.
  intros Ha Ht Hb Hn. unfold render_line. split.
  - rewrite (@split_tags_broken_span tag body Ha Ht). cbn [map].
    rewrite render_part_span. reflexivity.
  - rewrite split_tags_before;
      [| apply openTag_cases
       | unfold no_opening_tag; rewrite !includes_no_angle by (simpl; auto); reflexivity].
    rewrite (@split_tags_broken_span tag body Ha Ht). cbn [map]. f_equal.
    destruct before as [|c before]; [congruence|].
    apply no_angle_cons in Hb as [Hc _].
    unfold render_part. cbn [app].
    rewrite !startsWith_angle by (simpl; auto). reflexivity.
Qed.

Lemma line_terminator_in_span_carriage_return :
  (no_angle (lit "a" ++ [13%N] ++ lit "b") = true
   /\ no_line_terminator (lit "a" ++ [13%N] ++ lit "b") = false
   /\ no_angle (lit "x") = true)
  /\ render_line (lit "<b>a" ++ [13%N] ++ lit "b</b>")
     = [Bold (lit "a" ++ [13%N] ++ lit "b")]
  /\ render_line (lit "x<b>a" ++ [13%N] ++ lit "b</b>")
     = [PlainText (lit "x<b>a" ++ [13%N] ++ lit "b</b>")].
Proof.
  assert (Ha : no_angle (lit "a" ++ [13%N] ++ lit "b") = true) by reflexivity.
  assert (Ht : no_line_terminator (lit "a" ++ [13%N] ++ lit "b") = false) by reflexivity.
  assert (Hb : no_angle (lit "x") = true) by reflexivity.
  assert (Hn : lit "x" <> []) by discriminate.
  split; [repeat split; assumption|].
  exact (@line_terminator_in_span TagB (lit "a" ++ [13%N] ++ lit "b") (lit "x") Ha Ht Hb Hn).
Defined.

End SpanProperties.

(** * Properties of the editor state *)

Section EditorProperties.

Import Editor.

Lemma spread_body_id s newText :
  slide_id (spread s (mkUpdates None None None (Some newText) None None)) = slide_id s.
Proof. reflexivity. Qed.

Lemma find_map_same_key (f : Slide -> bool) (g : Slide -> Slide) l :
  (forall s, f (g s) = f s) -> find f (map g l) = option_map g (find f l).
Proof.
  intros H. induction l as [|s l IH]; [reflexivity|].
  simpl. rewrite H. destruct (f s); [reflexivity | exact IH].
Qed.

Lemma selectedSlide_of_id st slide :
  slide_of_selected_id st = Some slide -> selectedSlide st = Some slide.
Proof. unfold slide_of_selected_id, selectedSlide. intros ->. reflexivity. Qed.

Lemma find_some_key st slide :
  slide_of_selected_id st = Some slide -> jseqb (slide_id slide) (selectedSlideId st) = true.
Proof. unfold slide_of_selected_id. intros H. apply find_some in H. apply H. Qed.

Lemma map_id_updateSlide_body id newText st :
  map slide_id (slides (updateSlide id (mkUpdates None None None (Some newText) None None) st))
  = map slide_id (slides st).
Proof.
  unfold updateSlide. cbn [slides]. rewrite map_map. apply map_ext.
  intros s. destruct (jseqb (slide_id s) id); reflexivity.
Qed.

(** The restored selection lies around the selected text. *)
Lemma substring_wrapped tag start end_ (text : jsstring) :
  start <= end_ -> end_ <= length text ->
  substring (start + length (openTag tag)) (end_ + length (openTag tag))
    (wrap_selection tag start end_ text)
  = substring start end_ text.
Proof.
  intros H1 H2.
  destruct (@selection_parts start end_ text H1 H2) as [Eb [Es Et]].
  unfold wrap_selection. rewrite Eb, Es.
  set (before := firstn start text).
  set (selection := firstn (end_ - start) (skipn start text)).
  assert (Lb : length before = start) by (unfold before; rewrite length_firstn; lia).
  assert (Ls : length selection = end_ - start)
    by (unfold selection; rewrite length_firstn, length_skipn; lia).
  unfold substring. rewrite !length_app, Lb, Ls.
  set (lo := length (openTag tag)). set (lc := length (closeTag tag)).
  set (la := length (substring_from end_ text)).
  rewrite (Nat.min_l (start + lo)), (Nat.min_l (end_ + lo)),
    (Nat.min_l (start + lo) (end_ + lo)), (Nat.max_r (start + lo) (end_ + lo)) by lia.
  replace (end_ + lo - (start + lo)) with (length selection) by lia.
  replace (before ++ openTag tag ++ selection ++ closeTag tag ++ substring_from end_ text)
    with ((before ++ openTag tag) ++ selection ++ closeTag tag ++ substring_from end_ text)
    by (rewrite <- !app_assoc; reflexivity).
  replace (start + lo) with (length (before ++ openTag tag))
    by (rewrite length_app; unfold lo; lia).
  rewrite skipn_length_app, firstn_length_app. reflexivity.
Qed.

(** X3: when the selected id is the id of a slide and the selection lies
    inside its body, [handleFormatText] gives that slide the wrapped body,
    keeps the ids of all slides and the selected id, and restores a
    selection that covers the same text as before, now inside the tags. *)
Theorem handleFormatText_keeps_selection tag start end_ st slide :
  slide_of_selected_id st = Some slide ->
  start < end_ -> end_ <= length (body slide) ->
  exists st' sel' slide',
    handleFormatText tag (Some (mkSelection start end_)) st = Fulfilled (st', Some sel')
    /\ slide_of_selected_id st' = Some slide'
    /\ body slide' = wrap_selection tag start end_ (body slide)
    /\ substring (selectionStart sel') (selectionEnd sel') (body slide')
       = substring start end_ (body slide)
    /\ map slide_id (slides st') = map slide_id (slides st)
    /\ selectedSlideId st' = selectedSlideId st.
Proof.
  intros Hf Hlt Hle. unfold handleFormatText. cbn [selectionStart selectionEnd].
  rewrite (selectedSlide_of_id _ Hf).
  assert (E : (start =? end_) = false) by (apply Nat.eqb_neq; lia). rewrite E.
  fold (wrap_selection tag start end_ (body slide)).
  set (newText := wrap_selection tag start end_ (body slide)).
  set (upd := mkUpdates None None None (Some newText) None None).
  eexists. eexists. exists (spread slide upd).
  split; [reflexivity|]. split; [|split; [reflexivity | split; [|split]]].
  - unfold slide_of_selected_id, updateSlide. cbn [slides selectedSlideId].
    rewrite find_map_same_key.
    + unfold slide_of_selected_id in Hf. rewrite Hf. cbn [option_map].
      rewrite (find_some_key _ Hf). reflexivity.
    + intros s. destruct (jseqb (slide_id s) (selectedSlideId st)) eqn:K; exact K.
  - cbn [selectionStart selectionEnd spread upd body set_body].
    apply substring_wrapped; lia.
  - apply map_id_updateSlide_body.
  - reflexivity.
Qed.

Lemma handleFormatText_keeps_selection_initial :
  (slide_of_selected_id initial_state = nth_error INITIAL_SLIDES 0 /\ 4 < 10)
  /\ exists st',
       handleFormatText TagMark (Some (mkSelection 4 10)) initial_state
       = Fulfilled (st', Some (mkSelection 10 16))
       /\ option_map body (slide_of_selected_id st')
          = Some (lit "The <mark>secret</mark> to viral content is not luck, it's <mark>psychology</mark>.").
Proof.
  assert (Hf : slide_of_selected_id initial_state = nth_error INITIAL_SLIDES 0)
    by reflexivity.
  assert (Hlt : 4 < 10) by lia.
  split; [split; [exact Hf | lia]|].
  destruct (@handleFormatText_keeps_selection TagMark 4 10 initial_state _ Hf Hlt)
    as [st' [sel' [slide' [R [F [B _]]]]]]; [simpl; lia|].
  exists st'. split.
  - rewrite R. injection R as <- <-. reflexivity.
  - rewrite F. cbn [option_map]. rewrite B. reflexivity.
Defined.

Lemma updateSlide_unknown_id id updates st :
  ~ In id (map slide_id (slides st)) -> slides (updateSlide id updates st) = slides st.
Proof.
  unfold updateSlide. cbn [slides]. intros H.
  rewrite <- (map_id (slides st)) at 2. apply map_ext_in. intros s Hs.
  destruct (jseqb (slide_id s) id) eqn:E; [|reflexivity].
  apply jseqb_eq in E. exfalso. apply H. rewrite <- E. apply in_map, Hs.
Qed.

Lemma find_none_not_in st :
  slide_of_selected_id st = None -> ~ In (selectedSlideId st) (map slide_id (slides st)).
Proof.
  unfold slide_of_selected_id. intros H I. apply in_map_iff in I as [s [E Hs]].
  pose proof (find_none _ _ H s Hs) as N. cbv beta in N.
  rewrite E in N. assert (T : jseqb (selectedSlideId st) (selectedSlideId st) = true)
    by (apply jseqb_eq; reflexivity).
  congruence.
Qed.

(** X4: when the selected id is the id of no slide, the handlers read the
    first slide but write under the selected id: formatting a selection or
    inserting an emoji leaves every slide as it was (and throws when
    there is no slide at all). *)
Theorem stale_selection_loses_edits st :
  slide_of_selected_id st = None ->
  (forall tag sel,
     match handleFormatText tag (Some sel) st with
     | Fulfilled (st', _) => slides st' = slides st /\ slides st <> []
     | Rejected _ => slides st = []
     end)
  /\ (forall emoji sel,
       match handleInsertEmoji emoji (Some sel) st with
       | Fulfilled (st', _) => slides st' = slides st /\ slides st <> []
       | Rejected _ => slides st = []
       end).
Proof.
  intros H. pose proof (find_none_not_in _ H) as N.
  assert (S : selectedSlide st = hd_error (slides st)).
  { unfold selectedSlide. unfold slide_of_selected_id in H. rewrite H. reflexivity. }
  split.
  - intros tag sel. unfold handleFormatText. rewrite S.
    destruct (slides st) as [|first rest] eqn:E; [reflexivity|]. cbn [hd_error].
    destruct (selectionStart sel =? selectionEnd sel).
    + rewrite E. split; [reflexivity | discriminate].
    + rewrite updateSlide_unknown_id by (rewrite E; exact N).
      rewrite E. split; [reflexivity | discriminate].
  - intros emoji sel. unfold handleInsertEmoji. rewrite S.
    destruct (slides st) as [|first rest] eqn:E; [reflexivity|]. cbn [hd_error].
    rewrite updateSlide_unknown_id by (rewrite E; exact N).
    rewrite E. split; [reflexivity | discriminate].
Qed.

Lemma stale_selection_loses_edits_example :
  slide_of_selected_id (mkApp INITIAL_SLIDES (lit "9")) = None
  /\ match handleFormatText TagB (Some (mkSelection 0 4)) (mkApp INITIAL_SLIDES (lit "9")) with
     | Fulfilled (st', _) => slides st' = INITIAL_SLIDES /\ INITIAL_SLIDES <> []
     | Rejected _ => INITIAL_SLIDES = []
     end.
Proof.
  assert (H : slide_of_selected_id (mkApp INITIAL_SLIDES (lit "9")) = None) by reflexivity.
  split; [exact H|].
  exact (proj1 (@stale_selection_loses_edits (mkApp INITIAL_SLIDES (lit "9")) H)
           TagB (mkSelection 0 4)).
Defined.

Lemma jseqb_refl a : jseqb a a = true.
Proof. apply jseqb_eq. reflexivity. Qed.

Lemma jseqb_neq a b : a <> b -> jseqb a b = false.
Proof.
  intros H. destruct (jseqb a b) eqn:E; [|reflexivity].
  apply jseqb_eq in E. congruence.
Qed.

Lemma filter_other_id_absent id l :
  ~ In id (map slide_id l) -> filter (other_id id) l = l.
Proof.
  induction l as [|s l IH]; [reflexivity|]. simpl. intros H.
  unfold other_id at 1. rewrite jseqb_neq by (intros E; apply H; left; exact E).
  simpl. rewrite IH; [reflexivity|]. intros I. apply H. right. exact I.
Qed.

Lemma filter_other_id_ids id l :
  map slide_id (filter (other_id id) l) = filter (fun i => negb (jseqb i id)) (map slide_id l).
Proof.
  induction l as [|s l IH]; [reflexivity|]. simpl. unfold other_id at 1.
  destruct (jseqb (slide_id s) id); simpl; rewrite IH; reflexivity.
Qed.

Lemma NoDup_filter {A : Type} (f : A -> bool) l : NoDup l -> NoDup (filter f l).
Proof.
  induction 1 as [|x l Hx Hl IH]; simpl; [constructor|].
  destruct (f x); [|exact IH]. constructor; [|exact IH].
  intros I. apply filter_In in I. apply Hx, I.
Qed.

Lemma length_filter_one id l :
  NoDup (map slide_id l) -> In id (map slide_id l) ->
  S (length (filter (other_id id) l)) = length l.
Proof.
  induction l as [|s l IH]; [intros _ []|]. simpl. intros ND I.
  inversion ND as [|x xs Hx Hxs]; subst. unfold other_id at 1.
  destruct (jseqb (slide_id s) id) eqn:E; simpl.
  - apply jseqb_eq in E. subst id. rewrite filter_other_id_absent by exact Hx. reflexivity.
  - destruct I as [I | I]; [apply jseqb_eq in I; congruence|].
    rewrite IH by assumption. reflexivity.
Qed.

(** X5: when the ids of the slides are distinct, [removeSlide] never
    empties a list that has a slide: it removes exactly the slide with the
    id when there is more than one slide, and nothing otherwise; the
    other slides stay, in order, and the ids stay distinct. *)
Theorem removeSlide_keeps_a_slide id st :
  NoDup (slide_ids st) -> slides st <> [] ->
  slides (removeSlide id st) <> []
  /\ NoDup (slide_ids (removeSlide id st))
  /\ slides (removeSlide id st)
     = (if 1 <? length (slides st) then filter (other_id id) (slides st) else slides st)
  /\ (1 < length (slides st) -> In id (slide_ids st) ->
      S (length (slides (removeSlide id st))) = length (slides st)
      /\ ~ In id (slide_ids (removeSlide id st))).
Proof.
  intros ND NE. unfold removeSlide, slide_ids in *.
  destruct (1 <? length (slides st)) eqn:G; cbn [slides].
  - apply Nat.ltb_lt in G.
    fold (other_id id).
    assert (L : forall l, NoDup (map slide_id l) -> 1 < length l ->
                  filter (other_id id) l <> []).
    { intros l NDl Ll E.
      destruct (in_dec (list_eq_dec N.eq_dec) id (map slide_id l)) as [I | I].
      - pose proof (length_filter_one id l NDl I) as K. rewrite E in K. simpl in K. lia.
      - rewrite filter_other_id_absent in E by exact I. subst l. simpl in Ll. lia. }
    split; [apply L; assumption|]. split; [|split; [reflexivity|]].
    + rewrite filter_other_id_ids. apply NoDup_filter, ND.
    + intros _ I. split; [apply length_filter_one; assumption|].
      rewrite filter_other_id_ids. intros K. apply filter_In in K as [_ K].
      rewrite jseqb_refl in K. discriminate.
  - split; [exact NE|]. split; [exact ND|]. split; [reflexivity|].
    apply Nat.ltb_ge in G. intros H. lia.
Qed.

Lemma removeSlide_keeps_a_slide_initial :
  (NoDup (slide_ids initial_state) /\ slides initial_state <> [])
  /\ slide_ids (removeSlide (lit "2") initial_state) = [lit "1"; lit "3"; lit "4"].
Proof.
  assert (ND : NoDup (slide_ids initial_state)).
  { repeat constructor; simpl; intros H;
      repeat (destruct H as [H | H]; [discriminate|]); exact H. }
  assert (NE : slides initial_state <> []) by discriminate.
  split; [split; assumption|].
  destruct (@removeSlide_keeps_a_slide (lit "2") initial_state ND NE) as [_ [_ [E _]]].
  unfold slide_ids. rewrite E. reflexivity.
Defined.

(** X6: removing the first slide while it is the selected one leaves the
    selected id pointing at the removed slide, because the id to select
    is read from the list as it was before the removal; the editor then
    falls back on the new first slide. *)
Theorem removeSlide_first_selected_dangles first second rest :
  NoDup (map slide_id (first :: second :: rest)) ->
  slides (removeSlide (slide_id first) (mkApp (first :: second :: rest) (slide_id first)))
  = second :: rest
  /\ selectedSlideId (removeSlide (slide_id first)
                        (mkApp (first :: second :: rest) (slide_id first)))
     = slide_id first
  /\ slide_of_selected_id (removeSlide (slide_id first)
                             (mkApp (first :: second :: rest) (slide_id first)))
     = None
  /\ selectedSlide (removeSlide (slide_id first)
                      (mkApp (first :: second :: rest) (slide_id first)))
     = Some second.
Proof.
  intros ND. inversion ND as [|x xs Hx Hxs]; subst.
  change (slide_id second :: map slide_id rest) with (map slide_id (second :: rest)) in Hx.
  assert (F : filter (other_id (slide_id first)) (first :: second :: rest) = second :: rest).
  { change (first :: second :: rest) with ([first] ++ second :: rest).
    rewrite filter_app, (filter_other_id_absent _ _ Hx).
    cbn [filter]. unfold other_id. rewrite jseqb_refl. reflexivity. }
  assert (R : removeSlide (slide_id first) (mkApp (first :: second :: rest) (slide_id first))
              = mkApp (second :: rest) (slide_id first)).
  { unfold removeSlide. cbn [slides selectedSlideId length Nat.ltb Nat.leb].
    fold (other_id (slide_id first)). rewrite F, jseqb_refl. reflexivity. }
  rewrite R. cbn [slides selectedSlideId].
  assert (N : slide_of_selected_id (mkApp (second :: rest) (slide_id first)) = None).
  { unfold slide_of_selected_id. cbn [slides selectedSlideId].
    destruct (find _ _) as [s|] eqn:E; [|reflexivity].
    apply find_some in E as [I K]. apply jseqb_eq in K.
    exfalso. apply Hx. rewrite <- K. apply in_map, I. }
  repeat split; [exact N|].
  unfold selectedSlide. unfold slide_of_selected_id in N. rewrite N. reflexivity.
Qed.

Lemma removeSlide_first_selected_dangles_initial :
  NoDup (map slide_id INITIAL_SLIDES)
  /\ selectedSlideId (removeSlide (lit "1") initial_state) = lit "1"
  /\ slide_ids (removeSlide (lit "1") initial_state) = [lit "2"; lit "3"; lit "4"]
  /\ option_map slide_id (selectedSlide (removeSlide (lit "1") initial_state))
     = Some (lit "2").
Proof.
  assert (ND : NoDup (map slide_id INITIAL_SLIDES)).
  { repeat constructor; simpl; intros H;
      repeat (destruct H as [H | H]; [discriminate|]); exact H. }
  split; [exact ND|].
  destruct (@removeSlide_first_selected_dangles _ _ _ ND) as [S [I [_ F]]].
  split; [exact I|]. split.
  - unfold slide_ids. change (removeSlide (lit "1") initial_state)
      with (removeSlide (slide_id (mkSlide (lit "1") COVER (lit "Stop <b>Guessing</b>")
              (lit "The secret to viral content is not luck, it's <mark>psychology</mark>.")
              None None)) initial_state).
    reflexivity.
  - reflexivity.
Defined.

(** X7: two slides added within the same millisecond get the same id, and
    removing one of them removes both, together with every older slide of
    that id: what is left are the older slides with another id, possibly
    none. *)
Theorem removeSlide_takes_both_new_slides now st :
  slides (removeSlide now (addSlide now (addSlide now st)))
  = filter (other_id now) (slides st).
Proof.
  unfold removeSlide, addSlide. cbn [slides slide_id].
  assert (G : (1 <? length ((slides st ++ [mkSlide now CONTENT (lit "New Slide")
                                              (lit "Add your content here.") None None])
                            ++ [mkSlide now CONTENT (lit "New Slide")
                                  (lit "Add your content here.") None None])) = true).
  { apply Nat.ltb_lt. rewrite !length_app. simpl. lia. }
  rewrite G. cbn [slides]. fold (other_id now).
  rewrite !filter_app. cbn [filter]. unfold other_id at 2 3. cbn [slide_id].
  rewrite jseqb_refl. cbn [negb]. rewrite !app_nil_r. reflexivity.
Qed.

(** X8: [updateSlide] changes only slides of the given id: the number of
    slides stays, a slide with another id stays where it is, an id that
    no slide has changes nothing, and doing the same update twice is the
    same as doing it once. *)
Theorem updateSlide_touches_one_id id updates st :
  length (slides (updateSlide id updates st)) = length (slides st)
  /\ (forall i s, nth_error (slides st) i = Some s -> slide_id s <> id ->
                 nth_error (slides (updateSlide id updates st)) i = Some s)
  /\ (~ In id (slide_ids st) -> updateSlide id updates st = st)
  /\ updateSlide id updates (updateSlide id updates st) = updateSlide id updates st.
Proof.
  split; [|split; [|split]].
  - unfold updateSlide. cbn [slides]. apply length_map.
  - intros i s Hi Hs. unfold updateSlide. cbn [slides].
    rewrite nth_error_map, Hi. cbn [option_map].
    rewrite jseqb_neq by exact Hs. reflexivity.
  - intros H. pose proof (updateSlide_unknown_id id updates st H) as E.
    unfold updateSlide in *. cbn [slides] in E. rewrite E. destruct st; reflexivity.
  - unfold updateSlide. cbn [slides selectedSlideId]. f_equal.
    rewrite map_map. apply map_ext. intros s.
    destruct (jseqb (slide_id s) id) eqn:E; [|rewrite E; reflexivity].
    destruct (jseqb (slide_id (spread s updates)) id); [|reflexivity].
    destruct s, updates as [[?|] [?|] [?|] [?|] [?|] [?|]]; reflexivity.
Qed.

Lemma updateSlide_touches_one_id_initial :
  ~ In (lit "7") (slide_ids initial_state)
  /\ updateSlide (lit "7") (mkUpdates None None (Some (lit "Lost")) None None None)
       initial_state
     = initial_state.
Proof.
  assert (H : ~ In (lit "7") (slide_ids initial_state)).
  { simpl. intros H. repeat (destruct H as [H | H]; [discriminate|]). exact H. }
  split; [exact H|].
  exact (proj1 (proj2 (proj2 (@updateSlide_touches_one_id (lit "7")
           (mkUpdates None None (Some (lit "Lost")) None None None) initial_state))) H).
Defined.

(** X9: the closing slide never shows an empty title or body: when the
    text is empty the component renders its stand-in text, a single plain
    line, so both renderings have at least one line; slides of the other
    types render an empty text as nothing. *)
Theorem closing_slide_always_has_text slide :
  (slide_type slide = END ->
     lines_of (fst (slide_texts slide)) <> [] /\ lines_of (snd (slide_texts slide)) <> []
     /\ (title slide = [] ->
         lines_of (fst (slide_texts slide)) = [[PlainText (lit "Thanks for reading!")]])
     /\ (body slide = [] ->
         lines_of (snd (slide_texts slide)) = [[PlainText (lit "Save this post for later")]]))
  /\ (slide_type slide <> END ->
      (title slide = [] -> fst (slide_texts slide) = None)
      /\ (body slide = [] -> snd (slide_texts slide) = None)).
Proof.
  assert (NE : forall a b, b <> [] -> lines_of (renderFormattedText (or_else a b)) <> []).
  { intros a b Hb E.
    assert (O : or_else a b <> []) by (destruct a; [exact Hb | discriminate]).
    rewrite lines_of_render in E by exact O.
    apply map_eq_nil in E. exact (split_newline_not_nil _ E). }
  unfold slide_texts. split.
  - intros ->. cbn [fst snd].
    split; [apply NE; discriminate|]. split; [apply NE; discriminate|].
    split; intros ->; reflexivity.
  - intros T. destruct (slide_type slide); try congruence; cbn [fst snd];
      split; intros ->; reflexivity.
Qed.

Lemma closing_slide_always_has_text_empty :
  slide_type (mkSlide (lit "4") END [] [] None None) = END
  /\ lines_of (fst (slide_texts (mkSlide (lit "4") END [] [] None None)))
     = [[PlainText (lit "Thanks for reading!")]].
Proof.
  split; [reflexivity|].
  exact (proj1 (proj2 (proj2 (proj1 (closing_slide_always_has_text
                                       (mkSlide (lit "4") END [] [] None None))
                                eq_refl)))
           eq_refl).
Defined.

(** X25: when the selected id is the id of a slide and the selection lies
    inside its body, [handleInsertEmoji] puts the emoji in the place of
    the selected text and leaves the text on both sides as it was; the
    cursor it restores sits right behind the emoji; the ids of the slides
    stay; and at a caret (an empty selection) no text is lost. *)
Theorem handleInsertEmoji_replaces_selection emoji start end_ st slide :
  slide_of_selected_id st = Some slide ->
  start <= end_ -> end_ <= length (body slide) ->
  exists st' slide',
    handleInsertEmoji emoji (Some (mkSelection start end_)) st
    = Fulfilled (st', Some (mkSelection (start + length emoji) (start + length emoji)))
    /\ slide_of_selected_id st' = Some slide'
    /\ body slide' = firstn start (body slide) ++ emoji ++ skipn end_ (body slide)
    /\ substring start (start + length emoji) (body slide') = emoji
    /\ length (body slide') + (end_ - start) = length (body slide) + length emoji
    /\ (start = end_ ->
        firstn start (body slide') ++ skipn (start + length emoji) (body slide')
        = body slide)
    /\ map slide_id (slides st') = map slide_id (slides st).
Proof.
  intros Hf Hle Hlen. unfold handleInsertEmoji. cbn [selectionStart selectionEnd].
  rewrite (selectedSlide_of_id _ Hf).
  destruct (@selection_parts start end_ (body slide) Hle Hlen) as [Eb _]. rewrite Eb.
  unfold substring_from.
  set (before := firstn start (body slide)).
  set (after := skipn end_ (body slide)).
  set (newText := before ++ emoji ++ after).
  set (upd := mkUpdates None None None (Some newText) None None).
  assert (Lb : length before = start) by (unfold before; rewrite length_firstn; lia).
  assert (La : length after = length (body slide) - end_)
    by (unfold after; apply length_skipn).
  eexists. exists (spread slide upd).
  split; [reflexivity|]. split; [|split; [reflexivity | split; [|split; [|split]]]].
  - unfold slide_of_selected_id, updateSlide. cbn [slides selectedSlideId].
    rewrite find_map_same_key.
    + unfold slide_of_selected_id in Hf. rewrite Hf. cbn [option_map].
      rewrite (find_some_key _ Hf). reflexivity.
    + intros s. destruct (jseqb (slide_id s) (selectedSlideId st)) eqn:K; exact K.
  - cbn [spread upd body set_body]. unfold substring, newText.
    rewrite !length_app, Lb.
    rewrite (Nat.min_l start), (Nat.min_l (start + length emoji)),
      (Nat.min_l start (start + length emoji)),
      (Nat.max_r start (start + length emoji)) by lia.
    replace (start + length emoji - start) with (length emoji) by lia.
    rewrite <- Lb at 1. rewrite skipn_length_app, firstn_length_app. reflexivity.
  - cbn [spread upd body set_body]. unfold newText. rewrite !length_app, Lb, La. lia.
  - intros <-. cbn [spread upd body set_body]. unfold newText.
    rewrite <- Lb at 1. rewrite firstn_length_app.
    replace (start + length emoji) with (length (before ++ emoji))
      by (rewrite length_app; lia).
    rewrite app_assoc, skipn_length_app. apply firstn_skipn.
  - apply map_id_updateSlide_body.
Qed.

Lemma handleInsertEmoji_replaces_selection_initial :
  (slide_of_selected_id initial_state = nth_error INITIAL_SLIDES 0 /\ 4 <= 4)
  /\ exists st',
       handleInsertEmoji [55357%N; 56613%N] (Some (mkSelection 4 4)) initial_state
       = Fulfilled (st', Some (mkSelection 6 6))
       /\ option_map body (slide_of_selected_id st')
          = Some (lit "The " ++ [55357%N; 56613%N]
                  ++ lit "secret to viral content is not luck, it's <mark>psychology</mark>.").
Proof.
  assert (Hf : slide_of_selected_id initial_state = nth_error INITIAL_SLIDES 0)
    by reflexivity.
  assert (Hle : 4 <= 4) by lia.
  split; [split; [exact Hf | lia]|].
  destruct (@handleInsertEmoji_replaces_selection [55357%N; 56613%N] 4 4 initial_state _
              Hf Hle)
    as [st' [slide' [R [F [B _]]]]]; [simpl; lia|].
  exists st'. split.
  - exact R.
  - rewrite F. cbn [option_map]. rewrite B. reflexivity.
Defined.

End EditorProperties.

(** * Properties of the login *)

Section LoginProperties.

Import Login.

Lemma page_loop_first_account g token before page after id :
  (forall p log, In p before -> page_details g log (page_request token p) = Body None) ->
  (forall log, page_details g log (page_request token page) = Body (Some id)) ->
  forall log,
  page_loop g token (before ++ page :: after) log
  = (Fulfilled (Some id, page_name page),
     log ++ map (page_request token) (before ++ [page])).
Proof.
  intros Hb Hp. induction before as [|p before IH]; intros log.
  - cbn [app page_loop map].
    change (lit "https://graph.facebook.com/" ++ API_VERSION ++ lit "/" ++ page_id page
            ++ lit "?fields=instagram_business_account&access_token=" ++ token)
      with (page_request token page).
    rewrite Hp. reflexivity.
  - cbn [app page_loop map].
    change (lit "https://graph.facebook.com/" ++ API_VERSION ++ lit "/" ++ page_id p
            ++ lit "?fields=instagram_business_account&access_token=" ++ token)
      with (page_request token p).
    rewrite Hb by (left; reflexivity).
    rewrite IH by (intros q l Hq; apply Hb; right; exact Hq).
    rewrite <- app_assoc. reflexivity.
Qed.

Lemma page_loop_no_account g token pages :
  (forall p log, In p pages -> page_details g log (page_request token p) = Body None) ->
  forall log,
  page_loop g token pages log
  = (Fulfilled (None, []), log ++ map (page_request token) pages).
Proof.
  induction pages as [|p pages IH]; intros Hb log.
  - cbn [page_loop map]. rewrite app_nil_r. reflexivity.
  - cbn [page_loop map].
    change (lit "https://graph.facebook.com/" ++ API_VERSION ++ lit "/" ++ page_id p
            ++ lit "?fields=instagram_business_account&access_token=" ++ token)
      with (page_request token p).
    rewrite Hb by (left; reflexivity).
    rewrite IH by (intros q l Hq; apply Hb; right; exact Hq).
    rewrite <- app_assoc. reflexivity.
Qed.

Lemma fetchInstagramAccount_unfold g token log :
  fetchInstagramAccount g token log
  = match me_accounts g log (accounts_request token) with
    | Unreachable reason => (Rejected (TypeError reason), log ++ [accounts_request token])
    | Body data =>
        match data with
        | None | Some [] => (Rejected no_pages_error, log ++ [accounts_request token])
        | Some pages =>
            match page_loop g token pages (log ++ [accounts_request token]) with
            | (Rejected e, log) => (Rejected e, log)
            | (Fulfilled (None, _), log) | (Fulfilled (Some [], _), log) =>
                (Rejected no_account_error, log)
            | (Fulfilled (Some igUserId, pageName), log) =>
                match user_details g log (account_request token igUserId) with
                | Unreachable reason =>
                    (Rejected (TypeError reason), log ++ [account_request token igUserId])
                | Body igUser =>
                    (Fulfilled (mkUser (ig_id igUser) (or_default (ig_name igUser) pageName)
                                  (ig_username igUser) (ig_profile_picture_url igUser) token),
                     log ++ [account_request token igUserId])
                end
            end
        end
    end.
Proof. reflexivity. Qed.

(** X17: the account is looked up through the pages in the order of the list:
    when the pages before the first one with an Instagram account have
    none, the requests are the page list, one per page up to and including
    that first one, and the details of its account; the pages after it are
    never asked.  The result carries the access token it was called with,
    and the name of the page when the account has no name. *)
Theorem first_connected_page_wins g token before page after id igUser :
  (forall log, me_accounts g log (accounts_request token)
               = Body (Some (before ++ page :: after))) ->
  (forall p log, In p before -> page_details g log (page_request token p) = Body None) ->
  (forall log, page_details g log (page_request token page) = Body (Some id)) ->
  id <> [] ->
  (forall log, user_details g log (account_request token id) = Body igUser) ->
  fetchInstagramAccount g token []
  = (Fulfilled (mkUser (ig_id igUser) (or_default (ig_name igUser) (page_name page))
                  (ig_username igUser) (ig_profile_picture_url igUser) token),
     accounts_request token :: map (page_request token) (before ++ [page])
     ++ [account_request token id]).
Proof.
  intros Ha Hb Hp Hid Hu. rewrite fetchInstagramAccount_unfold, Ha.
  assert (N : exists q rest, before ++ page :: after = q :: rest)
    by (destruct before; eexists; eexists; reflexivity).
  destruct N as [q [rest N]]. rewrite N. cbv beta iota. rewrite <- N.
  rewrite (@page_loop_first_account g token before page after id Hb Hp).
  destruct id as [|c id]; [congruence|]. rewrite Hu. reflexivity.
Qed.

Lemma first_connected_page_wins_example :
  fetchInstagramAccount example_graph (lit "EAAB") []
  = (Fulfilled (mkUser (lit "17841405793187218") (lit "Studio") (lit "ana") None (lit "EAAB")),
     [lit "https://graph.facebook.com/v19.0/me/accounts?access_token=EAAB";
      lit "https://graph.facebook.com/v19.0/101?fields=instagram_business_account&access_token=EAAB";
      lit "https://graph.facebook.com/v19.0/102?fields=instagram_business_account&access_token=EAAB";
      lit "https://graph.facebook.com/v19.0/17841405793187218?fields=id,username,name,profile_picture_url&access_token=EAAB"]).
Proof.
  apply (@first_connected_page_wins example_graph (lit "EAAB")
           [mkPage (lit "101") (lit "Bakery")] (mkPage (lit "102") (lit "Studio"))
           [mkPage (lit "103") (lit "Garage")] (lit "17841405793187218")
           (mkIgUser (lit "17841405793187218") None (lit "ana") None)).
  - intros log. reflexivity.
  - intros p log [<- | []]. reflexivity.
  - intros log. reflexivity.
  - discriminate.
  - intros log. reflexivity.
Defined.

(** X18: without a page, or without a page list in the answer, the lookup
    fails after its first request; with pages none of which has an
    Instagram account it fails after it has asked every page, in order,
    and it never asks for the details of an account. *)
Theorem lookup_without_account g token pages :
  (forall log, me_accounts g log (accounts_request token) = Body pages) ->
  (forall p l log, pages = Some l -> In p l ->
     page_details g log (page_request token p) = Body None) ->
  fetchInstagramAccount g token []
  = match pages with
    | None | Some [] => (Rejected no_pages_error, [accounts_request token])
    | Some l => (Rejected no_account_error,
                 accounts_request token :: map (page_request token) l)
    end.
Proof.
  intros Ha Hb. rewrite fetchInstagramAccount_unfold, Ha.
  destruct pages as [[|p l]|]; try reflexivity.
  rewrite (@page_loop_no_account g token (p :: l))
    by (intros q log Hq; apply (Hb q (p :: l)); auto).
  reflexivity.
Qed.

Lemma lookup_without_account_example :
  fetchInstagramAccount unconnected_graph (lit "EAAB") []
  = (Rejected no_account_error,
     accounts_request (lit "EAAB") :: map (page_request (lit "EAAB")) three_pages).
Proof.
  apply (@lookup_without_account unconnected_graph (lit "EAAB") (Some three_pages)).
  - intros log. reflexivity.
  - intros p l log _ _. reflexivity.
Defined.

Lemma filter_is_remote_app a b :
  filter is_remote (a ++ b) = filter is_remote a ++ filter is_remote b.
Proof. apply filter_app. Qed.

(** How a login can end, when it ends. *)
Lemma login_cases b g appId out evs :
  loginToInstagram b g appId = (Some out, evs) ->
  (out = Fulfilled ssr_user /\ evs = [])
  \/ (out = Fulfilled demo_user /\ filter is_remote evs = [] /\ trusted_origin b = false)
  \/ (out = Fulfilled demo_user /\ filter is_remote evs = []
      /\ (appId = None \/ appId = Some []) /\ (env_app_id b = None \/ env_app_id b = Some []))
  \/ (out = Fulfilled demo_user /\ trusted_origin b = true
      /\ login_response b = Some None)
  \/ (trusted_origin b = true
      /\ exists token o urls,
           login_response b = Some (Some token)
           /\ fetchInstagramAccount g token [] = (o, urls)
           /\ match o with
              | Fulfilled user => out = Fulfilled user
              | Rejected _ => out = Fulfilled demo_user
              end).
Proof.
  unfold loginToInstagram, trusted_origin.
  destruct (has_window b) eqn:W; cbn [negb];
    [|intros [= <- <-]; left; split; reflexivity].
  rewrite <- orb_assoc.
  set (trusted := jseqb (protocol b) (lit "https:")
                  || (jseqb (hostname b) (lit "localhost")
                      || jseqb (hostname b) (lit "127.0.0.1"))).
  assert (Mock : forall evs0 : list LoginEvent,
            filter is_remote evs0 = [] -> filter is_remote (evs0 ++ [Wait 800]) = []).
  { intros evs0 H. rewrite filter_is_remote_app, H. reflexivity. }
  assert (NoId : forall (a e : option jsstring),
            (a = None \/ a = Some []) -> (e = None \/ e = Some []) ->
            (Some (Fulfilled demo_user), [] ++ [Wait 800]) = (Some out, evs) ->
            out = Fulfilled demo_user /\ filter is_remote evs = []
            /\ (a = None \/ a = Some []) /\ (e = None \/ e = Some [])).
  { intros a e Ha He [= <- <-]. repeat split; assumption. }
  assert (Real : forall c r,
            (if trusted
             then
               match initFacebookSdk b (c :: r) with
               | None => (None, [])
               | Some evs0 =>
                   match login_response b with
                   | None =>
                       (None,
                        evs0 ++ [SdkLogin (lit "instagram_basic,instagram_content_publish,pages_show_list,pages_read_engagement")])
                   | Some response =>
                       match
                         match response with
                         | Some accessToken =>
                             let (out0, urls) := fetchInstagramAccount g accessToken [] in
                             (out0, map Get urls)
                         | None =>
                             (Rejected (Error (lit "User cancelled login or did not fully authorize.")),
                              [])
                         end
                       with
                       | (Fulfilled user, evs1) =>
                           (Some (Fulfilled user),
                            (evs0 ++ [SdkLogin (lit "instagram_basic,instagram_content_publish,pages_show_list,pages_read_engagement")])
                            ++ evs1)
                       | (Rejected error, evs1) =>
                           (Some (Fulfilled demo_user),
                            ((evs0 ++ [SdkLogin (lit "instagram_basic,instagram_content_publish,pages_show_list,pages_read_engagement")])
                             ++ evs1
                             ++ [ConsoleWarn (lit "Real Authentication failed or was cancelled. Falling back to simulation.")
                                   (Some error)])
                            ++ [Wait 800])
                       end
                   end
               end
             else
               (Some (Fulfilled demo_user),
                [ConsoleWarn (lit "Meta API: HTTPS required for Facebook Login. Switching to Simulation Mode.")
                   None] ++ [Wait 800]))
            = (Some out, evs) ->
            (out = Fulfilled demo_user /\ filter is_remote evs = [] /\ trusted = false)
            \/ (out = Fulfilled demo_user /\ trusted = true /\ login_response b = Some None)
            \/ (trusted = true
                /\ exists token o urls,
                     login_response b = Some (Some token)
                     /\ fetchInstagramAccount g token [] = (o, urls)
                     /\ match o with
                        | Fulfilled user => out = Fulfilled user
                        | Rejected _ => out = Fulfilled demo_user
                        end)).
  { intros c r. destruct trusted.
    - destruct (initFacebookSdk b (c :: r)) as [evs0|]; [|discriminate].
      destruct (login_response b) as [[token|]|]; [| |discriminate].
      + destruct (fetchInstagramAccount g token []) as [[user|e] urls] eqn:F;
          intros [= <- <-]; right; right; (split; [reflexivity|]);
          eexists; eexists; eexists; (split; [reflexivity|]); (split; [exact F|]);
          reflexivity.
      + intros [= <- <-]. right. left. repeat split.
    - intros [= <- <-]. left. repeat split. }
  destruct appId as [[|c r]|].
  - destruct (env_app_id b) as [[|c r]|] eqn:E.
    + intros H. right. right. left. apply (NoId (Some []) (Some [])); auto.
    + intros H. apply Real in H.
      destruct H as [H | [H | H]]; [right; left | do 3 right; left | do 4 right]; exact H.
    + intros H. right. right. left. apply (NoId (Some []) None); auto.
  - intros H. apply Real in H.
    destruct H as [H | [H | H]]; [right; left | do 3 right; left | do 4 right]; exact H.
  - destruct (env_app_id b) as [[|c r]|] eqn:E.
    + intros H. right. right. left. apply (NoId None (Some [])); auto.
    + intros H. apply Real in H.
      destruct H as [H | [H | H]]; [right; left | do 3 right; left | do 4 right]; exact H.
    + intros H. right. right. left. apply (NoId None None); auto.
Qed.

(** X19: [loginToInstagram] never rejects.  When it settles it gives an
    account: the one the lookup found, which needs a trusted origin, an
    application id and a user who authorizes; otherwise one of the two
    made-up accounts, both with the sentinel id.  On an origin that is not
    trusted it uses neither the SDK nor the network. *)
Theorem loginToInstagram_never_rejects b g appId out evs :
  loginToInstagram b g appId = (Some out, evs) ->
  exists user, out = Fulfilled user
    /\ ((simulated (user_id user) = true /\ (user = ssr_user \/ user = demo_user))
        \/ exists token urls,
             trusted_origin b = true /\ login_response b = Some (Some token)
             /\ fetchInstagramAccount g token [] = (Fulfilled user, urls))
    /\ (trusted_origin b = false -> filter is_remote evs = []).
Proof.
  intros R.
  destruct (login_cases _ _ _ R)
    as [[-> ->] | [[-> [N T]] | [[-> [N _]] | [[-> [T _]] | [T H]]]]].
  - exists ssr_user. split; [reflexivity|]. split; [left; split; [reflexivity | left; reflexivity]|].
    reflexivity.
  - exists demo_user. split; [reflexivity|]. split; [left; split; [reflexivity | right; reflexivity]|].
    intros _. exact N.
  - exists demo_user. split; [reflexivity|]. split; [left; split; [reflexivity | right; reflexivity]|].
    intros _. exact N.
  - exists demo_user. split; [reflexivity|]. split; [left; split; [reflexivity | right; reflexivity]|].
    congruence.
  - destruct H as [token [[user|e] [urls [L [F ->]]]]].
    + exists user. split; [reflexivity|]. split; [|congruence].
      right. exists token, urls. repeat split; assumption.
    + exists demo_user. split; [reflexivity|].
      split; [left; split; [reflexivity | right; reflexivity] | congruence].
Qed.

Lemma loginToInstagram_never_rejects_http :
  loginToInstagram http_page example_graph (Some (lit "1029384756"))
  = (Some (Fulfilled demo_user),
     [ConsoleWarn (lit "Meta API: HTTPS required for Facebook Login. Switching to Simulation Mode.")
        None;
      Wait 800])
  /\ filter is_remote (snd (loginToInstagram http_page example_graph
                              (Some (lit "1029384756")))) = [].
Proof.
  split; [reflexivity|].
  destruct (@loginToInstagram_never_rejects http_page example_graph (Some (lit "1029384756"))
              _ _ eq_refl) as [user [_ [_ N]]].
  exact (N eq_refl).
Defined.

(** X20: a real login that fails, for whatever reason, is not reported: the
    caller gets a made-up account with the sentinel id, so that a publish
    run for it makes no network call and, with a caption that can be
    encoded, ends in success. *)
Theorem failed_login_publishes_offline b g appId out evs env blobs caption onProgress :
  real_login_failed b g ->
  loginToInstagram b g appId = (Some out, evs) ->
  exists user, out = Fulfilled user /\ simulated (user_id user) = true
    /\ forall result tr,
         publishCarouselToInstagram env user blobs caption onProgress [] = (result, tr) ->
         fetches tr = []
         /\ (encodable caption = true ->
             exists now, result = Fulfilled (mkData None (lit "published_media_" ++ lit now))).
Proof.
  intros Failed R.
  assert (U : exists user, out = Fulfilled user /\ simulated (user_id user) = true).
  { destruct (login_cases _ _ _ R)
      as [[-> _] | [[-> _] | [[-> _] | [[-> _] | [T H]]]]];
      try (eexists; split; reflexivity).
    destruct H as [token [o [urls [L [F H]]]]].
    destruct Failed as [N | [N | [token' [e [urls' [L' F']]]]]]; [congruence | congruence |].
    rewrite L in L'. injection L' as <-. rewrite F in F'. injection F' as -> _.
    subst out. eexists; split; reflexivity. }
  destruct U as [user [-> M]]. exists user. split; [reflexivity|]. split; [exact M|].
  intros result tr P.
  destruct (publish_run _ _ _ _ _ P) as [evs0 [-> [_ [F [S _]]]]].
  rewrite fetches_logged. split; [exact (F M) | exact (S M)].
Qed.

Lemma failed_login_publishes_offline_unconnected :
  real_login_failed https_page unconnected_graph
  /\ fst (loginToInstagram https_page unconnected_graph (Some (lit "1029384756")))
     = Some (Fulfilled demo_user)
  /\ fetches (snd (publishCarouselToInstagram accepting_env demo_user [slide 1; slide 2]
                     (lit "Two slides") true [])) = [].
Proof.
  assert (Failed : real_login_failed https_page unconnected_graph).
  { right. right. exists (lit "EAAB"). eexists. eexists. split; reflexivity. }
  split; [exact Failed|]. split; [reflexivity|].
  destruct (@failed_login_publishes_offline https_page unconnected_graph
              (Some (lit "1029384756")) _ _ accepting_env [slide 1; slide 2]
              (lit "Two slides") true Failed (surjective_pairing _))
    as [user [E [_ P]]].
  injection E as <-.
  exact (proj1 (P _ _ (surjective_pairing _))).
Defined.

End LoginProperties.

(** * Properties of publishing from the editor *)

Section PublisherProperties.

Import Editor Publisher.

Lemma renders_tail toBlob i slide rest :
  renders toBlob i (slide :: rest) -> renders toBlob (S i) rest.
Proof.
  intros H j s Hj e. replace (S i + j) with (i + S j) by lia. apply (H (S j) s Hj).
Qed.

Lemma renders_head toBlob i slide rest e :
  renders toBlob i (slide :: rest) -> toBlob i (slide_id slide) <> RenderFails e.
Proof.
  intros H. specialize (H 0 slide eq_refl e). rewrite Nat.add_0_r in H. exact H.
Qed.

Lemma render_loop_renders toBlob total slides :
  forall i blobs,
  renders toBlob i slides ->
  render_loop toBlob total i slides blobs
  = (Fulfilled (blobs ++ rendered_from toBlob i slides),
     shown (map (rendering_status total) (seq i (length slides)))).
Proof.
  induction slides as [|slide rest IH]; intros i blobs H.
  - simpl. rewrite app_nil_r. reflexivity.
  - pose proof (renders_tail H) as Ht. pose proof (fun e => @renders_head _ _ _ _ e H) as Hh.
    cbn [render_loop rendered_from length seq map shown].
    destruct (toBlob i (slide_id slide)) as [|[blob|]|e].
    + rewrite (IH (S i) blobs Ht). reflexivity.
    + rewrite (IH (S i) (blobs ++ [blob]) Ht), <- app_assoc. reflexivity.
    + rewrite (IH (S i) blobs Ht). reflexivity.
    + destruct (Hh e eq_refl).
Qed.

Lemma render_loop_rejection toBlob total e :
  forall k slides i blobs slide,
  renders toBlob i (firstn k slides) ->
  nth_error slides k = Some slide ->
  toBlob (i + k) (slide_id slide) = RenderFails e ->
  render_loop toBlob total i slides blobs
  = (Rejected e, shown (map (rendering_status total) (seq i (S k)))).
Proof.
  induction k as [|k IH]; intros [|s rest] i blobs slide H N F; try discriminate.
  - injection N as ->. rewrite Nat.add_0_r in F.
    cbn [render_loop]. rewrite F. reflexivity.
  - cbn [nth_error] in N. cbn [firstn] in H.
    pose proof (renders_tail H) as Ht. pose proof (fun e => @renders_head _ _ _ _ e H) as Hh.
    replace (i + S k) with (S i + k) in F by lia.
    cbn [render_loop]. change (seq i (S (S k))) with (i :: seq (S i) (S k)).
    destruct (toBlob i (slide_id s)) as [|[blob|]|e0].
    + rewrite (IH rest (S i) blobs slide Ht N F). reflexivity.
    + rewrite (IH rest (S i) (blobs ++ [blob]) slide Ht N F). reflexivity.
    + rewrite (IH rest (S i) blobs slide Ht N F). reflexivity.
    + destruct (Hh e0 eq_refl).
Qed.

Lemma status_updates_progress tr : status_updates tr = shown (progress tr).
Proof.
  unfold status_updates, shown, progress.
  induction tr as [|e tr IH]; [reflexivity|].
  destruct e; simpl; rewrite ?IH; reflexivity.
Qed.

Lemma length_rendered_from toBlob slides :
  forall i, length (rendered_from toBlob i slides) <= length slides.
Proof.
  induction slides as [|slide rest IH]; intros i; simpl; [lia|].
  specialize (IH (S i)).
  destruct (toBlob i (slide_id slide)) as [|[blob|]|e]; simpl; lia.
Qed.

Lemma calls_logged out evs : calls (logged out evs) = calls evs.
Proof. destruct out; simpl; [reflexivity|]. rewrite calls_app. apply app_nil_r. Qed.

(** What [handlePublish] does when no rendering is rejected, in terms of
    the publish run it starts. *)
Lemma handlePublish_run env toBlob user slides caption :
  renders toBlob 0 slides ->
  handlePublish env toBlob (Some user) slides caption
  = (opening
     ++ shown (map (rendering_status (length slides)) (seq 0 (length slides)))
     ++ [SetPublishStatus StatusUploading]
     ++ shown (progress (snd (publishCarouselToInstagram env user
                                (rendered_from toBlob 0 slides) caption true [])))
     ++ match fst (publishCarouselToInstagram env user
                     (rendered_from toBlob 0 slides) caption true []) with
        | Fulfilled _ => success_report
        | Rejected e => failure_report e
        end,
     snd (publishCarouselToInstagram env user (rendered_from toBlob 0 slides) caption true [])).
Proof.
  intros H. unfold handlePublish. rewrite (render_loop_renders _ [] H). cbn [app].
  destruct (publishCarouselToInstagram env user (rendered_from toBlob 0 slides) caption true [])
    as [[result|e] tr]; cbn [fst snd]; rewrite status_updates_progress, <- !app_assoc;
    reflexivity.
Qed.

(** X21: the run that [handlePublish] starts gets the blobs of the slides whose
    rendering gave one, in the order of the slides: a slide without an
    element, or whose rendering gave [null], is left out without a word.
    The run starts by uploading exactly these blobs; and when only one
    slide of several gave a blob, it takes the single-image path and makes
    no carousel call. *)
Theorem handlePublish_publishes_rendered_slides env toBlob user slides caption :
  renders toBlob 0 slides ->
  snd (handlePublish env toBlob (Some user) slides caption)
  = snd (publishCarouselToInstagram env user (rendered_from toBlob 0 slides) caption true [])
  /\ length (rendered_from toBlob 0 slides) <= length slides
  /\ (exists urls, length urls = length (rendered_from toBlob 0 slides)
        /\ prefix_of (upload_calls (rendered_from toBlob 0 slides) urls)
             (api (snd (handlePublish env toBlob (Some user) slides caption))))
  /\ (length (rendered_from toBlob 0 slides) = 1 ->
      forall c, In c (calls (snd (handlePublish env toBlob (Some user) slides caption))) ->
      is_carousel_call c = false).
Proof.
  intros H. rewrite (handlePublish_run env user caption H). cbn [snd].
  split; [reflexivity|]. split; [apply length_rendered_from|].
  destruct (run_full _ _ _ _ _ (surjective_pairing
              (publishCarouselToInstagram env user (rendered_from toBlob 0 slides)
                 caption true [])))
    as [evs0 [E [[_ [_ [_ [_ [NC _]]]]] [_ [[rs [L [rest U]]] _]]]]].
  rewrite E, api_logged, calls_logged. split.
  - exists (map upload_url rs). rewrite length_map. split; [exact L|].
    rewrite U. apply prefix_of_start.
  - exact NC.
Qed.

Lemma handlePublish_publishes_rendered_slides_skipping :
  renders skipping_second 0 INITIAL_SLIDES
  /\ rendered_from skipping_second 0 INITIAL_SLIDES = [slide 0; slide 2; slide 3]
  /\ snd (handlePublish accepting_env skipping_second (Some demo_user) INITIAL_SLIDES
            (lit "Launch day"))
     = snd (publishCarouselToInstagram accepting_env demo_user [slide 0; slide 2; slide 3]
              (lit "Launch day") true []).
Proof.
  assert (H : renders skipping_second 0 INITIAL_SLIDES).
  { intros j s _ e. unfold skipping_second. destruct (0 + j =? 1); discriminate. }
  split; [exact H|]. split; [reflexivity|].
  exact (proj1 (handlePublish_publishes_rendered_slides accepting_env demo_user
                  (lit "Launch day") H)).
Defined.

(** X22: when no rendering is rejected, the component is told: the opening
    message; one message per slide, counting the slides; the status
    [uploading]; the status messages of the run, which count the blobs;
    and then either the success report, when the run is fulfilled, or the
    failure report, when it is rejected: the error goes to the console and
    the message shown does not depend on it.  The status [publishing] is
    never set. *)
Theorem handlePublish_reports_the_run env toBlob user slides caption out tr :
  renders toBlob 0 slides ->
  publishCarouselToInstagram env user (rendered_from toBlob 0 slides) caption true []
  = (out, tr) ->
  handlePublish env toBlob (Some user) slides caption
  = (opening
     ++ shown (map (rendering_status (length slides)) (seq 0 (length slides)))
     ++ [SetPublishStatus StatusUploading]
     ++ shown (progress tr)
     ++ match out with
        | Fulfilled _ => success_report
        | Rejected e => failure_report e
        end,
     tr)
  /\ (forall result, out = Fulfilled result ->
      progress tr = expected_progress true (length (rendered_from toBlob 0 slides)))
  /\ ~ In (SetPublishStatus StatusPublishing)
         (fst (handlePublish env toBlob (Some user) slides caption)).
Proof.
  intros H R. rewrite (handlePublish_run env user caption H), R. cbn [fst snd].
  split; [reflexivity|]. split.
  - intros result ->. destruct (publish_run _ _ _ _ _ R) as [evs0 [-> [_ [_ [_ [RP _]]]]]].
    rewrite progress_logged. exact (proj1 (proj2 (RP result eq_refl))).
  - rewrite !in_app_iff. unfold shown.
    intros [I | [I | [I | [I | I]]]].
    + destruct I as [I | [I | []]]; discriminate.
    + apply in_map_iff in I as [m [I _]]. discriminate.
    + destruct I as [I | []]. discriminate.
    + apply in_map_iff in I as [m [I _]]. discriminate.
    + destruct out; simpl in I; intuition discriminate.
Qed.

Lemma handlePublish_reports_the_run_refused :
  renders skipping_second 0 INITIAL_SLIDES
  /\ fst (handlePublish refusing_env skipping_second (Some connected_user) INITIAL_SLIDES
            (lit "Launch day"))
     = opening
       ++ shown [lit "Rendering slide 1 of 4..."; lit "Rendering slide 2 of 4...";
                 lit "Rendering slide 3 of 4..."; lit "Rendering slide 4 of 4..."]
       ++ [SetPublishStatus StatusUploading]
       ++ shown [lit "Uploading slide 1 of 3..."; lit "Uploading slide 2 of 3...";
                 lit "Uploading slide 3 of 3..."; lit "Preparing slide 1 for Instagram..."]
       ++ failure_report (Error (lit "Invalid OAuth access token.")).
Proof.
  assert (H : renders skipping_second 0 INITIAL_SLIDES).
  { intros j s _ e. unfold skipping_second. destruct (0 + j =? 1); discriminate. }
  split; [exact H|].
  assert (R : publishCarouselToInstagram refusing_env connected_user
                (rendered_from skipping_second 0 INITIAL_SLIDES) (lit "Launch day") true []
              = (Rejected (Error (lit "Invalid OAuth access token.")),
                 snd (publishCarouselToInstagram refusing_env connected_user
                        (rendered_from skipping_second 0 INITIAL_SLIDES)
                        (lit "Launch day") true [])))
    by (vm_compute; reflexivity).
  rewrite (proj1 (@handlePublish_reports_the_run _ _ _ _ _ _ _ H R)). cbn [fst].
  vm_compute. reflexivity.
Defined.

(** X23: when the rendering of a slide is rejected, nothing is uploaded and no
    service is called: after the messages up to that slide the error goes
    to the console and the failure is reported. *)
Theorem rejected_rendering_uploads_nothing env toBlob user slides caption k e :
  first_rejection toBlob slides k e ->
  handlePublish env toBlob (Some user) slides caption
  = (opening
     ++ shown (map (rendering_status (length slides)) (seq 0 (S k)))
     ++ failure_report e,
     []).
Proof.
  intros [H [s [N F]]]. unfold handlePublish.
  rewrite (@render_loop_rejection toBlob (length slides) e k slides 0 [] s H N F).
  reflexivity.
Qed.

Lemma rejected_rendering_uploads_nothing_third :
  first_rejection failing_third INITIAL_SLIDES 2 (Error (lit "tainted canvas"))
  /\ handlePublish accepting_env failing_third (Some demo_user) INITIAL_SLIDES
       (lit "Launch day")
     = (opening
        ++ shown [lit "Rendering slide 1 of 4..."; lit "Rendering slide 2 of 4...";
                  lit "Rendering slide 3 of 4..."]
        ++ failure_report (Error (lit "tainted canvas")),
        []).
Proof.
  assert (H : first_rejection failing_third INITIAL_SLIDES 2 (Error (lit "tainted canvas"))).
  { split.
    - intros j s Hj e. destruct j as [|[|j]]; [discriminate | discriminate |].
      destruct j; discriminate.
    - eexists. split; reflexivity. }
  split; [exact H|].
  exact (@rejected_rendering_uploads_nothing accepting_env failing_third demo_user
           INITIAL_SLIDES (lit "Launch day") 2 _ H).
Defined.

End PublisherProperties.
